(** * Throwlytics: the statistical core of [src/app/page.tsx]

    A shallow embedding of the pure functions of the page module (helpers,
    skill bands, diagnosis, synthetic population, percentile engine,
    histogram, session statistics) and the properties the specification
    states about them.

    Numbers.  A JavaScript [number] is modelled as an exact rational [Q]:
    the order, the arithmetic and the rounding to integers are those of the
    reals.  The values the page handles are finite ([toNum] rejects every
    non-finite input), so [NaN] and the infinities are outside this model,
    and so are the rounding error and the overflow of IEEE doubles; the
    properties stated on it are those that do not depend on them.  A number
    that the code produces as an integer (a rounded percentile, a bin index)
    is a [Z]; array indices and lengths are [nat].  An optional value
    ([T | undefined]) is an [option].

    Doubles.  Two places are modelled on IEEE 754 doubles, because what the
    code does there depends on them.  The seed of the generator is an
    integer-valued double, and its sums are rounded from 2^53 on
    ([roundDouble]).  The histogram and the scale of its graph are given a
    second time on binary64 values ([Double.computeHistogram],
    [Double.valueToX]), where a span can overflow and a position can be
    [NaN]. *)

From Stdlib Require Import String Ascii.
From Stdlib Require Import QArith ZArith Znumtheory List Lia Lqa Bool.
From Stdlib Require Import DecimalString.
From Stdlib Require Import Qround Qabs Permutation Sorted.
From Stdlib Require Import SpecFloat.
From Equations Require Import Equations.
Import ListNotations.

Local Open Scope Q_scope.

(* ------------------------------------------------------------------ *)
(** * Numbers and arrays *)

Definition number := Q.

(** [Math.round]: the nearest integer, a tie going up. *)
Definition Math_round (x : number) : Z := Qfloor (x + (1 # 2)).

(** [Math.floor]. *)
Definition Math_floor (x : number) : Z := Qfloor x.

(** [Math.abs]. *)
Definition Math_abs (x : number) : number := Qabs x.

(** The comparisons [a <= b], [a < b], [a >= b], [a > b] and [a === b]. *)
Definition num_le (a b : number) : bool := Qle_bool a b.
Definition num_lt (a b : number) : bool := negb (Qle_bool b a).
Definition num_eq (a b : number) : bool := Qeq_bool a b.

Local Notation "a <=? b" := (num_le a b) (at level 70) : Q_scope.
Local Notation "a <? b" := (num_lt a b) (at level 70) : Q_scope.
Local Notation "a >=? b" := (num_le b a) (at level 70) : Q_scope.
Local Notation "a >? b" := (num_lt b a) (at level 70) : Q_scope.

(** [Math.max(a, b)] and [Math.min(a, b)]. *)
Definition Math_max (a b : number) : number := if a <=? b then b else a.
Definition Math_min (a b : number) : number := if a <=? b then a else b.

(** The part of the runtime's [Math] object that has no rational model:
    the square root and the transcendental functions.  The functions that use
    them take the runtime as a parameter, and every property proved below
    holds whatever it computes. *)
Class MathLib := {
  Math_sqrt : number -> number;
  Math_log : number -> number;
  Math_cos : number -> number;
  Math_PI : number
}.

(** A coarse rational runtime, used only to run the model on examples: the
    truncated integer square root, and the first terms of the series of the
    logarithm at 1 and of the cosine at 0. *)
Definition exampleMath : MathLib := {|
  Math_sqrt := fun x => inject_Z (Z.sqrt (Qfloor x));
  Math_log := fun x => x - 1;
  Math_cos := fun x => 1 - x * x / 2;
  Math_PI := 3.1416
|}.

(** [x ?? d]. *)
Definition orElse (x : option number) (d : number) : number :=
  match x with Some v => v | None => d end.

(** The length of an array as a number. *)
Definition num_of_nat (n : nat) : number := inject_Z (Z.of_nat n).

(** [a <= b] on an array cell that may be missing: reading past the end
    gives [undefined], and a comparison with [undefined] is false. *)
Definition cell_le (arr : list number) (i : nat) (value : number) : bool :=
  match nth_error arr i with
  | Some x => x <=? value
  | None => false
  end.

(** [Array.prototype.sort(cmp)].  The sort of the language is stable, and for
    a comparator that is a total preorder every stable sort returns the same
    array; the model is the stable insertion sort that inserts the elements
    from the last to the first, each in front of the first element it does
    not compare greater than. *)
Fixpoint sort_insert {A : Type} (cmp : A -> A -> number) (x : A) (l : list A)
  : list A :=
  match l with
  | [] => [x]
  | y :: ys => if cmp x y <=? 0 then x :: y :: ys else y :: sort_insert cmp x ys
  end.

Definition Array_sort {A : Type} (cmp : A -> A -> number) (l : list A) : list A :=
  fold_right (sort_insert cmp) [] l.

(** The order a comparator induces: [a] does not compare greater than [b]. *)
Definition cmp_le {A : Type} (cmp : A -> A -> number) (a b : A) : Prop :=
  cmp a b <= 0.

(** [x.toFixed(digits)] for [|x| < 1e21]: the decimal numeral with [digits]
    fractional digits nearest to [x], a tie going away from zero. *)
Definition digits_of (n : Z) : string :=
  NilZero.string_of_uint (N.to_uint (Z.to_N n)).

Fixpoint zeros (n : nat) : string :=
  match n with
  | O => EmptyString
  | S k => String "0" (zeros k)
  end.

Definition toFixed (x : number) (digits : nat) : string :=
  let scale := (10 ^ Z.of_nat digits)%Z in
  let n := Qfloor (Qabs x * inject_Z scale + (1 # 2)) in
  let sign := if x <? 0 then "-"%string else EmptyString in
  let whole := digits_of (n / scale)%Z in
  let frac := digits_of (n mod scale)%Z in
  match digits with
  | O => (sign ++ whole)%string
  | S _ =>
      (sign ++ whole ++ "." ++ zeros (digits - String.length frac) ++ frac)%string
  end.

(* ------------------------------------------------------------------ *)
(** * Helpers *)

(** [arr.reduce((a, b) => a + b, 0)]. *)
Definition sum (arr : list number) : number := fold_left Qplus arr 0.

Definition mean (arr : list number) : option number :=
  match arr with
  | [] => None
  | _ :: _ => Some (sum arr / num_of_nat (length arr))
  end.

(** The sample standard deviation.  Past the guard the array is not empty, so
    [mean(arr)!] is a number. *)
Definition sd `{MathLib} (arr : list number) : option number :=
  if (length arr <? 2)%nat then None
  else
    match mean arr with
    | None => None
    | Some m =>
        let v := fold_left (fun acc x => acc + (x - m) ^ 2) arr 0
                 / num_of_nat (length arr - 1) in
        Some (Math_sqrt v)
    end.

Definition clamp (x lo hi : number) : number := Math_max lo (Math_min hi x).

(* ------------------------------------------------------------------ *)
(** * Types *)

Module Metric.
Inductive t : Set := wobble | nose | spin | power.
End Metric.

Inductive Band : Set := Beginner | Intermediate | Advanced.

Module Issue.
Record t : Set := mk {
  metric : Metric.t;
  priority : number;
  headline : string;
  detail : string;
  value : option number;
  unitText : string;
  goalText : string
}.
End Issue.

Module Throw.
Record t : Set := mk {
  idx : nat;
  time : option string;
  speed : option number;
  spin : option number;
  nose : option number;
  wobble : option number;
  launch : option number;
  hyzer : option number;
  primaryThrowType : option string;
  throwType : option string
}.
End Throw.

Module GlobalStats.
Record t : Set := mk {
  speed : list number;
  spin : list number;
  nose : list number;
  wobble : list number;
  speedSorted : list number;
  spinSorted : list number;
  noseSorted : list number;
  wobbleSorted : list number
}.
End GlobalStats.

(* ------------------------------------------------------------------ *)
(** * Skill bands *)

Module BandResult.
Record t : Set := mk {
  band : Band;
  note : string;
  score01 : number
}.
End BandResult.

Definition bandForMetric (metric : Metric.t) (value : option number)
  : BandResult.t :=
  match value with
  | None => BandResult.mk Beginner "No data" 0
  | Some value =>
      match metric with
      | Metric.wobble =>
          if value <? 3 then BandResult.mk Advanced "Very clean release" 0.9
          else if value <? 4.5
          then BandResult.mk Intermediate "Some OAT; manageable" 0.6
          else BandResult.mk Beginner "High OAT/wobble" 0.25
      | Metric.nose =>
          if (value >=? 1) && (value <=? 3)
          then BandResult.mk Advanced "Driver-friendly nose" 0.9
          else if (value >? 3) && (value <=? 5)
          then BandResult.mk Intermediate "Slightly nose-up" 0.55
          else if value >? 5
          then BandResult.mk Beginner "Nose-up (distance leak)" 0.2
          else if Math_abs value <=? 1
          then BandResult.mk Intermediate "Near neutral" 0.6
          else BandResult.mk Intermediate "Slightly nose-down/neutral" 0.65
      | Metric.spin =>
          if value >=? 1100 then BandResult.mk Advanced "Elite spin" 0.9
          else if value >=? 950 then BandResult.mk Intermediate "Solid spin" 0.65
          else BandResult.mk Beginner "Low spin (timing/clamp)" 0.3
      | Metric.power =>
          if value >=? 60 then BandResult.mk Advanced "Elite speed" 0.9
          else if value >=? 52 then BandResult.mk Intermediate "Strong speed" 0.65
          else BandResult.mk Beginner "Developing speed" 0.35
      end
  end.

(* ------------------------------------------------------------------ *)
(** * Diagnosis *)

(** The parameter of [buildIssues]: the four optional session averages. *)
Module Averages.
Record t : Set := mk {
  avgSpeed : option number;
  avgSpin : option number;
  avgNose : option number;
  avgWobble : option number
}.
End Averages.

(** [arr.push(x)]. *)
Definition push {A : Type} (arr : list A) (x : A) : list A := arr ++ [x].

Definition buildIssues (stats : Averages.t) : list Issue.t :=
  let issues : list Issue.t := [] in
  let wobble := Averages.avgWobble stats in
  let nose := Averages.avgNose stats in
  let spin := Averages.avgSpin stats in
  let speed := Averages.avgSpeed stats in
  let issues :=
    if orElse wobble 0 >? 4 then
      push issues
        {| Issue.metric := Metric.wobble;
           Issue.priority := 100;
           Issue.value := wobble;
           Issue.unitText := "°";
           Issue.goalText := "< 3.0°";
           Issue.headline := "Wobble is costing you clean flight";
           Issue.detail :=
             "Avg wobble: " ++ toFixed (orElse wobble 0) 1 ++ "°. "
             ++ "High wobble usually means off-axis torque (release not matching swing plane)." |}
    else if orElse wobble 0 >? 3 then
      push issues
        {| Issue.metric := Metric.wobble;
           Issue.priority := 60;
           Issue.value := wobble;
           Issue.unitText := "°";
           Issue.goalText := "< 3.0°";
           Issue.headline := "Some wobble present";
           Issue.detail :=
             "Avg wobble: " ++ toFixed (orElse wobble 0) 1
             ++ "°. Tightening release plane can add consistency and keep spin." |}
    else issues in
  let issues :=
    if orElse nose 0 >? 4 then
      push issues
        {| Issue.metric := Metric.nose;
           Issue.priority := 90;
           Issue.value := nose;
           Issue.unitText := "°";
           Issue.goalText := "~ +1° to +3°";
           Issue.headline := "Nose angle is too high (nose-up)";
           Issue.detail :=
             "Avg nose: " ++ toFixed (orElse nose 0) 1 ++ "°. "
             ++ "Nose-up bleeds distance even with good speed/spin. Fixing this often adds easy carry." |}
    else issues in
  let issues :=
    if (orElse spin 0 >? 0) && (orElse spin 0 <? 900) then
      push issues
        {| Issue.metric := Metric.spin;
           Issue.priority := 70;
           Issue.value := spin;
           Issue.unitText := "rpm";
           Issue.goalText := "≥ 950 rpm";
           Issue.headline := "Spin is on the low side";
           Issue.detail :=
             "Avg spin: " ++ toFixed (orElse spin 0) 0 ++ " rpm. "
             ++ "Often improved by later acceleration + cleaner hit (don’t muscle early)." |}
    else issues in
  let issues :=
    if (orElse speed 0 >? 0) && (orElse speed 0 <? 50) then
      push issues
        {| Issue.metric := Metric.power;
           Issue.priority := 40;
           Issue.value := speed;
           Issue.unitText := "mph";
           Issue.goalText := "≥ 52 mph";
           Issue.headline := "Speed (power) has room to grow";
           Issue.detail :=
             "Avg speed: " ++ toFixed (orElse speed 0) 1 ++ " mph. "
             ++ "Sequencing + a later hit usually increases speed without increasing wobble." |}
    else issues in
  Array_sort (fun a b => Issue.priority b - Issue.priority a) issues.

(* ------------------------------------------------------------------ *)
(** * Synthetic global stats *)

(** A 32-bit integer is kept as its unsigned residue: [wrap32] is the
    conversion [ToUint32] (and [ToInt32], up to the sign of the
    representative).  On residues [^], [|] and [>>>] are [Z.lxor], [Z.lor]
    and [Z.shiftr]. *)
Definition wrap32 (x : Z) : Z := (x mod 2 ^ 32)%Z.

(** [Math.imul]. *)
Definition Math_imul (a b : Z) : Z := wrap32 (a * b).

(** The captured [seed] is a [number], never wrapped: a double.  Started at
    an integer it stays integer-valued, so it is kept as the integer it
    equals, and [seed += 0x6d2b79f5] rounds the exact sum to the nearest
    double, ties to even: the sum itself while it is below 2^53 in absolute
    value, its 53 leading bits correctly rounded above.  (A sum below 2^1024
    is meant: the seeds a double can hold never round to infinity here.) *)
Definition roundDouble (x : Z) : Z :=
  let a := Z.abs x in
  let k := (Z.log2 a - 52)%Z in
  if (k <=? 0)%Z then x
  else
    let q := (a / 2 ^ k)%Z in
    let r := (a mod 2 ^ k)%Z in
    let half := (2 ^ (k - 1))%Z in
    let q := if (half <? r)%Z || ((r =? half)%Z && Z.odd q) then (q + 1)%Z else q in
    (Z.sgn x * (q * 2 ^ k))%Z.

(** One call of the closure returned by [mulberry32(seed)]: the value drawn
    and the closure's new captured [seed]. *)
Definition mulberry32 (seed : Z) : number * Z :=
  let seed := roundDouble (seed + 0x6d2b79f5)%Z in
  let t := wrap32 seed in
  let t := Math_imul (Z.lxor t (Z.shiftr t 15)) (Z.lor t 1) in
  let t :=
    Z.lxor t (wrap32 (t + Math_imul (Z.lxor t (Z.shiftr t 7)) (Z.lor t 61))) in
  (inject_Z (Z.lxor t (Z.shiftr t 14)) / 4294967296, seed).

(** The value of the next call from a captured seed, the seed it leaves, and
    the seed left by [n] calls. *)
Definition draw (seed : Z) : number := fst (mulberry32 seed).

Definition advance (seed : Z) : Z := snd (mulberry32 seed).

Fixpoint seedAfter (n : nat) (seed : Z) : Z :=
  match n with
  | O => seed
  | S n' => seedAfter n' (advance seed)
  end.

(** Code that draws from the generator: a state monad over the captured seed
    whose computations may fail to return ([None]: a redraw loop that ran out
    of fuel). *)
Definition Rand (A : Type) : Type := Z -> option (A * Z).

Definition ret {A : Type} (a : A) : Rand A := fun s => Some (a, s).

Definition bind {A B : Type} (m : Rand A) (k : A -> Rand B) : Rand B :=
  fun s =>
    match m s with
    | None => None
    | Some (a, s') => k a s'
    end.

Notation "x <- m ;; k" := (bind m (fun x => k))
  (at level 61, m at next level, right associativity).

(** A computation returns from every seed that [d] further calls of the
    generator keep below 2^53, and leaves a seed that is such a one for the
    calls it has not made. *)
Definition returnsWithin {A : Type} (d : Z) (m : Rand A) : Prop :=
  forall s,
    (0 <= s)%Z -> (s + d * 0x6d2b79f5 < 2 ^ 53)%Z ->
    exists a s',
      m s = Some (a, s') /\ (s <= s')%Z /\ (s' <= s + d * 0x6d2b79f5)%Z.

(** [rng()]. *)
Definition rng : Rand number := fun s => Some (mulberry32 s).

(** [let u = 0; while (u === 0) u = rng();] with a bound on the number of
    draws. *)
Fixpoint drawNonZero (fuel : nat) : Rand number :=
  match fuel with
  | O => fun _ => None
  | S fuel' =>
      u <- rng ;;
      if num_eq u 0 then drawNonZero fuel' else ret u
  end.

Definition randNormal `{MathLib} (fuel : nat) : Rand number :=
  u <- drawNonZero fuel ;;
  v <- drawNonZero fuel ;;
  ret (Math_sqrt (-2.0 * Math_log u) * Math_cos (2.0 * Math_PI * v)).

(** The four arrays filled by the loop of [generateSyntheticGlobalStats]. *)
Module Population.
Record t : Set := mk {
  speed : list number;
  spin : list number;
  nose : list number;
  wobble : list number
}.
Definition empty : t := mk [] [] [] [].
End Population.

(** The body of the loop: one synthetic session pushed onto the arrays. *)
Definition generateSession `{MathLib} (fuel : nat) (pop : Population.t)
  : Rand Population.t :=
  skill <- randNormal fuel ;;
  n1 <- randNormal fuel ;;
  let spd := clamp (47 + 4.2 * skill + 3.8 * n1) 25 68 in
  n2 <- randNormal fuel ;;
  let wob := clamp (4.3 - 0.9 * skill + 0.9 * Math_abs n2) 0.8 11.0 in
  n3 <- randNormal fuel ;;
  let nos := clamp (3.0 - 0.4 * skill + 0.55 * (wob - 3.5) + 1.8 * n3) (-6) 14 in
  n4 <- randNormal fuel ;;
  let spn :=
    clamp (860 + 10.5 * (spd - 45) + 70 * skill - 20 * (wob - 3.5) + 85 * n4)
          350 1250 in
  ret {| Population.speed := push (Population.speed pop) spd;
         Population.wobble := push (Population.wobble pop) wob;
         Population.nose := push (Population.nose pop) nos;
         Population.spin := push (Population.spin pop) spn |}.

(** [for (let i = 0; i < nSessions; i++) { ... }]. *)
Fixpoint generateSessions `{MathLib} (fuel : nat) (nSessions : nat)
    (pop : Population.t) : Rand Population.t :=
  match nSessions with
  | O => ret pop
  | S n =>
      pop' <- generateSession fuel pop ;;
      generateSessions fuel n pop'
  end.

(** The comparator [(a, b) => a - b]. *)
Definition ascending (a b : number) : number := a - b.

(** [sorted] is an ascending copy of [arr]: the same length, the same
    multiset of values, and non-decreasing. *)
Definition sortedCopyOf (arr sorted : list number) : Prop :=
  length sorted = length arr /\ Permutation arr sorted /\ Sorted Qle sorted.

Definition generateSyntheticGlobalStats `{MathLib} (fuel : nat)
    (nSessions : nat) (seed : Z) : option GlobalStats.t :=
  match generateSessions fuel nSessions Population.empty seed with
  | None => None
  | Some (pop, _) =>
      let speed := Population.speed pop in
      let spin := Population.spin pop in
      let nose := Population.nose pop in
      let wobble := Population.wobble pop in
      let speedSorted := Array_sort ascending speed in
      let spinSorted := Array_sort ascending spin in
      let noseSorted := Array_sort ascending nose in
      let wobbleSorted := Array_sort ascending wobble in
      Some {| GlobalStats.speed := speed;
              GlobalStats.spin := spin;
              GlobalStats.nose := nose;
              GlobalStats.wobble := wobble;
              GlobalStats.speedSorted := speedSorted;
              GlobalStats.spinSorted := spinSorted;
              GlobalStats.noseSorted := noseSorted;
              GlobalStats.wobbleSorted := wobbleSorted |}
  end.

(* ------------------------------------------------------------------ *)
(** * Percentile engine *)

(** The loop of [percentileOf]:
    [while (lo < hi) { mid = (lo + hi) >> 1;
                       if (sortedAsc[mid] <= value) lo = mid + 1; else hi = mid; }]
    returning the final [lo].  The shift works on 32-bit integers; the sum
    [lo + hi] of two indices of an array of fewer than 2^30 entries does not
    wrap, and [(lo + hi) >> 1] is its halving, [Nat.div2]. *)
Equations? upperBound (sortedAsc : list number) (value : number) (lo hi : nat)
  : nat by wf (hi - lo)%nat lt :=
  upperBound sortedAsc value lo hi with lt_dec lo hi => {
    | left _ with cell_le sortedAsc (Nat.div2 (lo + hi)) value => {
        | true := upperBound sortedAsc value (S (Nat.div2 (lo + hi))) hi;
        | false := upperBound sortedAsc value lo (Nat.div2 (lo + hi)) };
    | right _ := lo }.
Proof.
  all: pose proof (Nat.div2_div (lo + hi)) as Hmid;
       pose proof (Nat.div_mod_eq (lo + hi) 2);
       pose proof (Nat.mod_upper_bound (lo + hi) 2); lia.
Qed.

(** The number of entries of an array that do not exceed [value]. *)
Definition countLe (value : number) (arr : list number) : nat :=
  length (filter (fun x => x <=? value) arr).

(** An index [r] splits an array at [value]: every entry left of [r] is at
    most [value] and every entry from [r] on is greater. *)
Definition splits (arr : list number) (value : number) (r : nat) : Prop :=
  (forall i x, (i < r)%nat -> nth_error arr i = Some x -> x <= value) /\
  (forall i x, (r <= i)%nat -> nth_error arr i = Some x -> value < x).

(** The percentile of a rank [lo] in a population of [n]: the arithmetic of
    [percentileOf] after its loop. *)
Definition percentOfRank (lo n : nat) (higherIsBetter : bool) : Z :=
  let frac := num_of_nat lo / num_of_nat n in
  let p := if higherIsBetter then frac else 1 - frac in
  Math_round (p * 100).

Definition percentileOf (value : number) (sortedAsc : list number)
    (higherIsBetter : bool) : option Z :=
  match sortedAsc with
  | [] => None
  | _ :: _ =>
      let lo := upperBound sortedAsc value 0 (length sortedAsc) in
      let frac := num_of_nat lo / num_of_nat (length sortedAsc) in
      let p := if higherIsBetter then frac else 1 - frac in
      Some (Math_round (p * 100))
  end.


(* ------------------------------------------------------------------ *)
(** * Histogram *)

(** [counts[idx]++] on an array of counts.  A negative [idx] is not an array
    index: the statement then writes a property of the object and leaves the
    elements as they are.  The index computed by [computeHistogram] is at
    most [bins - 1], so the array is never extended. *)
Fixpoint increment (i : nat) (counts : list nat) : list nat :=
  match counts, i with
  | [], _ => []
  | c :: cs, O => S c :: cs
  | c :: cs, S j => c :: increment j cs
  end.

Definition incrementAt (counts : list nat) (idx : Z) : list nat :=
  if (idx <? 0)%Z then counts else increment (Z.to_nat idx) counts.

Module Histogram.
Record t : Set := mk {
  counts : list nat;
  min : number;
  max : number
}.
End Histogram.

(** The bin of one value:
    [Math.min(bins - 1, Math.max(0, Math.floor(((v - min) / span) * bins)))]. *)
Definition binIndex (bins : nat) (min span v : number) : Z :=
  let t := (v - min) / span in
  Z.min (Z.of_nat bins - 1) (Z.max 0 (Math_floor (t * num_of_nat bins))).

Definition computeHistogram (values : list number) (bins : nat)
    (min max : number) : Histogram.t :=
  let counts := repeat O bins in
  let span := max - min in
  if span <=? 0 then Histogram.mk counts min max
  else
    let counts :=
      fold_left (fun counts v => incrementAt counts (binIndex bins min span v))
                values counts in
    Histogram.mk counts min max.

(* ------------------------------------------------------------------ *)
(** * Nose percentile *)

Definition nosePercentileFromAvg (avgNose : number) (g : GlobalStats.t)
  : option Z :=
  let target := 2 in
  let distArr :=
    Array_sort ascending
      (map (fun n => Math_abs (n - target)) (GlobalStats.nose g)) in
  let userDist := Math_abs (avgNose - target) in
  percentileOf userDist distArr false.

(* ------------------------------------------------------------------ *)
(** * The page: session statistics *)

Module SessionStats.
Record t : Set := mk {
  count : nat;
  avgSpeed : option number;
  avgSpin : option number;
  avgNose : option number;
  avgWobble : option number;
  sdSpeed : option number;
  sdSpin : option number;
  sdNose : option number;
  sdWobble : option number;
  bestSpeed : option number;
  bestSpin : option number
}.
End SessionStats.

Definition isDefined {A : Type} (x : option A) : bool :=
  match x with Some _ => true | None => false end.

(** [throws.filter((t) => t.speed !== undefined || t.spin !== undefined)]. *)
Definition cleanThrows (throws : list Throw.t) : list Throw.t :=
  filter (fun t => isDefined (Throw.speed t) || isDefined (Throw.spin t)) throws.

(** [xs.map(f).filter((v) => typeof v === "number")]. *)
Definition numbersOf (f : Throw.t -> option number) (xs : list Throw.t)
  : list number :=
  flat_map (fun t => match f t with Some v => [v] | None => [] end) xs.

(** [arr.length ? Math.max(...arr) : undefined]. *)
Definition best (arr : list number) : option number :=
  match arr with
  | [] => None
  | x :: xs => Some (fold_left Math_max xs x)
  end.

(** The [stats] memo, a function of [cleanThrows]. *)
Definition statsOf `{MathLib} (cleanThrows : list Throw.t) : SessionStats.t :=
  let speeds := numbersOf Throw.speed cleanThrows in
  let spins := numbersOf Throw.spin cleanThrows in
  let noses := numbersOf Throw.nose cleanThrows in
  let wobbles := numbersOf Throw.wobble cleanThrows in
  {| SessionStats.count := length cleanThrows;
     SessionStats.avgSpeed := mean speeds;
     SessionStats.avgSpin := mean spins;
     SessionStats.avgNose := mean noses;
     SessionStats.avgWobble := mean wobbles;
     SessionStats.sdSpeed := sd speeds;
     SessionStats.sdSpin := sd spins;
     SessionStats.sdNose := sd noses;
     SessionStats.sdWobble := sd wobbles;
     SessionStats.bestSpeed := best speeds;
     SessionStats.bestSpin := best spins |}.

(** The statistics the page shows for the parsed [throws]. *)
Definition stats `{MathLib} (throws : list Throw.t) : SessionStats.t :=
  statsOf (cleanThrows throws).

(** What [buildIssues(stats)] reads of the statistics. *)
Definition averagesOf (s : SessionStats.t) : Averages.t :=
  {| Averages.avgSpeed := SessionStats.avgSpeed s;
     Averages.avgSpin := SessionStats.avgSpin s;
     Averages.avgNose := SessionStats.avgNose s;
     Averages.avgWobble := SessionStats.avgWobble s |}.

(** The [issues] memo. *)
Definition issues `{MathLib} (throws : list Throw.t) : list Issue.t :=
  buildIssues (averagesOf (stats throws)).

(** [hasUserData]: [cleanThrows.length > 0]. *)
Definition hasUserData (throws : list Throw.t) : bool :=
  (0 <? length (cleanThrows throws))%nat.

(** The order of the bands, from the weakest to the strongest. *)
Definition bandRank (b : Band) : nat :=
  match b with
  | Beginner => 0
  | Intermediate => 1
  | Advanced => 2
  end.

(** The rules of the diagnosis that pass on the given averages, from the most
    to the least urgent, each with its metric and priority. *)
Definition rankedRules (stats : Averages.t) : list (Metric.t * number) :=
  let wobble := orElse (Averages.avgWobble stats) 0 in
  let nose := orElse (Averages.avgNose stats) 0 in
  let spin := orElse (Averages.avgSpin stats) 0 in
  let speed := orElse (Averages.avgSpeed stats) 0 in
  (if wobble >? 4 then [(Metric.wobble, 100)] else [])
  ++ (if nose >? 4 then [(Metric.nose, 90)] else [])
  ++ (if (spin >? 0) && (spin <? 900) then [(Metric.spin, 70)] else [])
  ++ (if (wobble >? 3) && negb (wobble >? 4) then [(Metric.wobble, 60)] else [])
  ++ (if (speed >? 0) && (speed <? 50) then [(Metric.power, 40)] else []).

(* ------------------------------------------------------------------ *)
(** * Labels of a metric *)

(** [a === b] on metrics. *)
Definition metric_is (a b : Metric.t) : bool :=
  match a, b with
  | Metric.wobble, Metric.wobble => true
  | Metric.nose, Metric.nose => true
  | Metric.spin, Metric.spin => true
  | Metric.power, Metric.power => true
  | _, _ => false
  end.

Definition clamp01 (x : number) : number := Math_max 0 (Math_min 1 x).

Definition formatMetric (metric : Metric.t) : string :=
  if metric_is metric Metric.power then "Power (Speed)"
  else if metric_is metric Metric.spin then "Spin"
  else if metric_is metric Metric.nose then "Nose"
  else "Wobble".

Definition metricUnit (metric : Metric.t) : string :=
  if metric_is metric Metric.power then "mph"
  else if metric_is metric Metric.spin then "rpm"
  else "°".

Definition goalForMetric (metric : Metric.t) : string :=
  if metric_is metric Metric.wobble then "< 3.0°"
  else if metric_is metric Metric.nose then "~ +1° to +3°"
  else if metric_is metric Metric.spin then "≥ 950 rpm"
  else "≥ 52 mph".

(** The session average the page shows for a metric ([userVal]). *)
Definition userVal (m : Metric.t) (s : SessionStats.t) : option number :=
  if metric_is m Metric.power then SessionStats.avgSpeed s
  else if metric_is m Metric.spin then SessionStats.avgSpin s
  else if metric_is m Metric.nose then SessionStats.avgNose s
  else SessionStats.avgWobble s.

(* ------------------------------------------------------------------ *)
(** * Histogram graph *)

Definition valueToX (value min max width : number) : number :=
  if max <=? min then 0 else ((value - min) / (max - min)) * width.

(** [Math.min(...values)] and [Math.max(...values)].  Of an empty array
    they are the infinities, which are no numbers of the model: [None]. *)
Definition Math_min_of (values : list number) : option number :=
  match values with
  | [] => None
  | x :: xs => Some (fold_left Math_min xs x)
  end.

Definition Math_max_of (values : list number) : option number :=
  match values with
  | [] => None
  | x :: xs => Some (fold_left Math_max xs x)
  end.

Module Range.
Record t : Set := mk {
  min : number;
  max : number
}.
End Range.

(** [niceRange]: the data range, padded, within the bounds of the metric.
    [None] stands for the infinite bounds the function returns on an empty
    array. *)
Definition niceRange (metric : Metric.t) (values : list number)
  : option Range.t :=
  match Math_min_of values, Math_max_of values with
  | Some vmin, Some vmax =>
      let pad :=
        let p := (vmax - vmin) * 0.08 in if num_eq p 0 then 1 else p in
      Some
        (if metric_is metric Metric.spin
         then Range.mk (Math_max 300 (vmin - pad)) (Math_min 1300 (vmax + pad))
         else if metric_is metric Metric.power
         then Range.mk (Math_max 20 (vmin - pad)) (Math_min 75 (vmax + pad))
         else if metric_is metric Metric.nose
         then Range.mk (Math_max (-10) (vmin - pad)) (Math_min 18 (vmax + pad))
         else Range.mk (Math_max 0 (vmin - pad)) (Math_min 12 (vmax + pad)))
  | _, _ => None
  end.

(** The bounds [niceRange] keeps the display range of a metric within. *)
Definition displayBounds (metric : Metric.t) : number * number :=
  match metric with
  | Metric.spin => (300, 1300)
  | Metric.power => (20, 75)
  | Metric.nose => (-10, 18)
  | Metric.wobble => (0, 12)
  end.

Definition metricToGlobalArray (metric : Metric.t) (g : GlobalStats.t)
  : list number :=
  if metric_is metric Metric.spin then GlobalStats.spin g
  else if metric_is metric Metric.power then GlobalStats.speed g
  else if metric_is metric Metric.nose then GlobalStats.nose g
  else GlobalStats.wobble g.

Definition metricToSortedArray (metric : Metric.t) (g : GlobalStats.t)
  : list number :=
  if metric_is metric Metric.spin then GlobalStats.spinSorted g
  else if metric_is metric Metric.power then GlobalStats.speedSorted g
  else if metric_is metric Metric.nose then GlobalStats.noseSorted g
  else GlobalStats.wobbleSorted g.

Definition metricMean (metric : Metric.t) (g : GlobalStats.t) : option number :=
  let arr := metricToGlobalArray metric g in
  mean arr.

(** [arr.map((c, i) => f(c, i))]. *)
Fixpoint mapi_from {A B : Type} (f : A -> nat -> B) (i : nat) (l : list A)
  : list B :=
  match l with
  | [] => []
  | a :: l' => f a i :: mapi_from f (S i) l'
  end.

Definition mapi {A B : Type} (f : A -> nat -> B) (l : list A) : list B :=
  mapi_from f O l.

(** One [<rect>] of the histogram. *)
Module Bar.
Record t : Set := mk {
  x : number;
  y : number;
  width : number;
  height : number
}.
End Bar.

(** What the [Histogram] component computes and renders: the geometry of
    the bars, of the two markers and of the goal band ([bandRect]: the [x] and
    the width of its rectangle), and the two axis labels. *)
Module HistogramView.
Record t : Set := mk {
  counts : list nat;
  maxCount : nat;
  plotW : number;
  plotH : number;
  barW : number;
  xGlobal : number;
  xUser : option number;
  goalBand : option (number * number);
  bandX1 : number;
  bandX2 : number;
  bandRect : option (number * number);
  bars : list Bar.t;
  labelMin : string;
  labelMax : string
}.
End HistogramView.

(** The goal band of a metric: four [if]s in a row, each overwriting the
    band set before. *)
Definition goalBandOf (metric : Metric.t) : option (number * number) :=
  let goalBand := None in
  let goalBand := if metric_is metric Metric.nose then Some (1, 3) else goalBand in
  let goalBand := if metric_is metric Metric.wobble then Some (0, 3) else goalBand in
  let goalBand := if metric_is metric Metric.spin then Some (950, 1200) else goalBand in
  let goalBand := if metric_is metric Metric.power then Some (52, 75) else goalBand in
  goalBand.

(** The [Histogram] component; [width] and [height] default to 520 and 140.
    The result is [None] on an empty [globalValues], where the range is
    infinite. *)
Definition HistogramComponent (metric : Metric.t) (globalValues : list number)
    (globalAvg : number) (userValue : option number)
    (width height : option number)
  : option HistogramView.t :=
  let width := orElse width 520 in
  let height := orElse height 140 in
  let bins := 24%nat in
  match niceRange metric globalValues with
  | None => None
  | Some range =>
      let min := Range.min range in
      let max := Range.max range in
      let counts := Histogram.counts (computeHistogram globalValues bins min max) in
      let maxCount := fold_right Nat.max 1%nat counts in
      let plotW := width - 10 - 10 in
      let plotH := height - 10 - 22 in
      let barW := plotW / num_of_nat bins in
      let xGlobal := valueToX globalAvg min max plotW in
      let xUser :=
        match userValue with
        | Some u => Some (valueToX u min max plotW)
        | None => None
        end in
      let goalBand := goalBandOf metric in
      let bandX1 :=
        match goalBand with
        | Some (from, _) => valueToX from min max plotW
        | None => 0
        end in
      let bandX2 :=
        match goalBand with
        | Some (_, to) => valueToX to min max plotW
        | None => 0
        end in
      let digits := if metric_is metric Metric.spin then 0%nat else 1%nat in
      Some
        {| HistogramView.counts := counts;
           HistogramView.maxCount := maxCount;
           HistogramView.plotW := plotW;
           HistogramView.plotH := plotH;
           HistogramView.barW := barW;
           HistogramView.xGlobal := xGlobal;
           HistogramView.xUser := xUser;
           HistogramView.goalBand := goalBand;
           HistogramView.bandX1 := bandX1;
           HistogramView.bandX2 := bandX2;
           HistogramView.bandRect :=
             match goalBand with
             | Some _ =>
                 Some (Math_min bandX1 bandX2, Math_abs (bandX2 - bandX1))
             | None => None
             end;
           HistogramView.bars :=
             mapi (fun c i =>
                     let h := (num_of_nat c / num_of_nat maxCount) * plotH in
                     {| Bar.x := num_of_nat i * barW + 1;
                        Bar.y := plotH - h;
                        Bar.width := Math_max 1 (barW - 2);
                        Bar.height := h |})
                  counts;
           HistogramView.labelMin := toFixed min digits;
           HistogramView.labelMax := toFixed max digits |}
  end.

(* ------------------------------------------------------------------ *)
(** * The page: percentiles and global averages *)

(** The [percentiles] memo, a partial record over the metrics: a field that
    was never set and a field set to [undefined] both read as [undefined]. *)
Module Percentiles.
Record t : Set := mk {
  power : option Z;
  spin : option Z;
  nose : option Z;
  wobble : option Z
}.
End Percentiles.

Definition percentiles (s : SessionStats.t) (globalStats : GlobalStats.t)
  : Percentiles.t :=
  {| Percentiles.power :=
       match SessionStats.avgSpeed s with
       | Some v => percentileOf v (GlobalStats.speedSorted globalStats) true
       | None => None
       end;
     Percentiles.spin :=
       match SessionStats.avgSpin s with
       | Some v => percentileOf v (GlobalStats.spinSorted globalStats) true
       | None => None
       end;
     Percentiles.wobble :=
       match SessionStats.avgWobble s with
       | Some v => percentileOf v (GlobalStats.wobbleSorted globalStats) false
       | None => None
       end;
     Percentiles.nose :=
       match SessionStats.avgNose s with
       | Some v => nosePercentileFromAvg v globalStats
       | None => None
       end |}.

(** [percentiles[m]]. *)
Definition percentileFor (p : Percentiles.t) (m : Metric.t) : option Z :=
  match m with
  | Metric.power => Percentiles.power p
  | Metric.spin => Percentiles.spin p
  | Metric.nose => Percentiles.nose p
  | Metric.wobble => Percentiles.wobble p
  end.

(** The [globalAverages] memo. *)
Module GlobalAverages.
Record t : Set := mk {
  speed : number;
  spin : number;
  nose : number;
  wobble : number
}.
End GlobalAverages.

Definition globalAverages (globalStats : GlobalStats.t) : GlobalAverages.t :=
  {| GlobalAverages.speed := orElse (mean (GlobalStats.speed globalStats)) 0;
     GlobalAverages.spin := orElse (mean (GlobalStats.spin globalStats)) 0;
     GlobalAverages.nose := orElse (mean (GlobalStats.nose globalStats)) 0;
     GlobalAverages.wobble := orElse (mean (GlobalStats.wobble globalStats)) 0 |}.

(* ------------------------------------------------------------------ *)
(** * Drills *)

Module Drill.
Record t : Set := mk {
  id : string;
  metric : Metric.t;
  title : string;
  description : string;
  url : string;
  credit : string
}.
End Drill.

Definition DRILLS : list Drill.t := [
  Drill.mk "wobble-plane" Metric.wobble
    "Improve Nose Angle & Swing Plane"
    "Keeping the disc on-plane through the release to reduce OAT/wobble."
    "https://www.youtube.com/watch?v=uDbfdt-LMyI"
    "Disc Golf Pro Tour (YouTube)";
  Drill.mk "wobble-clean" Metric.wobble
    "Backhand Form Basics"
    "Clean release mechanics to reduce off-axis torque."
    "https://www.youtube.com/watch?v=RgVGkgnBxuM"
    "Foundations Disc Golf (YouTube)";
  Drill.mk "nose-cheat" Metric.nose
    "Simple Nose Angle Cheat Sheet"
    "Quick cues to control nose angle (avoid nose-up)."
    "https://www.youtube.com/watch?v=neeW-UlrZRg"
    "Stepwise Disc Golf (YouTube)";
  Drill.mk "nose-drill" Metric.nose
    "This Drill Fixed My Nose Angle"
    "A focused drill to reduce nose-up throws."
    "https://www.youtube.com/watch?v=FZSyIbGRDZM"
    "Nick Krush Disc Golf & Fitness (YouTube)";
  Drill.mk "spin-snap" Metric.spin
    "How to Get Snap"
    "Late acceleration cues for better spin efficiency."
    "https://www.youtube.com/watch?v=vL5UB1Srbsg"
    "Ben’s Big Drive (YouTube)";
  Drill.mk "spin-basic" Metric.spin
    "How To Get More Spin Into Your Disc"
    "Grip + timing cues for adding spin without muscling."
    "https://www.youtube.com/watch?v=ZBLIBlzDokg"
    "Decent Disc Golf (YouTube)";
  Drill.mk "power-pocket" Metric.power
    "Power Pocket Shadow Swing Drill"
    "Sequencing and late acceleration for power (helps speed/spin)."
    "https://www.youtube.com/watch?v=bbAm8X3Upi4"
    "Stepwise Disc Golf (YouTube)"
].

(** A [Map<Metric, Drill[]>]: the entries in the order of their insertion. *)
Definition DrillMap : Set := list (Metric.t * list Drill.t).

(** [map.get(k)]. *)
Fixpoint Map_get (map : DrillMap) (k : Metric.t) : option (list Drill.t) :=
  match map with
  | [] => None
  | (k', v) :: rest => if metric_is k' k then Some v else Map_get rest k
  end.

(** [map.set(k, v)]: the value of an existing key is replaced in place, a new
    key is added at the end. *)
Fixpoint Map_set (map : DrillMap) (k : Metric.t) (v : list Drill.t) : DrillMap :=
  match map with
  | [] => [(k, v)]
  | (k', v') :: rest =>
      if metric_is k' k then (k', v) :: rest else (k', v') :: Map_set rest k v
  end.

(** [map.get(d.metric)?.push(d)]: the array held by the map grows in place;
    a metric without an entry is skipped. *)
Definition pushDrill (map : DrillMap) (d : Drill.t) : DrillMap :=
  match Map_get map (Drill.metric d) with
  | Some arr => Map_set map (Drill.metric d) (push arr d)
  | None => map
  end.

(** The body of the [drillsByMetric] memo, for a catalogue [drills]. *)
Definition groupDrills (drills : list Drill.t) : DrillMap :=
  let map : DrillMap := [] in
  let map :=
    fold_left (fun map m => Map_set map m [])
      [Metric.wobble; Metric.nose; Metric.spin; Metric.power] map in
  fold_left pushDrill drills map.

Definition drillsByMetric : DrillMap := groupDrills DRILLS.

(** [drillsByMetric.get(m) ?? []]: the drills shown under an issue. *)
Definition drillsFor (m : Metric.t) : list Drill.t :=
  match Map_get drillsByMetric m with
  | Some ds => ds
  | None => []
  end.

(* ------------------------------------------------------------------ *)
(** * The histogram on doubles *)

(** The bin of a value is the floor of a quotient and a product of doubles,
    and the floor of the rounded product is not always that of the exact
    one; a difference of finite doubles can be infinite and a quotient of
    infinities is not a number.  [Double] is [computeHistogram], and
    [valueToX] with it, on IEEE 754 binary64 values: the arithmetic is that
    of the [SpecFloat] library of Rocq at precision 53 and maximal exponent
    1024, which rounds to nearest, ties to even. *)
Module Double.

Local Open Scope Z_scope.

Definition double : Set := spec_float.

Definition prec : Z := 53.
Definition emax : Z := 1024.

(** [x - y], [x * y], [x / y], [x <= y] and [x < y]. *)
Definition sub : double -> double -> double := SFsub prec emax.
Definition mul : double -> double -> double := SFmul prec emax.
Definition div : double -> double -> double := SFdiv prec emax.
Definition leb : double -> double -> bool := SFleb.
Definition ltb : double -> double -> bool := SFltb.

(** The terms that are doubles: a finite one has the mantissa and the
    exponent of the format. *)
Definition isDouble (x : double) : bool := valid_binary prec emax x.

Definition zero : double := S754_zero false.
Definition one : double := S754_finite false 4503599627370496 (-52).

(** The double of an integer, and of an array length. *)
Definition of_Z (z : Z) : double := binary_normalize prec emax z 0 false.
Definition of_nat (n : nat) : double := of_Z (Z.of_nat n).

Definition isNaN (x : double) : bool :=
  match x with S754_nan => true | _ => false end.

(** [Number.isFinite]. *)
Definition isFinite (x : double) : bool :=
  match x with S754_zero _ | S754_finite _ _ _ => true | _ => false end.

Definition isZero (x : double) : bool :=
  match x with S754_zero _ => true | _ => false end.

Definition isPositiveFinite (x : double) : bool :=
  match x with S754_finite false _ _ => true | _ => false end.

(** A zero, a negative number or minus infinity. *)
Definition nonPositive (x : double) : bool :=
  match x with
  | S754_zero _ | S754_finite true _ _ | S754_infinity true => true
  | _ => false
  end.

(** The least exponent of a finite double, and the value of a finite double
    in units of [2^emin]: an integer. *)
Definition emin : Z := -1074.

Definition sval (x : double) : Z :=
  match x with
  | S754_finite s m e => cond_Zopp s (Z.pos m * 2 ^ (e - emin))
  | _ => 0
  end.

(** Rounding to nearest, ties to even, on integers: the nearest integer to
    [N / 2^n]; the number of bits an integer loses when it is rounded to 53
    bits; a non-negative integer rounded to 53 significant bits. *)
Definition roundShift (N n : Z) : Z :=
  let q := N / 2 ^ n in
  let rem := N mod 2 ^ n in
  if (2 ^ n <? 2 * rem) || ((2 * rem =? 2 ^ n) && Z.odd q) then q + 1 else q.

Definition lostBits (X : Z) : Z := Z.max 0 (Z.log2 X - 52).

Definition roundNearest (X : Z) : Z :=
  roundShift X (lostBits X) * 2 ^ lostBits X.

(** A double is the rounding of [Y] units of [2^emin]: a finite positive
    double of that value, or plus infinity from [2^2098] on. *)
Definition rounds_to (Y : Z) (x : double) : Prop :=
  match x with
  | S754_finite false m e =>
      emin <= e /\ bounded prec emax m e = true /\ Z.pos m * 2 ^ (e - emin) = Y
  | S754_infinity false => 2 ^ 2098 <= Y
  | _ => False
  end.

(** [m * 2^e] is at least the integer [y]. *)
Definition atLeast (y m e : Z) : Prop :=
  if 0 <=? e then y <= m * 2 ^ e else y * 2 ^ (- e) <= m.

(** The record of the library's rounding after [k] shifts of the integer
    [N]: the quotient, the last bit dropped and whether a lower one was
    set. *)
Definition shifted (N k : Z) : shr_record :=
  let rem := N mod 2 ^ k in
  Build_shr_record (N / 2 ^ k) (2 ^ k <=? 2 * rem)
                   (negb (rem =? 0) && negb (2 * rem =? 2 ^ k)).

(** What [Math.floor] returns: an integer, which is a double and is kept as
    the integer it equals, an infinity or [NaN].  [Math.max] and [Math.min]
    return one of their arguments and round nothing, and so does [bins - 1]
    for the length of an array.  The two zeros are one integer: as an array
    index both are the key 0. *)
Inductive integral : Set :=
| NotANumber
| Infinite (negative : bool)
| Integer (z : Z).

Definition Math_floor (x : double) : integral :=
  match x with
  | S754_nan => NotANumber
  | S754_infinity s => Infinite s
  | S754_zero _ => Integer 0
  | S754_finite s m e =>
      let z := if s then Zneg m else Zpos m in
      Integer (if 0 <=? e then z * 2 ^ e else z / 2 ^ (- e))
  end.

Definition Math_max (a b : integral) : integral :=
  match a, b with
  | NotANumber, _ | _, NotANumber => NotANumber
  | Infinite false, _ | _, Infinite false => Infinite false
  | Infinite true, x | x, Infinite true => x
  | Integer x, Integer y => Integer (Z.max x y)
  end.

Definition Math_min (a b : integral) : integral :=
  match a, b with
  | NotANumber, _ | _, NotANumber => NotANumber
  | Infinite true, _ | _, Infinite true => Infinite true
  | Infinite false, x | x, Infinite false => x
  | Integer x, Integer y => Integer (Z.min x y)
  end.

(** [counts[idx]++].  An [idx] that is not a number, infinite or negative is
    not an array index: the statement then writes a property of the object
    and leaves the elements as they are.  The index computed by
    [computeHistogram] is at most [bins - 1], so the array is never
    extended. *)
Definition incrementAt (counts : list nat) (idx : integral) : list nat :=
  match idx with
  | Integer z => if 0 <=? z then increment (Z.to_nat z) counts else counts
  | _ => counts
  end.

Record Histogram : Set := mkHistogram {
  counts : list nat;
  min : double;
  max : double
}.

(** [Math.floor(t * bins)] for [t = (v - min) / span]. *)
Definition flooredPosition (bins : nat) (min span v : double) : integral :=
  let t := div (sub v min) span in
  Math_floor (mul t (of_nat bins)).

(** [Math.min(bins - 1, Math.max(0, Math.floor(t * bins)))]. *)
Definition binIndex (bins : nat) (min span v : double) : integral :=
  Math_min (Integer (Z.of_nat bins - 1))
           (Math_max (Integer 0) (flooredPosition bins min span v)).

Definition computeHistogram (values : list double) (bins : nat)
    (min max : double) : Histogram :=
  let counts := repeat O bins in
  let span := sub max min in
  if leb span zero then mkHistogram counts min max
  else
    let counts :=
      fold_left (fun counts v => incrementAt counts (binIndex bins min span v))
                values counts in
    mkHistogram counts min max.

Definition valueToX (value min max width : double) : double :=
  if leb max min then zero
  else mul (div (sub value min) (sub max min)) width.

(** Whether an index is that of bin [i]; whether a floored position is below
    the first bin, beyond the last one. *)
Definition isNotANumber (p : integral) : bool :=
  match p with NotANumber => true | _ => false end.

Definition indexIs (i : nat) (idx : integral) : bool :=
  match idx with Integer z => z =? Z.of_nat i | _ => false end.

Definition below (p : integral) : bool :=
  match p with
  | Infinite true => true
  | Integer z => z <? 0
  | _ => false
  end.

Definition beyond (bins : nat) (p : integral) : bool :=
  match p with
  | Infinite false => true
  | Integer z => Z.of_nat bins <=? z
  | _ => false
  end.

(** The bin a floored position belongs to: the first for a position below
    it, the last for one beyond it, its own otherwise; none for one that is
    not a number. *)
Definition landsIn (bins i : nat) (p : integral) : bool :=
  match p with
  | NotANumber => false
  | Infinite negative => if negative then (i =? 0)%nat else (i =? bins - 1)%nat
  | Integer z =>
      if z <=? 0 then (i =? 0)%nat
      else if Z.of_nat bins - 1 <=? z then (i =? bins - 1)%nat
      else z =? Z.of_nat i
  end.

(** The doubles 1e308 and -1e308. *)
Definition d_1e308 : double := S754_finite false 0x11ccf385ebc8a0 971.
Definition d_minus_1e308 : double := S754_finite true 0x11ccf385ebc8a0 971.

End Double.

(* ================================================================== *)
(** * Properties *)

(* ------------------------------------------------------------------ *)
(** ** Comparisons *)

(** Comparisons of rational literals, decided on their numerators. *)
Ltac closed_Q := unfold Qle, Qlt; simpl; lia.

Lemma num_le_iff (a b : number) : (a <=? b) = true <-> a <= b.
Proof. apply Qle_bool_iff. Qed.

Lemma num_lt_iff (a b : number) : (a <? b) = true <-> a < b.
Proof.
  unfold num_lt. rewrite negb_true_iff. split.
  - intros H. apply Qnot_le_lt. intros Hle.
    apply Qle_bool_iff in Hle. congruence.
  - intros H. destruct (Qle_bool b a) eqn:E; [|reflexivity].
    apply Qle_bool_iff in E. exfalso. apply (Qlt_not_le _ _ H E).
Qed.

Lemma num_le_false_iff (a b : number) : (a <=? b) = false <-> b < a.
Proof.
  rewrite <- num_lt_iff. unfold num_lt, num_le.
  destruct (Qle_bool a b); simpl; intuition congruence.
Qed.

Lemma num_lt_false_iff (a b : number) : (a <? b) = false <-> b <= a.
Proof.
  rewrite <- num_le_iff. unfold num_lt, num_le.
  destruct (Qle_bool b a); simpl; intuition congruence.
Qed.

(* ------------------------------------------------------------------ *)
(** ** Sorting *)

Section SortFacts.
Context {A : Type} (cmp : A -> A -> number).

Lemma sort_insert_perm (x : A) (l : list A) :
  Permutation (x :: l) (sort_insert cmp x l).
Proof.
  induction l as [|y ys IH]; simpl.
  - reflexivity.
  - destruct (cmp x y <=? 0).
    + reflexivity.
    + rewrite perm_swap. constructor. exact IH.
Qed.

Lemma Array_sort_perm (l : list A) : Permutation l (Array_sort cmp l).
Proof.
  induction l as [|x xs IH]; simpl.
  - constructor.
  - rewrite <- sort_insert_perm. constructor. exact IH.
Qed.

Lemma Array_sort_length (l : list A) : length (Array_sort cmp l) = length l.
Proof. symmetry. apply Permutation_length, Array_sort_perm. Qed.

(** The comparator is total: of two elements one does not compare greater
    than the other. *)
Hypothesis cmp_total : forall a b, cmp_le cmp a b \/ cmp_le cmp b a.

Lemma sort_insert_sorted (x : A) (l : list A) :
  Sorted (cmp_le cmp) l -> Sorted (cmp_le cmp) (sort_insert cmp x l).
Proof.
  induction 1 as [|y ys Hs IH Hhd]; simpl.
  - repeat constructor.
  - destruct (cmp x y <=? 0) eqn:E.
    + apply num_le_iff in E. repeat constructor; assumption.
    + apply num_le_false_iff in E.
      assert (Hyx : cmp_le cmp y x).
      { destruct (cmp_total x y) as [H|H]; [|exact H].
        unfold cmp_le in H. exfalso. apply (Qlt_not_le _ _ E H). }
      constructor; [exact IH|].
      destruct Hhd as [|z zs Hyz]; simpl.
      * constructor. exact Hyx.
      * destruct (cmp x z <=? 0); constructor; assumption.
Qed.

Lemma Array_sort_sorted (l : list A) :
  Sorted (cmp_le cmp) (Array_sort cmp l).
Proof.
  induction l as [|x xs IH]; simpl.
  - constructor.
  - apply sort_insert_sorted. exact IH.
Qed.
End SortFacts.

Lemma ascending_le (a b : number) : cmp_le ascending a b <-> a <= b.
Proof. unfold cmp_le, ascending. split; intros H; lra. Qed.

Lemma ascending_total (a b : number) :
  cmp_le ascending a b \/ cmp_le ascending b a.
Proof.
  rewrite !ascending_le. destruct (Qlt_le_dec b a) as [H|H].
  - right. apply Qlt_le_weak. exact H.
  - left. exact H.
Qed.

Lemma Sorted_impl {A : Type} (R S : A -> A -> Prop) (l : list A) :
  (forall a b, R a b -> S a b) -> Sorted R l -> Sorted S l.
Proof.
  intros HRS. induction 1 as [|x xs Hs IH Hhd]; constructor.
  - exact IH.
  - destruct Hhd; constructor. apply HRS. assumption.
Qed.

Lemma Array_sort_ascending (l : list number) :
  Sorted Qle (Array_sort ascending l).
Proof.
  apply Sorted_impl with (R := cmp_le ascending).
  - intros a b. apply ascending_le.
  - apply Array_sort_sorted. exact ascending_total.
Qed.

(* ------------------------------------------------------------------ *)
(** ** The binary search of [percentileOf] *)

Lemma cell_le_true (arr : list number) (i : nat) (v : number) :
  cell_le arr i v = true -> exists x, nth_error arr i = Some x /\ x <= v.
Proof.
  unfold cell_le. destruct (nth_error arr i) as [x|]; [|discriminate].
  intros H. exists x. split; [reflexivity|]. apply num_le_iff. exact H.
Qed.

Lemma cell_le_false (arr : list number) (i : nat) (v : number) :
  (i < length arr)%nat -> cell_le arr i v = false ->
  exists x, nth_error arr i = Some x /\ v < x.
Proof.
  unfold cell_le. intros Hi.
  destruct (nth_error arr i) as [x|] eqn:E.
  - intros H. exists x. split; [reflexivity|]. apply num_le_false_iff. exact H.
  - apply nth_error_None in E. lia.
Qed.

(** A sorted array read by index. *)
Lemma Sorted_nth_le (arr : list number) :
  Sorted Qle arr ->
  forall i j x y, (i <= j)%nat ->
    nth_error arr i = Some x -> nth_error arr j = Some y -> x <= y.
Proof.
  intros Hs. apply Sorted_StronglySorted in Hs.
  2:{ intros a b c. apply Qle_trans. }
  induction Hs as [|a t Ht IH Hall]; intros i j x y Hij Hi Hj.
  - destruct i; discriminate.
  - destruct i as [|i], j as [|j]; simpl in *.
    + inversion Hi; inversion Hj; subst. apply Qle_refl.
    + inversion Hi; subst. rewrite Forall_forall in Hall.
      apply Hall. eapply nth_error_In. exact Hj.
    + lia.
    + apply (IH i j); [lia | assumption | assumption].
Qed.

Section UpperBound.
Variables (arr : list number) (v : number).
Hypothesis arr_sorted : Sorted Qle arr.

Lemma upperBound_splits (lo hi : nat) :
  (lo <= hi <= length arr)%nat ->
  (forall i x, (i < lo)%nat -> nth_error arr i = Some x -> x <= v) ->
  (forall i x, (hi <= i)%nat -> nth_error arr i = Some x -> v < x) ->
  (upperBound arr v lo hi <= length arr)%nat /\
  splits arr v (upperBound arr v lo hi).
Proof.
  funelim (upperBound arr v lo hi); intros Hb Hlo Hhi.
  all: try (pose proof (Nat.div2_div (lo + hi)) as Hmid;
            pose proof (Nat.div_mod_eq (lo + hi) 2) as Hdm;
            pose proof (Nat.mod_upper_bound (lo + hi) 2) as Hmod).
  - (* the loop is over *)
    assert (lo = hi) by lia. subst hi.
    split; [lia|]. split; assumption.
  - (* the cell at [mid] is at most [v]: go right *)
    destruct (cell_le_true _ _ _ Heq) as (y & Hy & Hyv).
    apply H; try assumption; [lia|].
    intros i x Hi Hx. apply Qle_trans with y; [|exact Hyv].
    apply (Sorted_nth_le arr arr_sorted i (Nat.div2 (lo + hi))); auto; lia.
  - (* the cell at [mid] is greater than [v]: go left *)
    destruct (cell_le_false arr (Nat.div2 (lo + hi)) v) as (y & Hy & Hyv);
      [lia | exact Heq |].
    apply H; try assumption; [lia|].
    intros i x Hi Hx. apply Qlt_le_trans with y; [exact Hyv|].
    apply (Sorted_nth_le arr arr_sorted (Nat.div2 (lo + hi)) i); auto.
Qed.
End UpperBound.

Lemma splits_countLe (v : number) (arr : list number) (r : nat) :
  (r <= length arr)%nat -> splits arr v r -> countLe v arr = r.
Proof.
  unfold countLe. revert r.
  induction arr as [|a t IH]; intros r Hr [Hl Hg]; simpl in *.
  - lia.
  - destruct r as [|r].
    + assert (Ha : v < a) by (apply (Hg O); [lia | reflexivity]).
      apply num_le_false_iff in Ha. rewrite Ha.
      apply (IH O); [lia|]. split.
      * intros i x Hi. lia.
      * intros i x _ Hx. apply (Hg (S i)); [lia | exact Hx].
    + assert (Ha : a <= v) by (apply (Hl O); [lia | reflexivity]).
      apply num_le_iff in Ha. rewrite Ha. simpl. f_equal.
      apply IH; [lia|]. split.
      * intros i x Hi Hx. apply (Hl (S i)); [lia | exact Hx].
      * intros i x Hi Hx. apply (Hg (S i)); [lia | exact Hx].
Qed.

(** On a sorted array the loop returns the number of entries that do not
    exceed the value. *)
Lemma upperBound_countLe (arr : list number) (v : number) :
  Sorted Qle arr -> upperBound arr v 0 (length arr) = countLe v arr.
Proof.
  intros Hs. destruct (upperBound_splits arr v Hs 0 (length arr)) as [Hr Hsp].
  - lia.
  - intros i x Hi. lia.
  - intros i x Hi Hx. assert (nth_error arr i = None) as E
      by (apply nth_error_None; exact Hi). congruence.
  - symmetry. apply splits_countLe; assumption.
Qed.

(* ------------------------------------------------------------------ *)
(** ** The arithmetic of [percentileOf] *)

Lemma Math_round_comp (x y : number) : x == y -> Math_round x = Math_round y.
Proof. intros H. unfold Math_round. rewrite H. reflexivity. Qed.

Lemma Math_round_le (x y : number) :
  x <= y -> (Math_round x <= Math_round y)%Z.
Proof. intros H. unfold Math_round. apply Qfloor_resp_le. lra. Qed.

Lemma num_of_nat_pos (n : nat) : (0 < n)%nat -> 0 < num_of_nat n.
Proof.
  intros H. unfold num_of_nat. change 0 with (inject_Z 0).
  rewrite <- Zlt_Qlt. lia.
Qed.

Lemma num_of_nat_le (a b : nat) : (a <= b)%nat -> num_of_nat a <= num_of_nat b.
Proof. intros H. unfold num_of_nat. rewrite <- Zle_Qle. lia. Qed.

Lemma percentileOf_rank (v : number) (arr : list number) (hib : bool) :
  arr <> [] -> Sorted Qle arr ->
  percentileOf v arr hib =
  Some (percentOfRank (countLe v arr) (length arr) hib).
Proof.
  intros Hne Hs. unfold percentileOf. destruct arr as [|a t]; [congruence|].
  rewrite (upperBound_countLe (a :: t) v Hs). reflexivity.
Qed.

Lemma percentOfRank_none (n : nat) (hib : bool) :
  percentOfRank 0 n hib = if hib then 0%Z else 100%Z.
Proof.
  unfold percentOfRank. destruct hib.
  - rewrite (Math_round_comp _ 0); [reflexivity|].
    change (num_of_nat 0) with 0. unfold Qdiv. ring.
  - rewrite (Math_round_comp _ 100); [reflexivity|].
    change (num_of_nat 0) with 0. unfold Qdiv. ring.
Qed.

Lemma percentOfRank_all (n : nat) (hib : bool) :
  (0 < n)%nat -> percentOfRank n n hib = if hib then 100%Z else 0%Z.
Proof.
  intros Hn. apply num_of_nat_pos in Hn. unfold percentOfRank.
  assert (E : num_of_nat n / num_of_nat n == 1) by (field; lra).
  destruct hib.
  - rewrite (Math_round_comp _ 100); [reflexivity|]. rewrite E. ring.
  - rewrite (Math_round_comp _ 0); [reflexivity|]. rewrite E. ring.
Qed.

Lemma percentOfRank_mono (lo1 lo2 n : nat) :
  (0 < n)%nat -> (lo1 <= lo2)%nat ->
  (percentOfRank lo1 n true <= percentOfRank lo2 n true)%Z /\
  (percentOfRank lo2 n false <= percentOfRank lo1 n false)%Z.
Proof.
  intros Hn Hlo. apply num_of_nat_pos in Hn. apply num_of_nat_le in Hlo.
  assert (E : num_of_nat lo1 / num_of_nat n <= num_of_nat lo2 / num_of_nat n).
  { unfold Qdiv. apply Qmult_le_compat_r; [exact Hlo|].
    apply Qlt_le_weak, Qinv_lt_0_compat. exact Hn. }
  unfold percentOfRank. split; apply Math_round_le; lra.
Qed.

Lemma countLe_none (v : number) (arr : list number) :
  (forall x, In x arr -> v < x) -> countLe v arr = O.
Proof.
  unfold countLe. induction arr as [|a t IH]; intros H; simpl.
  - reflexivity.
  - assert (Ha : v < a) by (apply H; left; reflexivity).
    apply num_le_false_iff in Ha. rewrite Ha.
    apply IH. intros x Hx. apply H. right. exact Hx.
Qed.

Lemma countLe_all (v : number) (arr : list number) :
  (forall x, In x arr -> x <= v) -> countLe v arr = length arr.
Proof.
  unfold countLe. induction arr as [|a t IH]; intros H; simpl.
  - reflexivity.
  - assert (Ha : a <= v) by (apply H; left; reflexivity).
    apply num_le_iff in Ha. rewrite Ha. simpl. f_equal.
    apply IH. intros x Hx. apply H. right. exact Hx.
Qed.

Lemma countLe_mono (v1 v2 : number) (arr : list number) :
  v1 <= v2 -> (countLe v1 arr <= countLe v2 arr)%nat.
Proof.
  intros Hv. unfold countLe. induction arr as [|a t IH]; simpl; [lia|].
  destruct (a <=? v1) eqn:E1.
  - apply num_le_iff in E1.
    assert (E2 : (a <=? v2) = true)
      by (apply num_le_iff; apply Qle_trans with v1; assumption).
    rewrite E2. simpl. lia.
  - destruct (a <=? v2); simpl; lia.
Qed.

Lemma countLe_perm (v : number) (l1 l2 : list number) :
  Permutation l1 l2 -> countLe v l1 = countLe v l2.
Proof.
  intros HP. unfold countLe.
  induction HP as [|x l l' _ IH|x y l|l l' l'' _ IH1 _ IH2]; simpl.
  - reflexivity.
  - destruct (x <=? v); simpl; congruence.
  - destruct (x <=? v), (y <=? v); reflexivity.
  - congruence.
Qed.

(** The percentile depends on the population only through its values: two
    ascending arrangements of one multiset give the same percentile. *)
Lemma percentileOf_perm (v : number) (a b : list number) (hib : bool) :
  Sorted Qle a -> Sorted Qle b -> Permutation a b ->
  percentileOf v a hib = percentileOf v b hib.
Proof.
  intros Ha Hb HP. destruct a as [|x a'].
  - apply Permutation_nil in HP. subst b. reflexivity.
  - assert (Hbne : b <> []).
    { intros ->. apply Permutation_sym, Permutation_nil in HP. discriminate. }
    rewrite (percentileOf_rank v (x :: a') hib), (percentileOf_rank v b hib);
      try assumption; try discriminate.
    rewrite (countLe_perm v _ _ HP), (Permutation_length HP). reflexivity.
Qed.

(* ------------------------------------------------------------------ *)
(** ** Percentile claims *)

(** C1 (as stated, refuted).  The population [[1]] is non-empty and sorted.
    With [higherIsBetter = false] the value [0], below every entry, gets
    percentile 100 and not 0, and the value [1], at the maximum, gets 0 and
    not 100. *)
Lemma percentileOf_extremes_lower_is_better_counterexample :
  [1] <> [] /\ Sorted Qle [1] /\
  (forall x, In x [1] -> 0 < x) /\
  percentileOf 0 [1] false = Some 100%Z /\
  percentileOf 0 [1] false <> Some 0%Z /\
  (forall x, In x [1] -> x <= 1) /\
  percentileOf 1 [1] false = Some 0%Z /\
  percentileOf 1 [1] false <> Some 100%Z.
Proof.
  repeat split; try discriminate.
  - repeat constructor.
  - intros x [<-|[]]. reflexivity.
  - intros x [<-|[]]. apply Qle_refl.
Qed.

(** C1 (amended).  For a non-empty ascending population, a value strictly
    below every entry has percentile 0 when higher is better and 100 when
    lower is better; a value at or above the maximum has percentile 100 when
    higher is better and 0 when lower is better. *)
Theorem percentileOf_extremes (v : number) (arr : list number) :
  arr <> [] -> Sorted Qle arr ->
  ((forall x, In x arr -> v < x) ->
     percentileOf v arr true = Some 0%Z /\
     percentileOf v arr false = Some 100%Z) /\
  ((forall x, In x arr -> x <= v) ->
     percentileOf v arr true = Some 100%Z /\
     percentileOf v arr false = Some 0%Z).
Proof.
  intros Hne Hs.
  assert (Hlen : (0 < length arr)%nat)
    by (destruct arr; [congruence | simpl; lia]).
  split; intros H; rewrite !percentileOf_rank by assumption.
  - rewrite (countLe_none v arr H), !percentOfRank_none. split; reflexivity.
  - rewrite (countLe_all v arr H), !percentOfRank_all by assumption.
    split; reflexivity.
Qed.

Lemma percentileOf_extremes_witness :
  (percentileOf 0 [1; 3] true = Some 0%Z /\
   percentileOf 0 [1; 3] false = Some 100%Z) /\
  (percentileOf 3 [1; 3] true = Some 100%Z /\
   percentileOf 3 [1; 3] false = Some 0%Z).
Proof.
  assert (Hne : [1; 3] <> []) by discriminate.
  assert (Hs : Sorted Qle [1; 3]).
  { repeat constructor. closed_Q. }
  split.
  - apply (proj1 (percentileOf_extremes 0 [1; 3] Hne Hs)).
    intros x [<-|[<-|[]]]; closed_Q.
  - apply (proj2 (percentileOf_extremes 3 [1; 3] Hne Hs)).
    intros x [<-|[<-|[]]]; closed_Q.
Defined.

(** C2.  For a fixed non-empty ascending population and two values
    [v1 <= v2], both percentiles are defined under either polarity; the one
    of [v1] is at most the one of [v2] when higher is better and at least
    the one of [v2] when lower is better. *)
Theorem percentileOf_monotonic (arr : list number) (v1 v2 : number) :
  arr <> [] -> Sorted Qle arr -> v1 <= v2 ->
  exists p1 p2 q1 q2 : Z,
    percentileOf v1 arr true = Some p1 /\
    percentileOf v2 arr true = Some p2 /\
    (p1 <= p2)%Z /\
    percentileOf v1 arr false = Some q1 /\
    percentileOf v2 arr false = Some q2 /\
    (q1 >= q2)%Z.
Proof.
  intros Hne Hs Hv.
  assert (Hlen : (0 < length arr)%nat)
    by (destruct arr; [congruence | simpl; lia]).
  destruct (percentOfRank_mono _ _ (length arr) Hlen (countLe_mono v1 v2 arr Hv))
    as [Hup Hdown].
  rewrite !percentileOf_rank by assumption.
  do 4 eexists. repeat split; try reflexivity; [exact Hup | lia].
Qed.

Lemma percentileOf_monotonic_witness :
  exists p1 p2 q1 q2 : Z,
    percentileOf 2 [1; 3; 5; 7] true = Some p1 /\
    percentileOf 6 [1; 3; 5; 7] true = Some p2 /\
    (p1 <= p2)%Z /\
    percentileOf 2 [1; 3; 5; 7] false = Some q1 /\
    percentileOf 6 [1; 3; 5; 7] false = Some q2 /\
    (q1 >= q2)%Z.
Proof.
  apply (percentileOf_monotonic [1; 3; 5; 7] 2 6).
  - discriminate.
  - repeat constructor; closed_Q.
  - closed_Q.
Defined.

(** C5.  The nose percentile is the general percentile, lower being better,
    of the distance [|avgNose - 2|] within the population's distances
    [|n - 2|] put in ascending order, whichever ascending arrangement of
    those distances is taken. *)
Theorem nosePercentileFromAvg_spec (avgNose : number) (g : GlobalStats.t)
    (distances : list number) :
  Permutation distances
    (map (fun n => Math_abs (n - 2)) (GlobalStats.nose g)) ->
  Sorted Qle distances ->
  nosePercentileFromAvg avgNose g =
  percentileOf (Math_abs (avgNose - 2)) distances false.
Proof.
  intros HP Hs. unfold nosePercentileFromAvg.
  apply percentileOf_perm.
  - apply Array_sort_ascending.
  - exact Hs.
  - rewrite HP. symmetry. apply Array_sort_perm.
Qed.

Lemma nosePercentileFromAvg_spec_witness :
  nosePercentileFromAvg 4
    (GlobalStats.mk [] [] [0; 5; 2] [] [] [] [0; 2; 5] []) =
  percentileOf (Math_abs (4 - 2)) [0; 2; 3] false.
Proof.
  apply nosePercentileFromAvg_spec.
  - vm_compute.
    apply Permutation_sym, (Permutation_cons_app [0] [3]).
    apply (Permutation_cons_app [0] []). apply Permutation_refl.
  - repeat constructor; closed_Q.
Defined.

(* ------------------------------------------------------------------ *)
(** ** Diagnosis claims *)

(** C3.  For the averages wobble 4.2, nose 4.5, spin 800 and speed 45 the
    diagnosis returns exactly four issues, for wobble, nose, spin and power
    in this order, with priorities 100, 90, 70 and 40; the list is in
    descending order of priority. *)
Theorem buildIssues_all_four :
  let result :=
    buildIssues {| Averages.avgSpeed := Some 45;
                   Averages.avgSpin := Some 800;
                   Averages.avgNose := Some 4.5;
                   Averages.avgWobble := Some 4.2 |} in
  length result = 4%nat /\
  map Issue.metric result =
    [Metric.wobble; Metric.nose; Metric.spin; Metric.power] /\
  map Issue.priority result = [100; 90; 70; 40] /\
  StronglySorted (fun a b => Issue.priority b <= Issue.priority a) result.
Proof.
  vm_compute. repeat split; try discriminate.
  repeat constructor; discriminate.
Qed.

(** Every issue of a diagnosis is the issue of a rule whose threshold test
    passed on the average read with its default 0. *)
Lemma buildIssues_fired (stats : Averages.t) (i : Issue.t) :
  In i (buildIssues stats) ->
  (Issue.metric i = Metric.wobble /\ 3 < orElse (Averages.avgWobble stats) 0) \/
  (Issue.metric i = Metric.nose /\ 4 < orElse (Averages.avgNose stats) 0) \/
  (Issue.metric i = Metric.spin /\ 0 < orElse (Averages.avgSpin stats) 0 < 900) \/
  (Issue.metric i = Metric.power /\ 0 < orElse (Averages.avgSpeed stats) 0 < 50).
Proof.
  unfold buildIssues. intros Hin.
  apply (Permutation_in _ (Permutation_sym (Array_sort_perm _ _))) in Hin.
  revert Hin. unfold push.
  destruct (orElse (Averages.avgWobble stats) 0 >? 4) eqn:Ew4;
    [|destruct (orElse (Averages.avgWobble stats) 0 >? 3) eqn:Ew3];
    destruct (orElse (Averages.avgNose stats) 0 >? 4) eqn:En;
    destruct (orElse (Averages.avgSpin stats) 0 >? 0) eqn:Es0;
    destruct (orElse (Averages.avgSpin stats) 0 <? 900) eqn:Es9;
    destruct (orElse (Averages.avgSpeed stats) 0 >? 0) eqn:Ep0;
    destruct (orElse (Averages.avgSpeed stats) 0 <? 50) eqn:Ep5;
    simpl; intros Hin;
    repeat match goal with
           | H : _ \/ _ |- _ => destruct H as [H|H]
           | H : False |- _ => destruct H
           | H : (_ <? _) = true |- _ => apply num_lt_iff in H
           end;
    subst i; simpl;
    first [ left; split; [reflexivity | lra]
          | right; left; split; [reflexivity | lra]
          | right; right; left; split; [reflexivity | lra]
          | right; right; right; split; [reflexivity | lra] ].
Qed.

(** C4.  For every input, a metric whose session average is absent gets no
    issue: with no wobble average no wobble issue is in the result, and the
    same for nose, for spin and for speed (the power issue).  [buildIssues]
    is a total function: it returns a list on every input. *)
Theorem buildIssues_absent_average (stats : Averages.t) :
  (Averages.avgWobble stats = None ->
     forall i, In i (buildIssues stats) -> Issue.metric i <> Metric.wobble) /\
  (Averages.avgNose stats = None ->
     forall i, In i (buildIssues stats) -> Issue.metric i <> Metric.nose) /\
  (Averages.avgSpin stats = None ->
     forall i, In i (buildIssues stats) -> Issue.metric i <> Metric.spin) /\
  (Averages.avgSpeed stats = None ->
     forall i, In i (buildIssues stats) -> Issue.metric i <> Metric.power).
Proof.
  repeat split; intros Habs i Hin Hm;
    destruct (buildIssues_fired stats i Hin)
      as [[E H]|[[E H]|[[E H]|[E H]]]];
    rewrite Hm in E; try discriminate;
    rewrite Habs in H; simpl in H; lra.
Qed.

Lemma buildIssues_absent_average_witness :
  Forall (fun i => Issue.metric i <> Metric.wobble)
    (buildIssues {| Averages.avgSpeed := Some 45;
                    Averages.avgSpin := Some 800;
                    Averages.avgNose := Some 4.5;
                    Averages.avgWobble := None |}).
Proof.
  apply Forall_forall.
  apply (proj1 (buildIssues_absent_average
                  {| Averages.avgSpeed := Some 45;
                     Averages.avgSpin := Some 800;
                     Averages.avgNose := Some 4.5;
                     Averages.avgWobble := None |})).
  reflexivity.
Defined.

(* ------------------------------------------------------------------ *)
(** ** Histogram claims *)

Lemma increment_length (i : nat) (counts : list nat) :
  length (increment i counts) = length counts.
Proof.
  revert i. induction counts as [|c cs IH]; intros [|i]; simpl; auto.
Qed.

Lemma increment_sum (i : nat) (counts : list nat) :
  (i < length counts)%nat ->
  list_sum (increment i counts) = S (list_sum counts).
Proof.
  revert i. induction counts as [|c cs IH]; intros [|i] Hi; simpl in *;
    try lia.
  rewrite IH by lia. lia.
Qed.

Lemma list_sum_zeros (n : nat) : list_sum (repeat O n) = O.
Proof. induction n; simpl; auto. Qed.

Lemma binIndex_range (bins : nat) (min span v : number) :
  (1 <= bins)%nat ->
  (0 <= binIndex bins min span v <= Z.of_nat bins - 1)%Z.
Proof. intros Hb. unfold binIndex. lia. Qed.

Lemma histogram_loop (bins : nat) (min span : number) (values : list number)
    (counts : list nat) :
  (1 <= bins)%nat -> length counts = bins ->
  let counts' :=
    fold_left (fun counts v => incrementAt counts (binIndex bins min span v))
              values counts in
  length counts' = bins /\
  list_sum counts' = (list_sum counts + length values)%nat.
Proof.
  intros Hb. revert counts.
  induction values as [|v vs IH]; intros counts Hlen; simpl.
  - split; [exact Hlen | lia].
  - pose proof (binIndex_range bins min span v Hb) as Hr.
    assert (Hstep : incrementAt counts (binIndex bins min span v)
                    = increment (Z.to_nat (binIndex bins min span v)) counts).
    { unfold incrementAt.
      destruct (binIndex bins min span v <? 0)%Z eqn:E; [lia | reflexivity]. }
    rewrite Hstep.
    destruct (IH (increment (Z.to_nat (binIndex bins min span v)) counts))
      as [Hl Hsum].
    { rewrite increment_length. exact Hlen. }
    split; [exact Hl|]. rewrite Hsum, increment_sum by lia. lia.
Qed.

Lemma nth_increment (i j : nat) (counts : list nat) :
  (j < length counts)%nat ->
  nth i (increment j counts) O
  = (nth i counts O + if (i =? j)%nat then 1 else 0)%nat.
Proof.
  revert i j. induction counts as [|c cs IH]; intros i j Hj; simpl in Hj.
  - lia.
  - destruct j as [|j], i as [|i]; simpl; try lia.
    rewrite IH by lia. reflexivity.
Qed.

Lemma nth_repeat_zero (i n : nat) : nth i (repeat O n) O = O.
Proof.
  revert i. induction n as [|n IH]; intros [|i]; simpl; auto.
Qed.

Lemma increment_beyond (i : nat) (counts : list nat) :
  (length counts <= i)%nat -> increment i counts = counts.
Proof.
  revert i. induction counts as [|c cs IH]; intros [|i] Hi; simpl in *;
    try reflexivity; try lia.
  rewrite IH by lia. reflexivity.
Qed.

Lemma filter_length_le {A : Type} (p q : A -> bool) (l : list A) :
  (forall x, In x l -> p x = true -> q x = true) ->
  (length (filter p l) <= length (filter q l))%nat.
Proof.
  induction l as [|x xs IH]; intros H; simpl; [lia|].
  assert (IH' := IH (fun y Hy => H y (or_intror Hy))).
  specialize (H x (or_introl eq_refl)).
  destruct (p x), (q x); simpl; try lia; discriminate (H eq_refl).
Qed.

Lemma filter_length_all {A : Type} (p : A -> bool) (l : list A) :
  (forall x, In x l -> p x = true) -> length (filter p l) = length l.
Proof.
  induction l as [|x xs IH]; intros H; simpl; [reflexivity|].
  rewrite (H x (or_introl eq_refl)). simpl.
  rewrite IH; [reflexivity|]. intros y Hy. apply H. right. exact Hy.
Qed.

Lemma filter_length_ext {A : Type} (p q : A -> bool) (l : list A) :
  (forall x, p x = q x) -> length (filter p l) = length (filter q l).
Proof.
  intros H. induction l as [|x xs IH]; simpl; [reflexivity|].
  rewrite H. destruct (q x); simpl; rewrite IH; reflexivity.
Qed.

Lemma filter_length_bound {A : Type} (p : A -> bool) (l : list A) :
  (length (filter p l) <= length l)%nat.
Proof.
  induction l as [|x xs IH]; simpl; [lia|]. destruct (p x); simpl; lia.
Qed.

(* ------------------------------------------------------------------ *)
(** ** The arithmetic of doubles *)

Section DoubleFacts.
Import Double.
Local Open Scope nat_scope.
Local Open Scope Z_scope.

(** *** No operation on finite doubles is not a number *)

Lemma iter_pos_invariant {A : Type} (P : A -> Prop) (f : A -> A) :
  (forall x, P x -> P (f x)) -> forall n x, P x -> P (iter_pos f n x).
Proof.
  intros Hf. induction n as [n IH|n IH|]; intros x Hx; simpl; auto.
Qed.

Lemma shr_1_nonneg (mrs : shr_record) :
  0 <= shr_m mrs -> 0 <= shr_m (shr_1 mrs).
Proof.
  destruct mrs as [m r s]. simpl.
  destruct m as [|[p|p|]|[p|p|]]; simpl; lia.
Qed.

Lemma shr_nonneg (mrs : shr_record) (e n : Z) :
  0 <= shr_m mrs -> 0 <= shr_m (fst (shr mrs e n)).
Proof.
  intros H. destruct n as [|p|p]; simpl; try exact H.
  apply (iter_pos_invariant (fun r => 0 <= shr_m r));
    [apply shr_1_nonneg | exact H].
Qed.

Lemma shr_fexp_nonneg (m e : Z) (l : location) :
  0 <= m -> 0 <= shr_m (fst (shr_fexp prec emax m e l)).
Proof.
  intros H. unfold shr_fexp. apply shr_nonneg.
  destruct l as [|[| |]]; exact H.
Qed.

Lemma round_nearest_even_nonneg (m : Z) (l : location) :
  0 <= m -> 0 <= round_nearest_even m l.
Proof.
  intros H. destruct l as [|[| |]]; simpl; try lia.
  destruct (Z.even m); lia.
Qed.

(** Rounding a mantissa that is not negative gives a zero, a finite double
    or an infinity. *)
Lemma binary_round_aux_notNaN (s : bool) (m e : Z) (l : location) :
  0 <= m -> isNaN (binary_round_aux prec emax s m e l) = false.
Proof.
  intros H. unfold binary_round_aux.
  pose proof (shr_fexp_nonneg m e l H) as H1.
  destruct (shr_fexp prec emax m e l) as [mrs' e']. simpl in H1.
  pose proof (shr_fexp_nonneg
                (round_nearest_even (shr_m mrs') (loc_of_shr_record mrs'))
                e' loc_Exact (round_nearest_even_nonneg _ _ H1)) as H2.
  destruct (shr_fexp prec emax _ e' loc_Exact) as [mrs'' e'']. simpl in H2.
  destruct (shr_m mrs'') as [|p|p]; [reflexivity | | lia].
  destruct (e'' <=? emax - prec); reflexivity.
Qed.

Lemma binary_normalize_notNaN (m e : Z) (s : bool) :
  isNaN (binary_normalize prec emax m e s) = false.
Proof.
  destruct m as [|p|p]; simpl; [reflexivity| |];
    unfold binary_round;
    destruct (shl_align _ _ _) as [mz ez];
    apply binary_round_aux_notNaN; lia.
Qed.

Lemma sub_notNaN (x y : double) :
  isFinite x = true -> isFinite y = true -> isNaN (sub x y) = false.
Proof.
  destruct x as [sx|sx| |sx mx ex], y as [sy|sy| |sy my ey];
    try discriminate; intros _ _; unfold sub, SFsub.
  - destruct sx, sy; reflexivity.
  - reflexivity.
  - reflexivity.
  - apply binary_normalize_notNaN.
Qed.

Lemma div_notNaN (x : double) (s : bool) (m : positive) (e : Z) :
  isNaN x = false -> isNaN (div x (S754_finite s m e)) = false.
Proof.
  destruct x as [sx|sx| |sx mx ex]; try discriminate; intros _;
    try reflexivity.
  unfold div, SFdiv, SFdiv_core_binary.
  set (s' := _ - _ - _).
  set (m' := match s' with
             | Z0 => Z.pos mx
             | Z.pos _ => Z.shiftl (Z.pos mx) s'
             | Z.neg _ => 0
             end).
  assert (Hm' : 0 <= m').
  { unfold m'. destruct s'; try lia. apply Z.shiftl_nonneg. lia. }
  pose proof (Z_div_mod m' (Z.pos m) ltac:(lia)) as Hd.
  destruct (Z.div_eucl m' (Z.pos m)) as [q r].
  apply binary_round_aux_notNaN. nia.
Qed.

Lemma mul_notNaN (x : double) (s : bool) (m : positive) (e : Z) :
  isNaN x = false -> isNaN (mul x (S754_finite s m e)) = false.
Proof.
  destruct x as [sx|sx| |sx mx ex]; try discriminate; intros _;
    try reflexivity.
  unfold mul, SFmul. apply binary_round_aux_notNaN. lia.
Qed.

(** *** The double of a small integer *)

Lemma digits2_pos_lower (p : positive) :
  2 ^ (Z.pos (digits2_pos p) - 1) <= Z.pos p.
Proof.
  induction p as [p IH|p IH|]; simpl digits2_pos.
  - rewrite Pos2Z.inj_succ.
    replace (Z.succ (Z.pos (digits2_pos p)) - 1)
      with (Z.succ (Z.pos (digits2_pos p) - 1)) by lia.
    rewrite Z.pow_succ_r by lia. lia.
  - rewrite Pos2Z.inj_succ.
    replace (Z.succ (Z.pos (digits2_pos p)) - 1)
      with (Z.succ (Z.pos (digits2_pos p) - 1)) by lia.
    rewrite Z.pow_succ_r by lia. lia.
  - simpl. lia.
Qed.

Lemma digits2_pos_iter (p k : positive) :
  digits2_pos (Pos.iter xO p k) = (digits2_pos p + k)%positive.
Proof.
  induction k as [|k IH] using Pos.peano_ind.
  - simpl. lia.
  - rewrite Pos.iter_succ. simpl. rewrite IH. lia.
Qed.

(** A mantissa of 53 bits with an exponent in range is not rounded. *)
Lemma binary_round_aux_exact (s : bool) (m : positive) (e : Z) :
  Z.pos (digits2_pos m) = 53 -> -1074 <= e <= 971 ->
  binary_round_aux prec emax s (Z.pos m) e loc_Exact = S754_finite s m e.
Proof.
  intros Hd He. unfold binary_round_aux.
  assert (E : shr_fexp prec emax (Z.pos m) e loc_Exact
              = (Build_shr_record (Z.pos m) false false, e)).
  { unfold shr_fexp. cbn [Zdigits2 shr_record_of_loc]. rewrite Hd.
    replace (fexp prec emax (53 + e) - e) with 0
      by (unfold fexp, SpecFloat.emin, prec, emax; lia).
    reflexivity. }
  rewrite E. cbn [shr_m loc_of_shr_record round_nearest_even]. rewrite E.
  cbn [shr_m].
  destruct (Z.leb_spec e (emax - prec)) as [_|H]; [reflexivity|].
  unfold emax, prec in H. lia.
Qed.

(** An integer from 1 to 2^53 is a finite positive double. *)
Lemma of_Z_finite (p : positive) :
  Z.pos p < 2 ^ 53 ->
  exists m e, of_Z (Z.pos p) = S754_finite false m e.
Proof.
  intros Hp. unfold of_Z, binary_normalize, binary_round.
  pose proof (digits2_pos_lower p) as Hl.
  set (d := digits2_pos p) in *.
  assert (Hd : Z.pos d <= 53).
  { destruct (Z.le_gt_cases (Z.pos d) 53) as [H|H]; [exact H|].
    assert (2 ^ 53 <= 2 ^ (Z.pos d - 1)) by (apply Z.pow_le_mono_r; lia).
    lia. }
  replace (fexp prec emax (Z.pos d + 0)) with (Z.pos d - 53)
    by (unfold fexp, SpecFloat.emin, prec, emax; lia).
  unfold shl_align. rewrite Z.sub_0_r.
  destruct (Z.pos d - 53) as [|k|k] eqn:Ek; [|lia|].
  - exists p, 0. apply binary_round_aux_exact; [fold d; lia | lia].
  - eexists. eexists. rewrite <- Ek. apply binary_round_aux_exact; [|lia].
    rewrite digits2_pos_iter. fold d. lia.
Qed.

Lemma of_nat_finite (n : nat) :
  (1 <= n)%nat -> Z.of_nat n < 2 ^ 53 ->
  exists m e, of_nat n = S754_finite false m e.
Proof.
  intros Hn Hb. unfold of_nat.
  destruct (Z.of_nat n) as [|p|p] eqn:E; try lia.
  apply of_Z_finite. exact Hb.
Qed.

(** *** The quotient of a double by itself, the product with 1 *)

Lemma div_self (s : bool) (m : positive) (e : Z) :
  div (S754_finite s m e) (S754_finite s m e) = one.
Proof.
  unfold div, SFdiv, SFdiv_core_binary.
  rewrite !Z.sub_diag.
  change (Z.min (fexp prec emax 0) 0) with (-53).
  change (0 - -53) with 53.
  cbv iota.
  assert (E : Z.div_eucl (Z.shiftl (Z.pos m) 53) (Z.pos m) = (2 ^ 53, 0)).
  { rewrite Z.shiftl_mul_pow2 by lia.
    rewrite (surjective_pairing (Z.div_eucl _ _)).
    change (fst (Z.div_eucl ?a ?b)) with (a / b).
    change (snd (Z.div_eucl ?a ?b)) with (a mod b).
    rewrite Z.mul_comm, Z.div_mul, Z.mod_mul by lia. reflexivity. }
  rewrite E.
  replace (new_location (Z.pos m) 0) with loc_Exact
    by (unfold new_location; destruct (Z.even (Z.pos m)); reflexivity).
  destruct s; vm_compute; reflexivity.
Qed.

Lemma mul_one_l (w : double) :
  valid_binary prec emax w = true -> mul one w = w.
Proof.
  destruct w as [sw|sw| |sw mw ew]; try reflexivity.
  unfold valid_binary, bounded, canonical_mantissa.
  intros H. apply andb_true_iff in H. destruct H as [Hc Hb].
  apply Z.eqb_eq in Hc. apply Z.leb_le in Hb.
  unfold mul, SFmul, one. cbn [xorb].
  unfold binary_round_aux.
  assert (E1 : shr_fexp prec emax (Z.pos (4503599627370496 * mw)) (-52 + ew)
                 loc_Exact
               = (Build_shr_record (Z.pos mw) false false, ew)).
  { unfold shr_fexp. cbn [Zdigits2 shr_record_of_loc].
    assert (Ed : Z.pos (digits2_pos (4503599627370496 * mw))
                 = Z.pos (digits2_pos mw) + 52).
    { change (4503599627370496 * mw)%positive with (Pos.iter xO mw 52).
      rewrite digits2_pos_iter. lia. }
    rewrite Ed.
    replace (Z.pos (digits2_pos mw) + 52 + (-52 + ew))
      with (Z.pos (digits2_pos mw) + ew) by lia.
    rewrite Hc. replace (ew - (-52 + ew)) with 52 by lia.
    unfold shr.
    change (4503599627370496 * mw)%positive with (Pos.iter xO mw 52).
    f_equal; try reflexivity; lia. }
  rewrite E1. cbn [shr_m loc_of_shr_record round_nearest_even].
  assert (E2 : shr_fexp prec emax (Z.pos mw) ew loc_Exact
               = (Build_shr_record (Z.pos mw) false false, ew)).
  { unfold shr_fexp. cbn [Zdigits2 shr_record_of_loc].
    rewrite Hc, Z.sub_diag. reflexivity. }
  rewrite E2. cbn [shr_m].
  destruct (Z.leb_spec ew (emax - prec)); [reflexivity | lia].
Qed.

Lemma sub_self (x : double) :
  isFinite x = true -> isZero (sub x x) = true.
Proof.
  destruct x as [s|s| |s m e]; try discriminate; intros _.
  - destruct s; reflexivity.
  - unfold sub, SFsub. rewrite Z.sub_diag. reflexivity.
Qed.

(** *** The double of a small integer is that integer *)

Lemma pos_iter_xO (m d : positive) :
  Z.pos (Pos.iter xO m d) = Z.pos m * 2 ^ Z.pos d.
Proof.
  induction d as [|d IH] using Pos.peano_ind.
  - simpl. lia.
  - rewrite Pos.iter_succ, Pos2Z.inj_xO, IH, Pos2Z.inj_succ, Z.pow_succ_r
      by lia.
    lia.
Qed.

Lemma of_Z_exact (p : positive) :
  Z.pos p < 2 ^ 53 ->
  exists m e,
    of_Z (Z.pos p) = S754_finite false m e /\
    bounded prec emax m e = true /\
    e <= 0 /\ Z.pos m = Z.pos p * 2 ^ (- e) /\
    Math_floor (S754_finite false m e) = Integer (Z.pos p).
Proof.
  intros Hp. unfold of_Z, binary_normalize, binary_round.
  pose proof (digits2_pos_lower p) as Hl.
  set (d := digits2_pos p) in *.
  assert (Hd : Z.pos d <= 53).
  { destruct (Z.le_gt_cases (Z.pos d) 53) as [H|H]; [exact H|].
    assert (2 ^ 53 <= 2 ^ (Z.pos d - 1)) by (apply Z.pow_le_mono_r; lia).
    lia. }
  replace (fexp prec emax (Z.pos d + 0)) with (Z.pos d - 53)
    by (unfold fexp, SpecFloat.emin, prec, emax; lia).
  unfold shl_align. rewrite Z.sub_0_r.
  destruct (Z.pos d - 53) as [|k|k] eqn:Ek; [|lia|].
  - exists p, 0. split; [apply binary_round_aux_exact; [fold d; lia | lia]|].
    split; [|split; [lia|split]].
    + unfold bounded, canonical_mantissa. fold d.
      replace (Z.pos d + 0) with 53 by lia. reflexivity.
    + change (2 ^ (- 0)) with 1. lia.
    + unfold Math_floor. simpl. f_equal. lia.
  - exists (Pos.iter xO p k), (Z.neg k).
    assert (Hdig : Z.pos (digits2_pos (Pos.iter xO p k)) = 53)
      by (rewrite digits2_pos_iter; fold d; lia).
    split; [apply binary_round_aux_exact; [exact Hdig | lia]|].
    split; [|split; [lia|split]].
    + unfold bounded, canonical_mantissa. rewrite Hdig.
      apply andb_true_iff. split.
      * apply Z.eqb_eq. unfold fexp, SpecFloat.emin, prec, emax. lia.
      * apply Z.leb_le. unfold emax, prec. lia.
    + rewrite pos_iter_xO. reflexivity.
    + unfold Math_floor. cbn [Z.leb Z.compare Z.opp]. f_equal.
      rewrite pos_iter_xO. apply Z.div_mul.
      assert (0 < 2 ^ Z.pos k) by (apply Z.pow_pos_nonneg; lia). lia.
Qed.

(** *** Signs *)

Lemma binary_round_aux_nonPositive (m e : Z) (l : location) :
  0 <= m -> nonPositive (binary_round_aux prec emax true m e l) = true.
Proof.
  intros H. unfold binary_round_aux.
  pose proof (shr_fexp_nonneg m e l H) as H1.
  destruct (shr_fexp prec emax m e l) as [mrs' e']. simpl in H1.
  pose proof (shr_fexp_nonneg
                (round_nearest_even (shr_m mrs') (loc_of_shr_record mrs'))
                e' loc_Exact (round_nearest_even_nonneg _ _ H1)) as H2.
  destruct (shr_fexp prec emax _ e' loc_Exact) as [mrs'' e'']. simpl in H2.
  destruct (shr_m mrs'') as [|p|p]; [reflexivity | | lia].
  destruct (e'' <=? emax - prec); reflexivity.
Qed.

Lemma shl_align_value (m : positive) (e ez : Z) :
  ez <= e -> Z.pos (fst (shl_align m e ez)) = Z.pos m * 2 ^ (e - ez).
Proof.
  intros H. unfold shl_align.
  destruct (ez - e) as [|d|d] eqn:E; try lia; simpl fst.
  - replace (e - ez) with 0 by lia. lia.
  - rewrite pos_iter_xO. f_equal. f_equal. lia.
Qed.

Lemma digits2_pos_upper (p : positive) :
  Z.pos p < 2 ^ Z.pos (digits2_pos p).
Proof.
  induction p as [p IH|p IH|]; simpl digits2_pos.
  - rewrite Pos2Z.inj_succ, Z.pow_succ_r by lia. lia.
  - rewrite Pos2Z.inj_succ, Z.pow_succ_r by lia. lia.
  - simpl. lia.
Qed.

(** Of two finite doubles the one with the smaller exponent has the smaller
    magnitude: the other is normal, and its mantissa has 53 bits. *)
Lemma bounded_exponent_lt (m1 m2 : positive) (e1 e2 : Z) :
  bounded prec emax m1 e1 = true -> bounded prec emax m2 e2 = true ->
  e1 < e2 -> Z.pos m1 < Z.pos m2 * 2 ^ (e2 - e1).
Proof.
  unfold bounded, canonical_mantissa, fexp, SpecFloat.emin, prec, emax.
  intros H1 H2 He.
  apply andb_true_iff in H1, H2. destruct H1 as [H1 _], H2 as [H2 _].
  apply Z.eqb_eq in H1, H2.
  pose proof (digits2_pos_upper m1) as U1.
  pose proof (digits2_pos_lower m2) as L2.
  set (d1 := Z.pos (digits2_pos m1)) in *.
  set (d2 := Z.pos (digits2_pos m2)) in *.
  assert (Hd1 : d1 <= 53) by lia.
  assert (Hd2 : d2 = 53) by lia.
  rewrite Hd2 in L2.
  assert (2 ^ d1 <= 2 ^ 53) by (apply Z.pow_le_mono_r; lia).
  assert (2 ^ 1 <= 2 ^ (e2 - e1)) by (apply Z.pow_le_mono_r; lia).
  change (2 ^ (53 - 1)) with 4503599627370496 in L2.
  change (2 ^ 53) with 9007199254740992 in *.
  change (2 ^ 1) with 2 in *.
  nia.
Qed.

Lemma div_nonPositive (x : double) (m : positive) (e : Z) :
  nonPositive x = true ->
  nonPositive (div x (S754_finite false m e)) = true.
Proof.
  destruct x as [sx|[|]| |[|] mx ex]; try discriminate; intros _;
    try reflexivity.
  unfold div, SFdiv, SFdiv_core_binary.
  set (s' := _ - _ - _).
  set (m' := match s' with
             | Z0 => Z.pos mx
             | Z.pos _ => Z.shiftl (Z.pos mx) s'
             | Z.neg _ => 0
             end).
  assert (Hm' : 0 <= m').
  { unfold m'. destruct s'; try lia. apply Z.shiftl_nonneg. lia. }
  pose proof (Z_div_mod m' (Z.pos m) ltac:(lia)) as Hd.
  destruct (Z.div_eucl m' (Z.pos m)) as [q r].
  apply binary_round_aux_nonPositive. nia.
Qed.

Lemma mul_nonPositive (x : double) (m : positive) (e : Z) :
  nonPositive x = true ->
  nonPositive (mul x (S754_finite false m e)) = true.
Proof.
  destruct x as [sx|[|]| |[|] mx ex]; try discriminate; intros _;
    try reflexivity.
  unfold mul, SFmul. apply binary_round_aux_nonPositive. lia.
Qed.

Lemma Math_floor_nonPositive (bins : nat) (x : double) :
  (1 <= bins)%nat -> nonPositive x = true ->
  landsIn bins 0 (Math_floor x) = true.
Proof.
  intros Hb. destruct x as [sx|[|]| |[|] mx ex]; try discriminate; intros _;
    try reflexivity.
  unfold Math_floor. destruct (Z.leb_spec 0 ex); unfold landsIn.
  - assert (0 < 2 ^ ex) by (apply Z.pow_pos_nonneg; lia).
    set (z := Z.neg mx * 2 ^ ex). assert (z <= 0) by (unfold z; nia).
    destruct (Z.leb_spec z 0); [reflexivity | lia].
  - assert (0 < 2 ^ (- ex)) by (apply Z.pow_pos_nonneg; lia).
    set (z := Z.neg mx / 2 ^ (- ex)).
    assert (z < 0) by (apply Z.div_lt_upper_bound; lia).
    destruct (Z.leb_spec z 0); [reflexivity | lia].
Qed.

Lemma sub_finite_r (x y : double) :
  isPositiveFinite (sub x y) = true -> isFinite y = true.
Proof.
  destruct y as [s|s| |s m e]; try reflexivity;
    destruct x as [sx|sx| |sx mx ex]; try discriminate.
  destruct sx, s; discriminate.
Qed.

(** *** Rounding to nearest is monotone *)

(** [shr_1] halves the mantissa and keeps track of what it drops. *)

Lemma shr_1_spec (m : Z) (r s : bool) :
  0 <= m ->
  shr_1 (Build_shr_record m r s) = Build_shr_record (m / 2) (Z.odd m) (r || s).
Proof.
  intros Hm. rewrite <- Z.div2_div.
  destruct m as [|[p|p|]|p]; try lia; reflexivity.
Qed.

Lemma shifted_0 (N : Z) : shifted N 0 = Build_shr_record N false false.
Proof.
  unfold shifted. simpl. rewrite Z.mod_1_r, Z.div_1_r. reflexivity.
Qed.

Lemma shr_1_shifted (N k : Z) :
  0 <= N -> 0 <= k -> shr_1 (shifted N k) = shifted N (k + 1).
Proof.
  intros HN Hk. unfold shifted at 1. cbv zeta.
  assert (Hp : 0 < 2 ^ k) by (apply Z.pow_pos_nonneg; lia).
  rewrite shr_1_spec by (apply Z.div_pos; lia).
  unfold shifted. cbv zeta.
  assert (E2 : 2 ^ (k + 1) = 2 * 2 ^ k) by (rewrite Z.pow_add_r by lia; lia).
  rewrite E2.
  set (m := N / 2 ^ k). set (rem := N mod 2 ^ k).
  assert (HN' : N = 2 ^ k * m + rem) by (apply Z.div_mod; lia).
  assert (Hrem : 0 <= rem < 2 ^ k) by (apply Z.mod_pos_bound; lia).
  assert (Hm : 0 <= m) by (apply Z.div_pos; lia).
  pose proof (Z.div_mod m 2 ltac:(lia)) as Hm2.
  pose proof (Z.mod_pos_bound m 2 ltac:(lia)) as Hb.
  set (b := m mod 2) in *. set (m' := m / 2) in *.
  assert (Hdiv : N / (2 * 2 ^ k) = m').
  { symmetry. apply (Z.div_unique N (2 * 2 ^ k) m' (b * 2 ^ k + rem)); nia. }
  assert (Hmod : N mod (2 * 2 ^ k) = b * 2 ^ k + rem).
  { symmetry. apply (Z.mod_unique N (2 * 2 ^ k) m' (b * 2 ^ k + rem)); nia. }
  rewrite Hdiv, Hmod.
  assert (Hodd : Z.odd m = (b =? 1)).
  { rewrite Zodd_mod. fold b. destruct (Z.eqb_spec b 1); reflexivity. }
  rewrite Hodd.
  set (P := 2 ^ k) in *.
  assert (Hb01 : b = 0 \/ b = 1) by lia.
  destruct Hb01 as [E|E]; rewrite E; rewrite ?Z.mul_0_l, ?Z.mul_1_l;
    try change (0 =? 1) with false; try change (1 =? 1) with true; f_equal.
  - destruct (Z.leb_spec (2 * P) (2 * (0 + rem))); [lia | reflexivity].
  - destruct (Z.leb_spec P (2 * rem)), (Z.eqb_spec rem 0),
      (Z.eqb_spec (2 * rem) P), (Z.eqb_spec (0 + rem) 0),
      (Z.eqb_spec (2 * (0 + rem)) (2 * P)); simpl;
      try reflexivity; lia.
  - destruct (Z.leb_spec (2 * P) (2 * (P + rem))); [reflexivity | lia].
  - destruct (Z.leb_spec P (2 * rem)), (Z.eqb_spec rem 0),
      (Z.eqb_spec (2 * rem) P), (Z.eqb_spec (P + rem) 0),
      (Z.eqb_spec (2 * (P + rem)) (2 * P)); simpl;
      try reflexivity; lia.
Qed.

Lemma iter_pos_shifted (N : Z) (n : positive) (k : Z) :
  0 <= N -> 0 <= k ->
  iter_pos shr_1 n (shifted N k) = shifted N (k + Z.pos n).
Proof.
  intros HN. revert k.
  induction n as [n IH|n IH|]; intros k Hk; cbn [iter_pos].
  - rewrite shr_1_shifted, IH, IH by lia. f_equal. lia.
  - rewrite IH, IH by lia. f_equal. lia.
  - apply shr_1_shifted; lia.
Qed.

(** [shr] on an exact mantissa. *)

Lemma shr_exact (N e n : Z) :
  0 <= N ->
  shr (Build_shr_record N false false) e n
  = (shifted N (Z.max 0 n), e + Z.max 0 n).
Proof.
  intros HN. rewrite <- shifted_0. unfold shr.
  destruct n as [|p|p].
  - simpl Z.max. rewrite Z.add_0_r. reflexivity.
  - rewrite iter_pos_shifted by lia. simpl Z.max. reflexivity.
  - simpl Z.max. rewrite Z.add_0_r. reflexivity.
Qed.

Lemma roundShift_bounds (N n : Z) :
  0 <= n -> N / 2 ^ n <= roundShift N n <= N / 2 ^ n + 1.
Proof.
  intros Hn. unfold roundShift. cbv zeta.
  destruct (_ || _); lia.
Qed.

Lemma roundShift_exact (N : Z) : roundShift N 0 = N.
Proof.
  unfold roundShift. simpl. rewrite Z.mod_1_r, Z.div_1_r. reflexivity.
Qed.

Lemma roundShift_mono (N N' n : Z) :
  0 <= n -> 0 <= N <= N' -> roundShift N n <= roundShift N' n.
Proof.
  intros Hn HN.
  assert (Hp : 0 < 2 ^ n) by (apply Z.pow_pos_nonneg; lia).
  assert (Hq : N / 2 ^ n <= N' / 2 ^ n) by (apply Z.div_le_mono; lia).
  pose proof (roundShift_bounds N n Hn) as B.
  pose proof (roundShift_bounds N' n Hn) as B'.
  destruct (Z.eq_dec (N / 2 ^ n) (N' / 2 ^ n)) as [E|E]; [|lia].
  unfold roundShift. cbv zeta. rewrite <- E.
  pose proof (Z.div_mod N (2 ^ n) ltac:(lia)) as D.
  pose proof (Z.div_mod N' (2 ^ n) ltac:(lia)) as D'.
  rewrite <- E in D'.
  assert (Hr : N mod 2 ^ n <= N' mod 2 ^ n) by lia.
  set (r := N mod 2 ^ n) in *. set (r' := N' mod 2 ^ n) in *.
  set (P := 2 ^ n) in *.
  destruct (Z.odd (N / P));
    destruct (Z.ltb_spec P (2 * r)), (Z.eqb_spec (2 * r) P),
             (Z.ltb_spec P (2 * r')), (Z.eqb_spec (2 * r') P);
    simpl; lia.
Qed.

Lemma lostBits_nonneg (X : Z) : 0 <= lostBits X.
Proof. unfold lostBits. lia. Qed.

Lemma lostBits_mono (X X' : Z) : X <= X' -> lostBits X <= lostBits X'.
Proof.
  intros H. unfold lostBits. pose proof (Z.log2_le_mono X X' H). lia.
Qed.

(** With bits to lose, the quotient has exactly 53 bits. *)

Lemma lostBits_quotient (X : Z) :
  0 < lostBits X ->
  2 ^ 52 <= X / 2 ^ lostBits X < 2 ^ 53.
Proof.
  intros Hk. unfold lostBits in *.
  assert (HX : 0 < X).
  { destruct (Z.lt_ge_cases 0 X) as [H|H]; [exact H|].
    rewrite Z.log2_nonpos in Hk by lia. lia. }
  destruct (Z.log2_spec X HX) as [L U].
  rewrite Z.max_r in * by lia.
  set (k := Z.log2 X - 52) in *.
  assert (Hp : 0 < 2 ^ k) by (apply Z.pow_pos_nonneg; lia).
  assert (E1 : 2 ^ Z.log2 X = 2 ^ 52 * 2 ^ k)
    by (rewrite <- Z.pow_add_r by lia; f_equal; lia).
  assert (E2 : 2 ^ Z.succ (Z.log2 X) = 2 ^ 53 * 2 ^ k)
    by (rewrite <- Z.pow_add_r by lia; f_equal; lia).
  split.
  - apply Z.div_le_lower_bound; lia.
  - apply Z.div_lt_upper_bound; lia.
Qed.

Lemma roundNearest_small (X : Z) : X < 2 ^ 53 -> roundNearest X = X.
Proof.
  intros H. unfold roundNearest.
  assert (E : lostBits X = 0).
  { unfold lostBits. destruct (Z.lt_ge_cases 0 X) as [HX|HX].
    - assert (Z.log2 X < 53) by (apply Z.log2_lt_pow2; lia). lia.
    - rewrite Z.log2_nonpos by lia. lia. }
  rewrite E, roundShift_exact. simpl. lia.
Qed.

(** The rounded value is between the multiples of [2^k] around [X]. *)

Lemma roundNearest_bounds (X : Z) :
  0 <= X ->
  X / 2 ^ lostBits X * 2 ^ lostBits X <= roundNearest X
  /\ roundNearest X <= (X / 2 ^ lostBits X + 1) * 2 ^ lostBits X.
Proof.
  intros HX. unfold roundNearest.
  pose proof (lostBits_nonneg X) as Hk.
  pose proof (roundShift_bounds X (lostBits X) Hk) as B.
  assert (Hp : 0 < 2 ^ lostBits X) by (apply Z.pow_pos_nonneg; lia).
  nia.
Qed.

Lemma roundNearest_mono (X X' : Z) :
  0 <= X <= X' -> roundNearest X <= roundNearest X'.
Proof.
  intros HX.
  pose proof (lostBits_mono X X' (proj2 HX)) as Hkk.
  pose proof (lostBits_nonneg X) as Hk.
  destruct (Z.eq_dec (lostBits X) (lostBits X')) as [E|E].
  - unfold roundNearest. rewrite <- E.
    apply Z.mul_le_mono_nonneg_r; [apply Z.pow_nonneg; lia|].
    apply roundShift_mono; assumption.
  - assert (Hk' : 0 < lostBits X') by lia.
    pose proof (lostBits_quotient X' Hk') as Q'.
    destruct (roundNearest_bounds X' ltac:(lia)) as [L' _].
    destruct (roundNearest_bounds X ltac:(lia)) as [_ U].
    set (k := lostBits X) in *. set (k' := lostBits X') in *.
    assert (Hq : X / 2 ^ k + 1 <= 2 ^ 53).
    { destruct (Z.eq_dec k 0) as [E0|E0].
      - rewrite E0. simpl. rewrite Z.div_1_r.
        assert (X < 2 ^ 53); [|lia].
        destruct (Z.lt_ge_cases X (2 ^ 53)) as [H|H]; [exact H|].
        exfalso. unfold k, lostBits in E0.
        assert (53 <= Z.log2 X) by (apply Z.log2_le_pow2; lia). lia.
      - pose proof (lostBits_quotient X ltac:(fold k; lia)). fold k in H. lia. }
    assert (Hp : 0 < 2 ^ k) by (apply Z.pow_pos_nonneg; lia).
    assert (Hp' : 2 ^ k' = 2 ^ k * 2 ^ (k' - k))
      by (rewrite <- Z.pow_add_r by lia; f_equal; lia).
    assert (H2 : 2 <= 2 ^ (k' - k)).
    { change 2 with (2 ^ 1) at 1. apply Z.pow_le_mono_r; lia. }
    change (2 ^ 53) with (2 * 2 ^ 52) in Hq.
    set (A := 2 ^ 52) in *. set (B := 2 ^ (k' - k)) in *.
    set (P := 2 ^ k) in *.
    apply Z.le_trans with ((2 * A) * P); [nia|].
    apply Z.le_trans with (A * 2 ^ k'); [rewrite Hp'; nia|].
    apply Z.le_trans with (X' / 2 ^ k' * 2 ^ k'); [|exact L'].
    apply Z.mul_le_mono_nonneg_r; [apply Z.pow_nonneg; lia | lia].
Qed.

Lemma loc_shifted (N n : Z) :
  0 <= N -> 0 <= n ->
  round_nearest_even (shr_m (shifted N n)) (loc_of_shr_record (shifted N n))
  = roundShift N n.
Proof.
  intros HN Hn. unfold shifted, roundShift. cbv zeta.
  cbn [shr_m loc_of_shr_record].
  assert (Hp : 0 < 2 ^ n) by (apply Z.pow_pos_nonneg; lia).
  pose proof (Z.mod_pos_bound N (2 ^ n) Hp) as Hr.
  set (q := N / 2 ^ n). set (r := N mod 2 ^ n) in *. set (P := 2 ^ n) in *.
  destruct (Z.leb_spec P (2 * r)), (Z.eqb_spec r 0), (Z.eqb_spec (2 * r) P),
           (Z.ltb_spec P (2 * r));
    simpl; rewrite <- ?Z.negb_odd; destruct (Z.odd q); simpl;
    try reflexivity; lia.
Qed.

Lemma roundShift_scale (N n j : Z) :
  0 <= n -> 0 <= j -> roundShift (N * 2 ^ j) (n + j) = roundShift N n.
Proof.
  intros Hn Hj. unfold roundShift. cbv zeta.
  assert (Hpn : 0 < 2 ^ n) by (apply Z.pow_pos_nonneg; lia).
  assert (Hpj : 0 < 2 ^ j) by (apply Z.pow_pos_nonneg; lia).
  rewrite Z.pow_add_r by lia.
  rewrite Z.div_mul_cancel_r by lia.
  rewrite Z.mul_mod_distr_r by lia.
  set (q := N / 2 ^ n). set (r := N mod 2 ^ n).
  set (P := 2 ^ n) in *. set (J := 2 ^ j) in *.
  destruct (Z.odd q);
    destruct (Z.ltb_spec (P * J) (2 * (r * J))), (Z.eqb_spec (2 * (r * J)) (P * J)),
             (Z.ltb_spec P (2 * r)), (Z.eqb_spec (2 * r) P);
    simpl; try reflexivity; nia.
Qed.

Lemma digits2_size (p : positive) : digits2_pos p = Pos.size p.
Proof. induction p as [p IH|p IH|]; simpl; congruence. Qed.

Lemma digits2_log2 (p : positive) :
  Z.pos (digits2_pos p) = Z.log2 (Z.pos p) + 1.
Proof. rewrite digits2_size. destruct p; simpl; lia. Qed.

Lemma Zdigits2_log2 (z : Z) : 0 < z -> Zdigits2 z = Z.log2 z + 1.
Proof.
  destruct z as [|p|p]; try lia. intros _. apply digits2_log2.
Qed.

Lemma log2_range (z a : Z) :
  0 <= a -> 2 ^ a <= z < 2 ^ (a + 1) -> Z.log2 z = a.
Proof. intros Ha H. apply Z.log2_unique; [exact Ha|]. exact H. Qed.

Lemma fexp_eq (D : Z) : fexp prec emax D = Z.max (D - 53) emin.
Proof. reflexivity. Qed.

(** What [binary_round_aux] computes on an exact mantissa: a shift, a
    rounding, and a second shift for the carry. *)

Lemma bra_exact_form (M e : Z) :
  0 <= M ->
  binary_round_aux prec emax false M e loc_Exact
  = let n1 := Z.max 0 (fexp prec emax (Zdigits2 M + e) - e) in
    let q1 := roundShift M n1 in
    let e1 := e + n1 in
    let n2 := Z.max 0 (fexp prec emax (Zdigits2 q1 + e1) - e1) in
    match q1 / 2 ^ n2 with
    | Z0 => S754_zero false
    | Z.pos m =>
        if e1 + n2 <=? emax - prec then S754_finite false m (e1 + n2)
        else S754_infinity false
    | Z.neg _ => S754_nan
    end.
Proof.
  intros HM. unfold binary_round_aux, shr_fexp.
  cbn [shr_record_of_loc]. rewrite shr_exact by exact HM.
  rewrite loc_shifted by lia.
  set (n1 := Z.max 0 (fexp prec emax (Zdigits2 M + e) - e)).
  assert (Hq1 : 0 <= roundShift M n1).
  { pose proof (roundShift_bounds M n1 ltac:(lia)).
    assert (0 <= M / 2 ^ n1); [|lia].
    apply Z.div_pos; [lia | apply Z.pow_pos_nonneg; lia]. }
  rewrite shr_exact by exact Hq1.
  cbv zeta. unfold shifted. cbn [shr_m]. reflexivity.
Qed.

Lemma pow2_split (a b : Z) : 0 <= a -> 0 <= b -> 2 ^ (a + b) = 2 ^ a * 2 ^ b.
Proof. intros. apply Z.pow_add_r; assumption. Qed.

(** A positive integer with an exponent of the format, its mantissa being
    long enough, is rounded to 53 bits. *)

Lemma bra_exact_spec (M : positive) (e : Z) :
  emin <= e ->
  e <= fexp prec emax (Z.pos (digits2_pos M) + e) ->
  let X := Z.pos M * 2 ^ (e - emin) in
  match binary_round_aux prec emax false (Z.pos M) e loc_Exact with
  | S754_finite false m e2 =>
      emin <= e2 /\ bounded prec emax m e2 = true /\
      Z.pos m * 2 ^ (e2 - emin) = roundNearest X
  | S754_infinity false => 2 ^ 2098 <= roundNearest X
  | _ => False
  end.
Proof.
  intros He Hn X.
  rewrite bra_exact_form by lia. cbn [Zdigits2].
  rewrite fexp_eq in *. rewrite digits2_log2 in *.
  set (L := Z.log2 (Z.pos M)) in *.
  assert (HL : 0 <= L) by apply Z.log2_nonneg.
  destruct (Z.log2_spec (Z.pos M) ltac:(lia)) as [HL1 HL2]. fold L in HL1, HL2.
  set (e' := Z.max (L + 1 + e - 53) emin) in *.
  rewrite Z.max_r by lia.
  set (n1 := e' - e).
  assert (Hn1 : 0 <= n1) by (unfold n1; lia).
  replace (e + n1) with e' by (unfold n1; lia).
  (* the bits lost *)
  assert (HX : 0 < X) by (unfold X; apply Z.mul_pos_pos; [lia|];
                           apply Z.pow_pos_nonneg; lia).
  assert (HlogX : Z.log2 X = L + (e - emin))
    by (unfold X; rewrite Z.log2_mul_pow2 by lia; fold L; lia).
  assert (HK : lostBits X = n1 + (e - emin)).
  { unfold lostBits. rewrite HlogX. unfold n1, e', emin. lia. }
  assert (HRN : roundNearest X = roundShift (Z.pos M) n1 * 2 ^ (n1 + (e - emin))).
  { unfold roundNearest. rewrite HK. unfold X.
    rewrite roundShift_scale by lia. reflexivity. }
  rewrite HRN. clear HRN HK HlogX.
  set (q1 := roundShift (Z.pos M) n1).
  assert (Hcases : (n1 = 0 /\ q1 = Z.pos M /\ L <= 52 + (e' - emin) - (e - emin)
                    /\ (L + 1 + e - 53 <= e'))
                   \/ (0 < n1 /\ 2 ^ 52 <= q1 <= 2 ^ 53 /\ emin < e')).
  { destruct (Z.eq_dec n1 0) as [E|E].
    - left. split; [exact E|]. split.
      + unfold q1. rewrite E. apply roundShift_exact.
      + unfold n1 in E. unfold e'. lia.
    - right. split; [lia|].
      assert (He' : e' = L + 1 + e - 53) by (unfold e', n1 in *; lia).
      assert (HLn : L = 52 + n1) by (unfold n1; lia).
      assert (Hp : 0 < 2 ^ n1) by (apply Z.pow_pos_nonneg; lia).
      rewrite HLn in HL1. rewrite HLn in HL2.
      replace (Z.succ (52 + n1)) with (53 + n1) in HL2 by lia.
      rewrite pow2_split in HL1, HL2 by lia.
      assert (Hq : 2 ^ 52 <= Z.pos M / 2 ^ n1 < 2 ^ 53).
      { split; [apply Z.div_le_lower_bound; lia
               | apply Z.div_lt_upper_bound; lia]. }
      pose proof (roundShift_bounds (Z.pos M) n1 Hn1) as B. fold q1 in B.
      split; [lia | unfold n1 in *; lia]. }
  destruct Hcases as [(E1 & Eq & HLb & HLc)|(Hpos & Hq & Hemin)].
  - (* nothing to shift *)
    rewrite Eq. cbn [Zdigits2]. rewrite digits2_log2. fold L.
    rewrite fexp_eq. fold e'.
    assert (Ee : e' = e) by (unfold n1 in E1; lia).
    replace (Z.max (L + 1 + e' - 53) emin) with e' by (unfold e' at 1; lia).
    rewrite Z.sub_diag. simpl Z.max. change (2 ^ 0) with 1.
    rewrite Z.div_1_r, Z.add_0_r.
    destruct (Z.leb_spec e' (emax - prec)) as [Hle|Hgt].
    + split; [lia|]. split.
      * unfold bounded, canonical_mantissa. rewrite digits2_log2. fold L.
        rewrite Ee. rewrite fexp_eq.
        apply andb_true_iff. split; [apply Z.eqb_eq | apply Z.leb_le]; lia.
      * rewrite E1, Ee. reflexivity.
    + rewrite E1. simpl Z.add.
      unfold emax, prec in Hgt.
      assert (HL52 : L = 52) by (unfold e', emin in *; lia).
      rewrite HL52 in HL1.
      assert (2 ^ 2046 <= 2 ^ (e - emin))
        by (apply Z.pow_le_mono_r; unfold emin; lia).
      change (2 ^ 2098) with (2 ^ 52 * 2 ^ 2046).
      assert (0 < 2 ^ 52) by reflexivity. nia.
  - (* a shift and a rounding *)
    assert (Hq1 : 0 < q1) by lia.
    rewrite Zdigits2_log2 by exact Hq1. rewrite fexp_eq.
    destruct (Z.eq_dec q1 (2 ^ 53)) as [Ec|Ec].
    + (* the carry *)
      rewrite Ec. change (Z.log2 (2 ^ 53)) with 53.
      replace (Z.max (53 + 1 + e' - 53) emin - e') with 1 by lia.
      change (Z.max 0 1) with 1. change (2 ^ 53 / 2 ^ 1) with (2 ^ 52).
      change (2 ^ 52) with (Z.pos 4503599627370496).
      destruct (Z.leb_spec (e' + 1) (emax - prec)) as [Hle|Hgt].
      * split; [lia|]. split; [|].
        -- unfold bounded, canonical_mantissa.
           change (Z.pos (digits2_pos 4503599627370496)) with 53.
           rewrite fexp_eq.
           apply andb_true_iff. split; [apply Z.eqb_eq | apply Z.leb_le]; lia.
        -- replace (e' + 1 - emin) with (1 + (n1 + (e - emin)))
             by (unfold n1; lia).
           rewrite pow2_split by lia.
           change (2 ^ 53) with (4503599627370496 * 2 ^ 1). lia.
      * unfold emax, prec in Hgt.
        assert (2 ^ 2045 <= 2 ^ (n1 + (e - emin)))
          by (apply Z.pow_le_mono_r; unfold n1, emin; lia).
        change (2 ^ 2098) with (2 ^ 53 * 2 ^ 2045). 
        assert (0 < 2 ^ 53) by reflexivity. nia.
    + (* no carry *)
      assert (Hlog : Z.log2 q1 = 52) by (apply log2_range; lia).
      rewrite Hlog.
      replace (Z.max (52 + 1 + e' - 53) emin - e') with 0 by lia.
      simpl Z.max. change (2 ^ 0) with 1. rewrite Z.div_1_r, Z.add_0_r.
      destruct q1 as [|p|p] eqn:Eq1; try lia.
      destruct (Z.leb_spec e' (emax - prec)) as [Hle|Hgt].
      * split; [lia|]. split.
        -- unfold bounded, canonical_mantissa. rewrite digits2_log2, Hlog.
           rewrite fexp_eq.
           apply andb_true_iff. split; [apply Z.eqb_eq | apply Z.leb_le]; lia.
        -- f_equal. f_equal. unfold n1. lia.
      * unfold emax, prec in Hgt.
        assert (2 ^ 2046 <= 2 ^ (n1 + (e - emin)))
          by (apply Z.pow_le_mono_r; unfold n1, emin; lia).
        change (2 ^ 2098) with (2 ^ 52 * 2 ^ 2046).
        assert (0 < 2 ^ 52) by reflexivity. nia.
Qed.

Lemma binary_round_spec (N : positive) (f : Z) :
  emin <= f ->
  rounds_to (roundNearest (Z.pos N * 2 ^ (f - emin)))
            (binary_round prec emax false N f).
Proof.
  intros Hf. unfold binary_round, shl_align.
  set (e' := fexp prec emax (Z.pos (digits2_pos N) + f)).
  assert (He' : emin <= e') by (unfold e'; rewrite fexp_eq; lia).
  destruct (e' - f) as [|d|d] eqn:Ed.
  - apply (bra_exact_spec N f Hf). fold e'. lia.
  - apply (bra_exact_spec N f Hf). fold e'. lia.
  - pose proof (bra_exact_spec (Pos.iter xO N d) e' He') as H.
    rewrite digits2_pos_iter in H.
    replace (Z.pos (digits2_pos N + d) + e') with (Z.pos (digits2_pos N) + f)
      in H by lia.
    fold e' in H. specialize (H ltac:(lia)). cbv zeta in H.
    assert (EX : Z.pos (Pos.iter xO N d) * 2 ^ (e' - emin)
                 = Z.pos N * 2 ^ (f - emin)).
    { rewrite pos_iter_xO.
      replace (f - emin) with (Z.pos d + (e' - emin)) by lia.
      rewrite Z.pow_add_r by lia. lia. }
    rewrite EX in H. exact H.
Qed.

Lemma bounded_emin (m : positive) (e : Z) :
  bounded prec emax m e = true -> emin <= e.
Proof.
  unfold bounded, canonical_mantissa. rewrite fexp_eq. intros H.
  apply andb_true_iff in H. destruct H as [H _]. apply Z.eqb_eq in H. lia.
Qed.

(** A double is its own rounding. *)

Lemma roundNearest_bounded (m : positive) (e : Z) :
  bounded prec emax m e = true ->
  roundNearest (Z.pos m * 2 ^ (e - emin)) = Z.pos m * 2 ^ (e - emin).
Proof.
  intros Hb. pose proof (bounded_emin m e Hb) as He.
  unfold bounded, canonical_mantissa in Hb. rewrite fexp_eq in Hb.
  apply andb_true_iff in Hb. destruct Hb as [Hc _]. apply Z.eqb_eq in Hc.
  rewrite digits2_log2 in Hc.
  unfold roundNearest.
  assert (HK : lostBits (Z.pos m * 2 ^ (e - emin)) = e - emin).
  { unfold lostBits. rewrite Z.log2_mul_pow2 by lia. lia. }
  rewrite HK.
  rewrite <- (Z.add_0_l (e - emin)) at 2.
  rewrite roundShift_scale by lia. rewrite roundShift_exact. reflexivity.
Qed.

(** The difference of two finite doubles is the rounding of the exact
    difference, when that is positive. *)

Lemma sub_spec (x y : spec_float) :
  isDouble x = true -> isDouble y = true ->
  isFinite x = true -> isFinite y = true ->
  0 < sval x - sval y ->
  rounds_to (roundNearest (sval x - sval y)) (SFsub prec emax x y).
Proof.
  unfold isDouble.
  destruct x as [sx|sx| |sx mx ex], y as [sy|sy| |sy my ey];
    intros Vx Vy Fx Fy Hpos; try discriminate; cbn [valid_binary] in Vx, Vy.
  - (* 0 - y *)
    pose proof (bounded_emin my ey Vy) as He.
    cbn [sval] in *. cbn [SFsub].
    assert (0 < 2 ^ (ey - emin)) by (apply Z.pow_pos_nonneg; lia).
    destruct sy; cbn [cond_Zopp negb] in *; [|lia].
    cbn [rounds_to].
    replace (0 - - (Z.pos my * 2 ^ (ey - emin)))
      with (Z.pos my * 2 ^ (ey - emin)) by lia.
    rewrite roundNearest_bounded by exact Vy. auto.
  - (* x - 0 *)
    pose proof (bounded_emin mx ex Vx) as He.
    cbn [sval] in *. cbn [SFsub].
    assert (0 < 2 ^ (ex - emin)) by (apply Z.pow_pos_nonneg; lia).
    destruct sx; cbn [cond_Zopp] in *; [lia|].
    cbn [rounds_to]. rewrite Z.sub_0_r.
    rewrite roundNearest_bounded by exact Vx. auto.
  - pose proof (bounded_emin mx ex Vx) as Hex.
    pose proof (bounded_emin my ey Vy) as Hey.
    cbn [SFsub sval] in *.
    set (ez := Z.min ex ey) in *.
    assert (Hx := shl_align_value mx ex ez ltac:(lia)).
    assert (Hy := shl_align_value my ey ez ltac:(lia)).
    set (ax := fst (shl_align mx ex ez)) in *.
    set (ay := fst (shl_align my ey ez)) in *.
    assert (Hz : (cond_Zopp sx (Z.pos ax) - cond_Zopp sy (Z.pos ay))
                 * 2 ^ (ez - emin)
                 = cond_Zopp sx (Z.pos mx * 2 ^ (ex - emin))
                   - cond_Zopp sy (Z.pos my * 2 ^ (ey - emin))).
    { rewrite Hx, Hy.
      replace (ex - emin) with ((ex - ez) + (ez - emin)) by lia.
      replace (ey - emin) with ((ey - ez) + (ez - emin)) by lia.
      rewrite !Z.pow_add_r by lia.
      destruct sx, sy; cbn [cond_Zopp]; lia. }
    rewrite <- Hz in *.
    assert (Hp : 0 < 2 ^ (ez - emin)) by (apply Z.pow_pos_nonneg; lia).
    destruct (cond_Zopp sx (Z.pos ax) - cond_Zopp sy (Z.pos ay)) as [|p|p];
      try lia.
    cbn [binary_normalize]. apply binary_round_spec. lia.
Qed.

(** The magnitudes of two finite doubles compare as their exponents and
    mantissas do. *)

Lemma magnitude_compare (m1 m2 : positive) (e1 e2 : Z) :
  bounded prec emax m1 e1 = true -> bounded prec emax m2 e2 = true ->
  match Z.compare e1 e2 with
  | Lt => Lt
  | Gt => Gt
  | Eq => Pos.compare_cont Eq m1 m2
  end
  = Z.compare (Z.pos m1 * 2 ^ (e1 - emin)) (Z.pos m2 * 2 ^ (e2 - emin)).
Proof.
  intros B1 B2.
  pose proof (bounded_emin m1 e1 B1) as He1.
  pose proof (bounded_emin m2 e2 B2) as He2.
  symmetry.
  destruct (Z.compare_spec e1 e2) as [E|E|E].
  - subst e2. change (Pos.compare_cont Eq m1 m2) with (Z.pos m1 ?= Z.pos m2).
    assert (Hp : 0 < 2 ^ (e1 - emin)) by (apply Z.pow_pos_nonneg; lia).
    destruct (Z.compare_spec (Z.pos m1) (Z.pos m2)) as [C|C|C].
    + rewrite C. apply Z.compare_refl.
    + apply Z.compare_lt_iff. nia.
    + apply Z.compare_gt_iff. nia.
  - pose proof (bounded_exponent_lt m1 m2 e1 e2 B1 B2 E) as H.
    apply Z.compare_lt_iff.
    replace (e2 - emin) with ((e2 - e1) + (e1 - emin)) by lia.
    rewrite Z.pow_add_r by lia.
    assert (Hp : 0 < 2 ^ (e1 - emin)) by (apply Z.pow_pos_nonneg; lia).
    nia.
  - pose proof (bounded_exponent_lt m2 m1 e2 e1 B2 B1 E) as H.
    apply Z.compare_gt_iff.
    replace (e1 - emin) with ((e1 - e2) + (e2 - emin)) by lia.
    rewrite Z.pow_add_r by lia.
    assert (Hp : 0 < 2 ^ (e2 - emin)) by (apply Z.pow_pos_nonneg; lia).
    nia.
Qed.

(** The order of finite doubles is that of their values. *)

Lemma compare_sval (x y : spec_float) :
  isDouble x = true -> isDouble y = true ->
  isFinite x = true -> isFinite y = true ->
  SFcompare x y = Some (Z.compare (sval x) (sval y)).
Proof.
  unfold isDouble.
  destruct x as [sx|sx| |sx mx ex], y as [sy|sy| |sy my ey];
    intros Vx Vy Fx Fy; try discriminate; cbn [valid_binary] in Vx, Vy;
    cbn [SFcompare sval].
  - reflexivity.
  - pose proof (bounded_emin my ey Vy).
    assert (0 < 2 ^ (ey - emin)) by (apply Z.pow_pos_nonneg; lia).
    f_equal. symmetry.
    destruct sy; cbn [cond_Zopp];
      [apply Z.compare_gt_iff | apply Z.compare_lt_iff]; nia.
  - pose proof (bounded_emin mx ex Vx).
    assert (0 < 2 ^ (ex - emin)) by (apply Z.pow_pos_nonneg; lia).
    f_equal. symmetry.
    destruct sx; cbn [cond_Zopp];
      [apply Z.compare_lt_iff | apply Z.compare_gt_iff]; nia.
  - pose proof (bounded_emin mx ex Vx).
    pose proof (bounded_emin my ey Vy).
    assert (0 < 2 ^ (ex - emin)) by (apply Z.pow_pos_nonneg; lia).
    assert (0 < 2 ^ (ey - emin)) by (apply Z.pow_pos_nonneg; lia).
    pose proof (magnitude_compare mx my ex ey Vx Vy) as Hc.
    f_equal.
    destruct sx, sy; cbn [cond_Zopp].
    + (* both negative *)
      rewrite Z.compare_opp.
      rewrite <- (magnitude_compare my mx ey ex Vy Vx).
      rewrite (Z.compare_antisym ex ey).
      destruct (ex ?= ey); cbn [CompOpp]; try reflexivity.
      change (Pos.compare_cont Eq my mx) with (Pos.compare my mx).
      change (Pos.compare_cont Eq mx my) with (Pos.compare mx my).
      rewrite (Pos.compare_antisym mx my). reflexivity.
    + symmetry. apply Z.compare_lt_iff. nia.
    + symmetry. apply Z.compare_gt_iff. nia.
    + exact Hc.
Qed.

Lemma leb_sval (x y : spec_float) :
  isDouble x = true -> isDouble y = true ->
  isFinite x = true -> isFinite y = true ->
  SFleb x y = true -> sval x <= sval y.
Proof.
  intros Vx Vy Fx Fy. unfold SFleb.
  rewrite (compare_sval x y Vx Vy Fx Fy).
  destruct (Z.compare_spec (sval x) (sval y)); try discriminate; lia.
Qed.

(** A rounding with the sign of a negative number is not positive. *)

Lemma bra_negative (m e : Z) (l : location) :
  match binary_round_aux prec emax true m e l with
  | S754_finite false _ _ | S754_infinity false => False
  | _ => True
  end.
Proof.
  unfold binary_round_aux.
  destruct (shr_fexp prec emax m e l) as [mrs' e'].
  destruct (shr_fexp prec emax _ e' loc_Exact) as [mrs'' e''].
  destruct (shr_m mrs'') as [|p|p]; try exact I.
  destruct (e'' <=? emax - prec); exact I.
Qed.

(** A difference of finite doubles that is a positive double is that of a
    greater and a smaller value. *)

Lemma sub_positive (x y : spec_float) (m : positive) (e : Z) :
  isDouble x = true -> isDouble y = true ->
  isFinite x = true -> isFinite y = true ->
  SFsub prec emax x y = S754_finite false m e ->
  0 < sval x - sval y.
Proof.
  unfold isDouble.
  destruct x as [sx|sx| |sx mx ex], y as [sy|sy| |sy my ey];
    intros Vx Vy Fx Fy; try discriminate; cbn [valid_binary] in Vx, Vy.
  - destruct sx, sy; discriminate.
  - pose proof (bounded_emin my ey Vy).
    assert (0 < 2 ^ (ey - emin)) by (apply Z.pow_pos_nonneg; lia).
    cbn [SFsub sval]. destruct sy; cbn [negb cond_Zopp]; [|discriminate].
    intros _. nia.
  - pose proof (bounded_emin mx ex Vx).
    assert (0 < 2 ^ (ex - emin)) by (apply Z.pow_pos_nonneg; lia).
    cbn [SFsub sval]. destruct sx; cbn [cond_Zopp]; [discriminate|].
    intros _. nia.
  - pose proof (bounded_emin mx ex Vx) as Hex.
    pose proof (bounded_emin my ey Vy) as Hey.
    cbn [SFsub sval].
    set (ez := Z.min ex ey) in *.
    assert (Hx := shl_align_value mx ex ez ltac:(lia)).
    assert (Hy := shl_align_value my ey ez ltac:(lia)).
    set (ax := fst (shl_align mx ex ez)) in *.
    set (ay := fst (shl_align my ey ez)) in *.
    assert (Hz : (cond_Zopp sx (Z.pos ax) - cond_Zopp sy (Z.pos ay))
                 * 2 ^ (ez - emin)
                 = cond_Zopp sx (Z.pos mx * 2 ^ (ex - emin))
                   - cond_Zopp sy (Z.pos my * 2 ^ (ey - emin))).
    { rewrite Hx, Hy.
      replace (ex - emin) with ((ex - ez) + (ez - emin)) by lia.
      replace (ey - emin) with ((ey - ez) + (ez - emin)) by lia.
      rewrite !Z.pow_add_r by lia.
      destruct sx, sy; cbn [cond_Zopp]; lia. }
    rewrite <- Hz.
    assert (Hp : 0 < 2 ^ (ez - emin)) by (apply Z.pow_pos_nonneg; lia).
    destruct (cond_Zopp sx (Z.pos ax) - cond_Zopp sy (Z.pos ay)) as [|p|p].
    + discriminate.
    + intros _. nia.
    + cbn [binary_normalize]. unfold binary_round.
      destruct (shl_align p _ _) as [mz ez'].
      pose proof (bra_negative (Z.pos mz) ez' loc_Exact) as Hn.
      intros E. rewrite E in Hn. destruct Hn.
Qed.

(** A greater double has a greater difference to a third: the subtraction
    rounds monotonically. *)

Lemma sub_monotone (v min max : spec_float) (ms : positive) (es : Z) :
  isDouble v = true -> isDouble min = true -> isDouble max = true ->
  isFinite v = true -> isFinite min = true -> isFinite max = true ->
  SFleb max v = true ->
  SFsub prec emax max min = S754_finite false ms es ->
  exists Y,
    Z.pos ms * 2 ^ (es - emin) <= Y /\ rounds_to Y (SFsub prec emax v min).
Proof.
  intros Vv Vmin Vmax Fv Fmin Fmax Hle Hspan.
  pose proof (sub_positive max min ms es Vmax Vmin Fmax Fmin Hspan) as Hpos.
  pose proof (leb_sval max v Vmax Vv Fmax Fv Hle) as Hv.
  pose proof (sub_spec max min Vmax Vmin Fmax Fmin Hpos) as S2.
  rewrite Hspan in S2. cbn [rounds_to] in S2. destruct S2 as (_ & _ & S2).
  exists (roundNearest (sval v - sval min)). split.
  - rewrite S2. apply roundNearest_mono. lia.
  - apply sub_spec; try assumption. lia.
Qed.

Lemma atLeast_mono (y m m' e : Z) :
  m <= m' -> atLeast y m e -> atLeast y m' e.
Proof.
  unfold atLeast. intros Hm. destruct (0 <=? e) eqn:E; [|lia].
  apply Z.leb_le in E.
  assert (0 < 2 ^ e) by (apply Z.pow_pos_nonneg; lia). nia.
Qed.

Lemma atLeast_pos (y m e : Z) : 0 < y -> atLeast y m e -> 0 < m.
Proof.
  unfold atLeast. intros Hy. destruct (0 <=? e) eqn:E.
  - apply Z.leb_le in E.
    assert (0 < 2 ^ e) by (apply Z.pow_pos_nonneg; lia). nia.
  - apply Z.leb_gt in E.
    assert (0 < 2 ^ (- e)) by (apply Z.pow_pos_nonneg; lia). nia.
Qed.

Lemma shr_m_shr_1 (mrs : shr_record) :
  0 <= shr_m mrs -> shr_m (shr_1 mrs) = shr_m mrs / 2.
Proof.
  destruct mrs as [m r s]. cbn [shr_m]. intros Hm.
  rewrite shr_1_spec by exact Hm. reflexivity.
Qed.

Lemma shr_m_iter (p : positive) (mrs : shr_record) :
  0 <= shr_m mrs ->
  shr_m (iter_pos shr_1 p mrs) = shr_m mrs / 2 ^ Z.pos p.
Proof.
  revert mrs. induction p as [p IH|p IH|]; intros mrs Hm; cbn [iter_pos].
  - assert (H1 : 0 <= shr_m (shr_1 mrs))
      by (rewrite shr_m_shr_1 by lia; apply Z.div_pos; lia).
    assert (Hp : 0 < 2 ^ Z.pos p) by (apply Z.pow_pos_nonneg; lia).
    assert (H2 : 0 <= shr_m (iter_pos shr_1 p (shr_1 mrs)))
      by (rewrite IH by lia; apply Z.div_pos; lia).
    rewrite IH, IH, shr_m_shr_1 by lia.
    rewrite !Z.div_div by lia. f_equal.
    rewrite <- Z.pow_add_r, <- Z.pow_succ_r by lia. f_equal. lia.
  - assert (Hp : 0 < 2 ^ Z.pos p) by (apply Z.pow_pos_nonneg; lia).
    assert (H2 : 0 <= shr_m (iter_pos shr_1 p mrs))
      by (rewrite IH by lia; apply Z.div_pos; lia).
    rewrite IH, IH by lia.
    rewrite !Z.div_div by lia. f_equal.
    rewrite <- Z.pow_add_r by lia. f_equal. lia.
  - apply shr_m_shr_1. exact Hm.
Qed.

Lemma shr_m_shr (mrs : shr_record) (e n : Z) :
  0 <= shr_m mrs ->
  shr_m (fst (shr mrs e n)) = shr_m mrs / 2 ^ Z.max 0 n /\
  snd (shr mrs e n) = e + Z.max 0 n.
Proof.
  intros Hm. destruct n as [|p|p]; cbn [shr fst snd].
  - change (Z.max 0 0) with 0. change (2 ^ 0) with 1.
    rewrite Z.div_1_r. lia.
  - rewrite shr_m_iter by exact Hm. change (Z.max 0 (Z.pos p)) with (Z.pos p).
    split; reflexivity.
  - change (Z.max 0 (Z.neg p)) with 0. change (2 ^ 0) with 1.
    rewrite Z.div_1_r. lia.
Qed.

(** The shift to the exponent of the format keeps a mantissa above an
    integer of 53 bits. *)

Lemma atLeast_shift (y m e : Z) :
  0 < y < 2 ^ 53 -> atLeast y m e ->
  let n := Z.max 0 (fexp prec emax (Zdigits2 m + e) - e) in
  atLeast y (m / 2 ^ n) (e + n).
Proof.
  intros Hy H n.
  pose proof (atLeast_pos y m e ltac:(lia) H) as Hm.
  destruct (Z.eq_dec n 0) as [E0|E0].
  - rewrite E0. simpl. rewrite Z.div_1_r, Z.add_0_r. exact H.
  - assert (Hn : 0 < n) by (unfold n in *; lia).
    assert (HE : e + n = fexp prec emax (Zdigits2 m + e)) by (unfold n in *; lia).
    rewrite Zdigits2_log2, fexp_eq in HE by exact Hm.
    assert (Hp : 0 < 2 ^ n) by (apply Z.pow_pos_nonneg; lia).
    destruct (Z.log2_spec m Hm) as [L1 L2].
    unfold atLeast in *.
    destruct (Z.leb_spec 0 (e + n)) as [HEn|HEn].
    + (* the new exponent is not negative *)
      assert (He' : e + n = Z.log2 m + 1 + e - 53) by (unfold emin in HE; lia).
      assert (HL : Z.log2 m = 52 + n) by lia.
      rewrite HL, Z.pow_add_r in L1 by lia.
      assert (Hq : 2 ^ 52 <= m / 2 ^ n) by (apply Z.div_le_lower_bound; lia).
      destruct (Z.eq_dec (e + n) 0) as [Ez|Ez].
      * rewrite Ez. simpl. rewrite Z.mul_1_r.
        destruct (Z.leb_spec 0 e) as [He|He]; [lia|].
        replace (- e) with n in H by lia.
        apply Z.div_le_lower_bound; lia.
      * assert (2 ^ 1 <= 2 ^ (e + n)) by (apply Z.pow_le_mono_r; lia).
        change (2 ^ 1) with 2 in *. change (2 ^ 53) with (2 * 2 ^ 52) in Hy.
        nia.
    + destruct (Z.leb_spec 0 e) as [He|He]; [lia|].
      apply Z.div_le_lower_bound; [lia|].
      replace (- e) with (n + - (e + n)) in H by lia.
      rewrite Z.pow_add_r in H by lia. lia.
Qed.

Lemma round_nearest_even_ge (m : Z) (l : location) :
  m <= round_nearest_even m l.
Proof.
  destruct l as [|[| |]]; simpl; try lia. destruct (Z.even m); lia.
Qed.

(** A rounding stays above an integer of 53 bits that the exact value is
    above. *)

Lemma bra_atLeast (y m e : Z) (l : location) :
  0 < y < 2 ^ 53 -> atLeast y m e ->
  match binary_round_aux prec emax false m e l with
  | S754_finite false mr er => atLeast y (Z.pos mr) er
  | S754_infinity false => True
  | _ => False
  end.
Proof.
  intros Hy H.
  pose proof (atLeast_pos y m e ltac:(lia) H) as Hm.
  unfold binary_round_aux, shr_fexp.
  assert (Hm0 : shr_m (shr_record_of_loc m l) = m)
    by (destruct l as [|[| |]]; reflexivity).
  pose proof (shr_m_shr (shr_record_of_loc m l) e
                (fexp prec emax (Zdigits2 m + e) - e) ltac:(lia)) as [S1 S2].
  rewrite Hm0 in S1.
  pose proof (atLeast_shift y m e Hy H) as T1. cbv zeta in T1.
  destruct (shr (shr_record_of_loc m l) e _) as [mrs' e'].
  cbn [fst snd] in S1, S2. rewrite <- S1, <- S2 in T1.
  set (q1 := round_nearest_even (shr_m mrs') (loc_of_shr_record mrs')).
  assert (T2 : atLeast y q1 e')
    by (apply (atLeast_mono y (shr_m mrs')); [apply round_nearest_even_ge | exact T1]).
  pose proof (atLeast_pos y q1 e' ltac:(lia) T2) as Hq1.
  cbn [shr_record_of_loc].
  pose proof (shr_m_shr (Build_shr_record q1 false false) e'
                (fexp prec emax (Zdigits2 q1 + e') - e')
                ltac:(cbn [shr_m]; lia)) as [S3 S4].
  cbn [shr_m] in S3.
  pose proof (atLeast_shift y q1 e' Hy T2) as T3. cbv zeta in T3.
  destruct (shr (Build_shr_record q1 false false) e' _) as [mrs'' e''].
  cbn [fst snd] in S3, S4. rewrite <- S3, <- S4 in T3.
  pose proof (atLeast_pos y (shr_m mrs'') e'' ltac:(lia) T3) as Hm''.
  destruct (shr_m mrs'') as [|p|p]; try lia.
  destruct (e'' <=? emax - prec); [exact T3 | exact I].
Qed.

Lemma div_eucl_div (a b : Z) : Z.div_eucl a b = (a / b, a mod b).
Proof.
  unfold Z.div, Z.modulo. destruct (Z.div_eucl a b). reflexivity.
Qed.

(** The quotient of a double by a smaller one is at least 1. *)

Lemma div_atLeast_one (ma ms : positive) (ea es : Z) :
  emin <= ea -> emin <= es ->
  Z.pos ms * 2 ^ (es - emin) <= Z.pos ma * 2 ^ (ea - emin) ->
  match SFdiv prec emax (S754_finite false ma ea) (S754_finite false ms es) with
  | S754_finite false mt et => atLeast 1 (Z.pos mt) et
  | S754_infinity false => True
  | _ => False
  end.
Proof.
  intros Hea Hes Hle. unfold SFdiv, SFdiv_core_binary. cbn [Zdigits2 xorb].
  pose proof (digits2_pos_lower ma) as La.
  pose proof (digits2_pos_upper ms) as Us.
  set (d1 := Z.pos (digits2_pos ma)) in *.
  set (d2 := Z.pos (digits2_pos ms)) in *.
  rewrite fexp_eq.
  set (e' := Z.min (Z.max (d1 + ea - (d2 + es) - 53) emin) (ea - es)).
  set (s := ea - es - e').
  assert (Hs : 0 <= s) by (unfold s, e'; lia).
  set (m' := match s with
             | 0 => Z.pos ma
             | Z.pos _ => Z.shiftl (Z.pos ma) s
             | Z.neg _ => 0
             end).
  assert (Hm' : m' = Z.pos ma * 2 ^ s).
  { unfold m'. revert Hs. generalize s. intros t Ht.
    destruct t as [|p|p]; try lia.
    rewrite Z.shiftl_mul_pow2 by lia. reflexivity. }
  rewrite div_eucl_div.
  apply bra_atLeast; [split; reflexivity|].
  assert (Hps : 0 < 2 ^ s) by (apply Z.pow_pos_nonneg; lia).
  unfold atLeast. destruct (Z.leb_spec 0 e') as [He'|He'].
  - (* the quotient has an exponent that is not negative *)
    assert (Hq : 1 <= m' / Z.pos ms).
    { apply Z.div_le_lower_bound; [lia|]. rewrite Hm', Z.mul_1_r.
      assert (Hsd : d2 <= d1 - 1 + s) by (unfold s, e', emin in *; lia).
      assert (2 ^ d2 <= 2 ^ (d1 - 1 + s)) by (apply Z.pow_le_mono_r; lia).
      rewrite Z.pow_add_r in H by (unfold d1; lia). nia. }
    assert (0 < 2 ^ e') by (apply Z.pow_pos_nonneg; lia). nia.
  - (* the exponent of the quotient is negative *)
    rewrite Z.mul_1_l.
    apply Z.div_le_lower_bound; [lia|]. rewrite Hm'.
    assert (Hpu : 0 < 2 ^ (- e')) by (apply Z.pow_pos_nonneg; lia).
    destruct (Z.le_gt_cases es ea) as [C|C].
    + replace s with ((ea - es) + - e') by (unfold s; lia).
      rewrite Z.pow_add_r by lia.
      replace (ea - emin) with ((ea - es) + (es - emin)) in Hle by lia.
      rewrite Z.pow_add_r in Hle by lia.
      assert (0 < 2 ^ (es - emin)) by (apply Z.pow_pos_nonneg; lia).
      assert (0 < 2 ^ (ea - es)) by (apply Z.pow_pos_nonneg; lia).
      assert (Z.pos ms <= Z.pos ma * 2 ^ (ea - es)) by nia.
      nia.
    + replace (- e') with (s + (es - ea)) by (unfold s; lia).
      rewrite Z.pow_add_r by lia.
      replace (es - emin) with ((es - ea) + (ea - emin)) in Hle by lia.
      rewrite Z.pow_add_r in Hle by lia.
      assert (0 < 2 ^ (ea - emin)) by (apply Z.pow_pos_nonneg; lia).
      assert (0 < 2 ^ (es - ea)) by (apply Z.pow_pos_nonneg; lia).
      assert (Z.pos ms * 2 ^ (es - ea) <= Z.pos ma) by nia.
      nia.
Qed.

(** The product of a double that is at least 1 and an integer is at least
    that integer. *)

Lemma mul_atLeast (mt mb : positive) (et eb bins : Z) :
  0 < bins < 2 ^ 53 -> eb <= 0 -> Z.pos mb = bins * 2 ^ (- eb) ->
  atLeast 1 (Z.pos mt) et ->
  match SFmul prec emax (S754_finite false mt et) (S754_finite false mb eb) with
  | S754_finite false mp ep => atLeast bins (Z.pos mp) ep
  | S754_infinity false => True
  | _ => False
  end.
Proof.
  intros Hb Heb Hmb Ht. cbn [SFmul xorb].
  apply bra_atLeast; [exact Hb|].
  rewrite Pos2Z.inj_mul, Hmb.
  assert (Hpb : 0 < 2 ^ (- eb)) by (apply Z.pow_pos_nonneg; lia).
  unfold atLeast in *.
  destruct (Z.leb_spec 0 et) as [Het|Het].
  - assert (0 < 2 ^ et) by (apply Z.pow_pos_nonneg; lia).
    destruct (Z.leb_spec 0 (et + eb)) as [Hs|Hs].
    + replace et with ((et + eb) + - eb) in Ht by lia.
      rewrite Z.pow_add_r in Ht by lia.
      assert (0 < 2 ^ (et + eb)) by (apply Z.pow_pos_nonneg; lia).
      nia.
    + assert (2 ^ (- (et + eb)) <= 2 ^ (- eb)) by (apply Z.pow_le_mono_r; lia).
      assert (0 < 2 ^ (- (et + eb))) by (apply Z.pow_pos_nonneg; lia).
      assert (1 <= Z.pos mt) by lia.
      nia.
  - destruct (Z.leb_spec 0 (et + eb)) as [Hs|Hs]; [lia|].
    replace (- (et + eb)) with (- et + - eb) by lia.
    rewrite Z.pow_add_r by lia. rewrite Z.mul_1_l in Ht.
    assert (0 < 2 ^ (- et)) by (apply Z.pow_pos_nonneg; lia).
    nia.
Qed.

(** The position of a value that is at least [max] is at least the number of
    bins, or infinite. *)

Lemma position_beyond (v min max : spec_float) (mb : positive)
    (eb bins : Z) :
  isDouble v = true -> isDouble min = true -> isDouble max = true ->
  isFinite v = true -> isFinite min = true -> isFinite max = true ->
  SFleb max v = true ->
  (exists ms es, SFsub prec emax max min = S754_finite false ms es) ->
  0 < bins < 2 ^ 53 -> eb <= 0 -> Z.pos mb = bins * 2 ^ (- eb) ->
  match SFmul prec emax
          (SFdiv prec emax (SFsub prec emax v min) (SFsub prec emax max min))
          (S754_finite false mb eb) with
  | S754_finite false mp ep => atLeast bins (Z.pos mp) ep
  | S754_infinity false => True
  | _ => False
  end.
Proof.
  intros Vv Vmin Vmax Fv Fmin Fmax Hle (ms & es & Hspan) Hb Heb Hmb.
  destruct (sub_monotone v min max ms es Vv Vmin Vmax Fv Fmin Fmax Hle Hspan)
    as (Y & HY & Hr).
  pose proof (sub_spec max min Vmax Vmin Fmax Fmin
                (sub_positive max min ms es Vmax Vmin Fmax Fmin Hspan)) as Hs.
  rewrite Hspan in *. cbn [rounds_to] in Hs. destruct Hs as (Hes & _ & _).
  destruct (SFsub prec emax v min) as [| [|] | |[|] ma ea];
    cbn [rounds_to] in Hr; try (destruct Hr; fail).
  - (* the difference is infinite *) exact I.
  - destruct Hr as (Hea & _ & Ea).
    pose proof (div_atLeast_one ma ms ea es Hea Hes ltac:(lia)) as Ht.
    destruct (SFdiv prec emax _ _) as [| [|] | |[|] mt et];
      try (destruct Ht; fail).
    + exact I.
    + apply mul_atLeast; assumption.
Qed.

(** *** The seed of the generator is a double *)

Lemma roundDouble_roundNearest (x : Z) :
  0 <= x -> roundDouble x = roundNearest x.
Proof.
  intros Hx. unfold roundDouble, roundNearest, lostBits.
  rewrite Z.abs_eq by exact Hx.
  destruct (Z.leb_spec (Z.log2 x - 52) 0) as [Hk|Hk].
  - rewrite Z.max_l by lia. rewrite roundShift_exact. change (2 ^ 0) with 1. lia.
  - rewrite Z.max_r by lia.
    set (k := Z.log2 x - 52) in *.
    assert (Hpos : 0 < x).
    { destruct (Z.eq_dec x 0) as [E|E]; [|lia]. subst x. simpl in k. lia. }
    rewrite Z.sgn_pos, Z.mul_1_l by exact Hpos.
    f_equal. unfold roundShift. cbv zeta.
    assert (E : 2 ^ k = 2 * 2 ^ (k - 1)).
    { rewrite <- Z.pow_succ_r by lia. f_equal. lia. }
    rewrite E.
    set (h := 2 ^ (k - 1)). set (r := x mod (2 * h)).
    destruct (Z.odd (x / (2 * h)));
      destruct (Z.ltb_spec h r), (Z.eqb_spec r h),
               (Z.ltb_spec (2 * h) (2 * r)), (Z.eqb_spec (2 * r) (2 * h));
      simpl; try reflexivity; lia.
Qed.

Lemma roundNearest_scale (N j : Z) :
  0 < N -> 0 <= j -> roundNearest (N * 2 ^ j) = roundNearest N * 2 ^ j.
Proof.
  intros HN Hj. unfold roundNearest, lostBits.
  rewrite Z.log2_mul_pow2 by lia.
  destruct (Z.le_gt_cases 52 (Z.log2 N)) as [H|H].
  - rewrite !Z.max_r by lia.
    replace (j + Z.log2 N - 52) with ((Z.log2 N - 52) + j) by lia.
    rewrite roundShift_scale by lia. rewrite Z.pow_add_r by lia. lia.
  - rewrite (Z.max_l 0 (Z.log2 N - 52)) by lia.
    rewrite roundShift_exact. change (2 ^ 0) with 1. rewrite Z.mul_1_r.
    set (k := Z.max 0 (j + Z.log2 N - 52)).
    assert (Hk : 0 <= k <= j) by (unfold k; lia).
    assert (E : N * 2 ^ j = N * 2 ^ (j - k) * 2 ^ k).
    { rewrite <- Z.mul_assoc, <- Z.pow_add_r by lia. f_equal. f_equal. lia. }
    pose proof (roundShift_scale (N * 2 ^ (j - k)) 0 k ltac:(lia) ltac:(lia))
      as Hs.
    rewrite Z.add_0_l, <- E, roundShift_exact in Hs.
    rewrite Hs. symmetry. exact E.
Qed.

(** The double of a positive integer has the value of the integer rounded
    to 53 bits. *)
Lemma of_Z_spec (p : positive) :
  rounds_to (roundDouble (Z.pos p) * 2 ^ 1074) (of_Z (Z.pos p)).
Proof.
  rewrite roundDouble_roundNearest by lia.
  rewrite <- roundNearest_scale by lia.
  exact (binary_round_spec p 0 ltac:(unfold emin; lia)).
Qed.

(** The sum of two finite doubles is the rounding of the exact sum, when that
    is positive. *)
Lemma add_spec (x y : double) :
  isDouble x = true -> isDouble y = true ->
  isFinite x = true -> isFinite y = true ->
  0 < sval x + sval y ->
  rounds_to (roundNearest (sval x + sval y)) (SFadd prec emax x y).
Proof.
  unfold isDouble.
  destruct x as [sx|sx| |sx mx ex], y as [sy|sy| |sy my ey];
    intros Vx Vy Fx Fy Hpos; try discriminate; cbn [valid_binary] in Vx, Vy.
  - (* 0 + y *)
    pose proof (bounded_emin my ey Vy) as He.
    cbn [sval] in *. cbn [SFadd].
    assert (0 < 2 ^ (ey - emin)) by (apply Z.pow_pos_nonneg; lia).
    destruct sy; cbn [cond_Zopp] in *; [lia|].
    cbn [rounds_to]. rewrite Z.add_0_l.
    rewrite roundNearest_bounded by exact Vy. auto.
  - (* x + 0 *)
    pose proof (bounded_emin mx ex Vx) as He.
    cbn [sval] in *. cbn [SFadd].
    assert (0 < 2 ^ (ex - emin)) by (apply Z.pow_pos_nonneg; lia).
    destruct sx; cbn [cond_Zopp] in *; [lia|].
    cbn [rounds_to]. rewrite Z.add_0_r.
    rewrite roundNearest_bounded by exact Vx. auto.
  - pose proof (bounded_emin mx ex Vx) as Hex.
    pose proof (bounded_emin my ey Vy) as Hey.
    cbn [SFadd sval] in *.
    set (ez := Z.min ex ey) in *.
    assert (Hx := shl_align_value mx ex ez ltac:(lia)).
    assert (Hy := shl_align_value my ey ez ltac:(lia)).
    set (ax := fst (shl_align mx ex ez)) in *.
    set (ay := fst (shl_align my ey ez)) in *.
    assert (Hz : (cond_Zopp sx (Z.pos ax) + cond_Zopp sy (Z.pos ay))
                 * 2 ^ (ez - emin)
                 = cond_Zopp sx (Z.pos mx * 2 ^ (ex - emin))
                   + cond_Zopp sy (Z.pos my * 2 ^ (ey - emin))).
    { rewrite Hx, Hy.
      replace (ex - emin) with ((ex - ez) + (ez - emin)) by lia.
      replace (ey - emin) with ((ey - ez) + (ez - emin)) by lia.
      rewrite !Z.pow_add_r by lia.
      destruct sx, sy; cbn [cond_Zopp]; lia. }
    rewrite <- Hz in *.
    assert (Hp : 0 < 2 ^ (ez - emin)) by (apply Z.pow_pos_nonneg; lia).
    destruct (cond_Zopp sx (Z.pos ax) + cond_Zopp sy (Z.pos ay)) as [|p|p];
      try lia.
    cbn [binary_normalize]. apply binary_round_spec. lia.
Qed.

(** [seed += 0x6d2b79f5] on doubles: for a seed that is a positive integer
    and a finite double, the sum that the library computes has the value
    [roundDouble (seed + 0x6d2b79f5)]. *)
Lemma seed_sum (seed : positive) :
  roundDouble (Z.pos seed) = Z.pos seed -> Z.pos seed < 2 ^ 1024 ->
  rounds_to (roundDouble (Z.pos seed + 0x6d2b79f5) * 2 ^ 1074)
            (SFadd prec emax (of_Z (Z.pos seed)) (of_Z 0x6d2b79f5)).
Proof.
  intros Hrep Hfin.
  pose proof (of_Z_spec seed) as Hs. rewrite Hrep in Hs.
  pose proof (of_Z_spec 0x6d2b79f5) as Hc.
  change (roundDouble 1831565813) with 1831565813 in Hc.
  rewrite roundDouble_roundNearest by lia.
  rewrite <- roundNearest_scale by lia.
  destruct (of_Z (Z.pos seed)) as [| [|] | |[|] ms es] eqn:Es;
    cbn [rounds_to] in Hs; try (destruct Hs; fail).
  - exfalso. change (2 ^ 2098) with (2 ^ 1024 * 2 ^ 1074) in Hs.
    assert (0 < 2 ^ 1074) by reflexivity. nia.
  - destruct Hs as (He & Hb & Hv).
    destruct (of_Z 1831565813) as [| [|] | |[|] mc ec] eqn:Ec;
      cbn [rounds_to] in Hc; try (destruct Hc; fail).
    + exfalso. revert Hc. vm_compute. intros Hc. apply Hc. reflexivity.
    + destruct Hc as (He' & Hb' & Hv').
      pose proof (add_spec (S754_finite false ms es) (S754_finite false mc ec)
                    Hb Hb' eq_refl eq_refl) as Ha.
      cbn [sval cond_Zopp] in Ha. rewrite Hv, Hv' in Ha.
      replace (Z.pos seed * 2 ^ 1074 + 1831565813 * 2 ^ 1074)
        with ((Z.pos seed + 1831565813) * 2 ^ 1074) in Ha by lia.
      apply Ha. assert (0 < 2 ^ 1074) by reflexivity. nia.
Qed.

Lemma sub_finite_l (x y : double) :
  isPositiveFinite (sub x y) = true -> isFinite x = true.
Proof.
  destruct x as [s|s| |s m e]; try reflexivity;
    destruct y as [sy|sy| |sy my ey]; try discriminate.
  destruct s, sy; discriminate.
Qed.

(** A double that is at most another, minus that other, is negative or
    zero. *)
Lemma sub_nonPositive (x y : double) :
  isDouble x = true -> isDouble y = true ->
  isFinite x = true -> isFinite y = true ->
  leb x y = true -> nonPositive (sub x y) = true.
Proof.
  intros Vx Vy Fx Fy Hle.
  pose proof (leb_sval x y Vx Vy Fx Fy Hle) as Hs.
  unfold isDouble in *.
  destruct x as [sx|sx| |sx mx ex], y as [sy|sy| |sy my ey];
    try discriminate; cbn [valid_binary] in Vx, Vy.
  - destruct sx, sy; reflexivity.
  - pose proof (bounded_emin my ey Vy).
    assert (0 < 2 ^ (ey - emin)) by (apply Z.pow_pos_nonneg; lia).
    cbn [sval] in Hs. destruct sy; cbn [cond_Zopp] in Hs; [lia | reflexivity].
  - pose proof (bounded_emin mx ex Vx).
    assert (0 < 2 ^ (ex - emin)) by (apply Z.pow_pos_nonneg; lia).
    cbn [sval] in Hs. destruct sx; cbn [cond_Zopp] in Hs; [reflexivity | lia].
  - pose proof (bounded_emin mx ex Vx) as Hex.
    pose proof (bounded_emin my ey Vy) as Hey.
    unfold sub. cbn [SFsub]. cbn [sval] in Hs.
    set (ez := Z.min ex ey) in *.
    assert (Hx := shl_align_value mx ex ez ltac:(lia)).
    assert (Hy := shl_align_value my ey ez ltac:(lia)).
    set (ax := fst (shl_align mx ex ez)) in *.
    set (ay := fst (shl_align my ey ez)) in *.
    assert (Hz : (cond_Zopp sx (Z.pos ax) - cond_Zopp sy (Z.pos ay))
                 * 2 ^ (ez - emin)
                 = cond_Zopp sx (Z.pos mx * 2 ^ (ex - emin))
                   - cond_Zopp sy (Z.pos my * 2 ^ (ey - emin))).
    { rewrite Hx, Hy.
      replace (ex - emin) with ((ex - ez) + (ez - emin)) by lia.
      replace (ey - emin) with ((ey - ez) + (ez - emin)) by lia.
      rewrite !Z.pow_add_r by lia.
      destruct sx, sy; cbn [cond_Zopp]; lia. }
    assert (Hp : 0 < 2 ^ (ez - emin)) by (apply Z.pow_pos_nonneg; lia).
    destruct (cond_Zopp sx (Z.pos ax) - cond_Zopp sy (Z.pos ay)) as [|p|p];
      [reflexivity | nia |].
    cbn [binary_normalize]. unfold binary_round.
    destruct (shl_align p _ _) as [mz ez'].
    apply binary_round_aux_nonPositive. lia.
Qed.

Local Close Scope Z_scope.

(** *** The loop over the values *)

Lemma Double_incrementAt_length (counts : list nat) (idx : integral) :
  length (incrementAt counts idx) = length counts.
Proof.
  destruct idx as [|s|z]; simpl; try reflexivity.
  destruct (0 <=? z)%Z; [apply increment_length | reflexivity].
Qed.

Lemma Double_incrementAt_nth (counts : list nat) (idx : integral) (i : nat) :
  i < length counts ->
  nth i (incrementAt counts idx) O
  = nth i counts O + if indexIs i idx then 1 else 0.
Proof.
  intros Hi. destruct idx as [|s|z]; simpl; try lia.
  destruct (Z.leb_spec 0 z) as [Hz|Hz].
  - destruct (Nat.lt_ge_cases (Z.to_nat z) (length counts)) as [Hl|Hl].
    + rewrite nth_increment by exact Hl.
      destruct (Nat.eqb_spec i (Z.to_nat z)) as [E|E],
               (Z.eqb_spec z (Z.of_nat i)) as [E'|E'];
        try reflexivity; lia.
    + rewrite increment_beyond by exact Hl.
      destruct (Z.eqb_spec z (Z.of_nat i)); lia.
  - destruct (Z.eqb_spec z (Z.of_nat i)); lia.
Qed.

Lemma Double_incrementAt_sum (counts : list nat) (idx : integral) :
  list_sum (incrementAt counts idx)
  = list_sum counts
    + match idx with
      | Integer z =>
          if ((0 <=? z) && (z <? Z.of_nat (length counts)))%Z then 1 else 0
      | _ => 0
      end.
Proof.
  destruct idx as [|s|z]; simpl; try lia.
  destruct (Z.leb_spec 0 z) as [Hz|Hz]; simpl; [|lia].
  destruct (Z.ltb_spec z (Z.of_nat (length counts))) as [Hl|Hl].
  - rewrite increment_sum by lia. lia.
  - rewrite increment_beyond by lia. lia.
Qed.

Lemma Double_loop_length (f : double -> integral) (values : list double)
    (counts : list nat) :
  length (fold_left (fun counts v => incrementAt counts (f v)) values counts)
  = length counts.
Proof.
  revert counts. induction values as [|v vs IH]; intros counts; simpl.
  - reflexivity.
  - rewrite IH. apply Double_incrementAt_length.
Qed.

(** A count grows by one for every value whose index is its own. *)
Lemma Double_loop_nth (f : double -> integral) (values : list double)
    (counts : list nat) (i : nat) :
  i < length counts ->
  nth i (fold_left (fun counts v => incrementAt counts (f v)) values counts) O
  = nth i counts O + length (filter (fun v => indexIs i (f v)) values).
Proof.
  revert counts. induction values as [|v vs IH]; intros counts Hi; simpl.
  - lia.
  - rewrite IH by (rewrite Double_incrementAt_length; exact Hi).
    rewrite Double_incrementAt_nth by exact Hi.
    destruct (indexIs i (f v)); simpl; lia.
Qed.

(** The counts grow by one for every value whose index is a number. *)
Lemma Double_loop_sum (f : double -> integral) (values : list double)
    (counts : list nat) :
  (forall v, In v values ->
     f v = NotANumber \/
     exists z, f v = Integer z /\ (0 <= z < Z.of_nat (length counts))%Z) ->
  list_sum (fold_left (fun counts v => incrementAt counts (f v)) values counts)
  = list_sum counts
    + length (filter (fun v => negb (isNotANumber (f v))) values).
Proof.
  revert counts. induction values as [|v vs IH]; intros counts Hf; simpl.
  - lia.
  - rewrite IH.
    2:{ intros w Hw. rewrite Double_incrementAt_length. apply Hf.
        right. exact Hw. }
    rewrite Double_incrementAt_sum.
    destruct (Hf v (or_introl eq_refl)) as [E|(z & E & Hz)]; rewrite E; simpl.
    + lia.
    + destruct (Z.leb_spec 0 z), (Z.ltb_spec z (Z.of_nat (length counts)));
        simpl; lia.
Qed.

(** *** The index of a value *)

(** The clamped index is that of a bin, unless the position is not a
    number. *)
Lemma Double_binIndex_cases (bins : nat) (min span v : double) :
  1 <= bins ->
  let p := flooredPosition bins min span v in
  (p = NotANumber /\ binIndex bins min span v = NotANumber) \/
  (exists z, binIndex bins min span v = Integer z /\
             (0 <= z < Z.of_nat bins)%Z /\
             (below p = true -> z = 0%Z) /\
             (beyond bins p = true -> z = (Z.of_nat bins - 1)%Z)).
Proof.
  intros Hb p. unfold binIndex. fold p.
  destruct p as [|[|]|z]; simpl.
  - left. split; reflexivity.
  - right. exists (Z.min (Z.of_nat bins - 1) 0).
    split; [reflexivity|]. split; [lia|]. split; [lia | discriminate].
  - right. exists (Z.of_nat bins - 1)%Z.
    split; [reflexivity|]. split; [lia|]. split; [discriminate | reflexivity].
  - right. exists (Z.min (Z.of_nat bins - 1) (Z.max 0 z)).
    split; [reflexivity|]. split; [lia|]. split.
    + intros H. apply Z.ltb_lt in H. lia.
    + intros H. apply Z.leb_le in H. lia.
Qed.

Lemma Double_loop_index (values : list double) (bins : nat)
    (min span : double) :
  1 <= bins ->
  forall v, In v values ->
    binIndex bins min span v = NotANumber \/
    exists z, binIndex bins min span v = Integer z /\
              (0 <= z < Z.of_nat (length (repeat O bins)))%Z.
Proof.
  intros Hb v _. rewrite repeat_length.
  destruct (Double_binIndex_cases bins min span v Hb)
    as [[_ E]|(z & E & Hz & _)].
  - left. exact E.
  - right. exists z. split; assumption.
Qed.

Lemma indexIs_landsIn (bins i : nat) (min span v : double) :
  i < bins ->
  indexIs i (binIndex bins min span v)
  = landsIn bins i (flooredPosition bins min span v).
Proof.
  intros Hi. unfold binIndex.
  destruct (flooredPosition bins min span v) as [|[|]|z]; simpl.
  - reflexivity.
  - destruct (Z.eqb_spec (Z.min (Z.of_nat bins - 1) 0) (Z.of_nat i)),
             (Nat.eqb_spec i 0); try reflexivity; lia.
  - destruct (Z.eqb_spec (Z.of_nat bins - 1) (Z.of_nat i)),
             (Nat.eqb_spec i (bins - 1)); try reflexivity; lia.
  - destruct (Z.leb_spec z 0).
    + destruct (Z.eqb_spec (Z.min (Z.of_nat bins - 1) (Z.max 0 z))
                           (Z.of_nat i)),
               (Nat.eqb_spec i 0); try reflexivity; lia.
    + destruct (Z.leb_spec (Z.of_nat bins - 1) z).
      * destruct (Z.eqb_spec (Z.min (Z.of_nat bins - 1) (Z.max 0 z))
                             (Z.of_nat i)),
                 (Nat.eqb_spec i (bins - 1)); try reflexivity; lia.
      * destruct (Z.eqb_spec (Z.min (Z.of_nat bins - 1) (Z.max 0 z))
                             (Z.of_nat i)),
                 (Z.eqb_spec z (Z.of_nat i)); try reflexivity; lia.
Qed.

Lemma Math_floor_defined (x : double) :
  isNaN x = false -> isNotANumber (Math_floor x) = false.
Proof. destruct x; simpl; congruence. Qed.

(** With finite operands and a finite positive span no position is not a
    number. *)
Lemma flooredPosition_defined (bins : nat) (min span v : double) :
  1 <= bins -> (Z.of_nat bins < 2 ^ 53)%Z ->
  isFinite v = true -> isFinite min = true -> isPositiveFinite span = true ->
  isNotANumber (flooredPosition bins min span v) = false.
Proof.
  intros Hb Hb' Hv Hmin Hspan. unfold flooredPosition.
  destruct (of_nat_finite bins Hb Hb') as (mb & eb & ->).
  destruct span as [| | |[|] ms es]; try discriminate.
  apply Math_floor_defined, mul_notNaN, div_notNaN, sub_notNaN; assumption.
Qed.

Lemma positiveFinite_guard (span : double) :
  isPositiveFinite span = true -> leb span zero = false.
Proof. destruct span as [| | |[|] m e]; try discriminate. reflexivity. Qed.

(** What the loop of [computeHistogram] leaves in each bin and in all. *)
Lemma Double_histogram_nth (values : list double) (bins : nat)
    (min span : double) (i : nat) :
  i < bins ->
  nth i (fold_left
           (fun counts v => incrementAt counts (binIndex bins min span v))
           values (repeat O bins)) O
  = length (filter (fun v => landsIn bins i
                                (flooredPosition bins min span v)) values).
Proof.
  intros Hi.
  rewrite Double_loop_nth by (rewrite repeat_length; exact Hi).
  rewrite nth_repeat_zero. simpl. apply filter_length_ext.
  intros v. apply indexIs_landsIn. exact Hi.
Qed.

Lemma Double_histogram_sum (values : list double) (bins : nat)
    (min span : double) :
  1 <= bins ->
  list_sum (fold_left
              (fun counts v => incrementAt counts (binIndex bins min span v))
              values (repeat O bins))
  = length (filter (fun v => negb (isNotANumber
                                     (flooredPosition bins min span v)))
                   values).
Proof.
  intros Hb.
  rewrite Double_loop_sum by (apply Double_loop_index; exact Hb).
  rewrite list_sum_zeros. simpl. apply filter_length_ext. intros v.
  destruct (Double_binIndex_cases bins min span v Hb)
    as [[E1 E2]|(z & E & _)].
  - rewrite E1, E2. reflexivity.
  - rewrite E. simpl. unfold binIndex in E.
    destruct (flooredPosition bins min span v); try reflexivity.
    simpl in E. discriminate E.
Qed.

Lemma landsIn_below (bins : nat) (p : integral) :
  1 <= bins -> below p = true -> landsIn bins 0 p = true.
Proof.
  intros Hb. destruct p as [|[|]|z]; simpl; try discriminate; [reflexivity|].
  intros H. apply Z.ltb_lt in H.
  destruct (Z.leb_spec z 0); [reflexivity | lia].
Qed.

Lemma landsIn_beyond (bins : nat) (p : integral) :
  1 <= bins -> beyond bins p = true -> landsIn bins (bins - 1) p = true.
Proof.
  intros Hb. destruct p as [|[|]|z]; simpl; try discriminate.
  - intros _. apply Nat.eqb_refl.
  - intros H. apply Z.leb_le in H.
    destruct (Z.leb_spec z 0); [lia|].
    destruct (Z.leb_spec (Z.of_nat bins - 1) z); [apply Nat.eqb_refl | lia].
Qed.

(** A value that is at most [min] belongs to the first bin, and a value that
    is at least [max] to the last. *)
Lemma landsIn_leq (bins : nat) (min span v : double) :
  1 <= bins -> (Z.of_nat bins < 2 ^ 53)%Z ->
  isPositiveFinite span = true ->
  isDouble v = true -> isDouble min = true ->
  isFinite v = true -> isFinite min = true ->
  leb v min = true ->
  landsIn bins 0 (flooredPosition bins min span v) = true.
Proof.
  intros Hb Hb' Hspan Vv Vmin Fv Fmin Hle. unfold flooredPosition.
  destruct (of_nat_finite bins Hb Hb') as (mb & eb & ->).
  destruct span as [| | |[|] ms es]; try discriminate.
  apply Math_floor_nonPositive; [exact Hb|].
  apply mul_nonPositive, div_nonPositive, sub_nonPositive; assumption.
Qed.

Lemma landsIn_geq (bins : nat) (min max v : double) :
  1 <= bins -> (Z.of_nat bins < 2 ^ 53)%Z ->
  isPositiveFinite (sub max min) = true ->
  isDouble v = true -> isDouble min = true -> isDouble max = true ->
  isFinite v = true ->
  leb max v = true ->
  landsIn bins (bins - 1) (flooredPosition bins min (sub max min) v) = true.
Proof.
  intros Hb Hb' Hspan Vv Vmin Vmax Fv Hle.
  pose proof (sub_finite_r max min Hspan) as Fmin.
  pose proof (sub_finite_l max min Hspan) as Fmax.
  apply landsIn_beyond; [exact Hb|].
  unfold flooredPosition, of_nat.
  destruct (Z.of_nat bins) as [|p|p] eqn:E; try lia.
  destruct (of_Z_exact p Hb') as (mb & eb & -> & _ & Heb & Hmb & _).
  assert (Hex : exists ms es, SFsub prec emax max min = S754_finite false ms es).
  { unfold sub in Hspan.
    destruct (SFsub prec emax max min) as [| | |[|] ms es]; try discriminate.
    exists ms, es. reflexivity. }
  pose proof (position_beyond v min max mb eb (Z.pos p) Vv Vmin Vmax Fv Fmin
                Fmax Hle Hex ltac:(lia) Heb Hmb) as Hp.
  unfold mul, div, sub.
  destruct (SFmul prec emax _ _) as [| [|] | |[|] mp ep];
    try (destruct Hp; fail).
  - reflexivity.
  - unfold Math_floor, beyond, atLeast in *. rewrite E.
    destruct (Z.leb_spec 0 ep) as [Hep|Hep]; apply Z.leb_le.
    + exact Hp.
    + apply Z.div_le_lower_bound;
        [apply Z.pow_pos_nonneg; lia | lia].
Qed.

End DoubleFacts.

(* ------------------------------------------------------------------ *)
(** ** The histogram claim *)

(** C6 (as stated, refuted).  The values [[1e308]], one bin, [min = -1e308]
    and [max = 1e308] are finite and [min < max].  The span [max - min] is
    infinite and so is [v - min]; their quotient is not a number, no count is
    incremented and the counts add up to 0, not to 1. *)
Lemma computeHistogram_counts_all_counterexample :
  let values := [Double.d_1e308] in
  let min := Double.d_minus_1e308 in
  let max := Double.d_1e308 in
  forallb Double.isFinite values = true /\
  Double.isFinite min = true /\ Double.isFinite max = true /\
  Double.ltb min max = true /\
  Double.sub max min = S754_infinity false /\
  Double.flooredPosition 1 min (Double.sub max min) Double.d_1e308
  = Double.NotANumber /\
  list_sum (Double.counts (Double.computeHistogram values 1 min max)) = 0%nat /\
  length values = 1%nat.
Proof. vm_compute. repeat split. Qed.

(** C6 (amended).  For finite values, at least one bin and a span
    [max - min] that is positive and finite, there is one count for each bin
    and the counts add up to the number of values: no value is dropped.  The
    values that are at most [min] are counted in the first bin, and the
    values that are at least [max] in the last. *)
Theorem computeHistogram_counts_all (values : list Double.double) (bins : nat)
    (min max : Double.double) :
  Forall (fun v => Double.isDouble v = true /\ Double.isFinite v = true)
         values ->
  Double.isDouble min = true -> Double.isDouble max = true ->
  (1 <= bins)%nat -> (Z.of_nat bins < 2 ^ 32)%Z ->
  Double.isPositiveFinite (Double.sub max min) = true ->
  let counts := Double.counts (Double.computeHistogram values bins min max) in
  length counts = bins /\
  list_sum counts = length values /\
  (length (filter (fun v => Double.leb v min) values) <= nth 0 counts 0)%nat /\
  (length (filter (fun v => Double.leb max v) values)
   <= nth (bins - 1) counts 0)%nat.
Proof.
  intros Hvalues Vmin Vmax Hb Hb' Hspan counts0.
  subst counts0. unfold Double.computeHistogram.
  set (span := Double.sub max min) in *.
  rewrite (positiveFinite_guard span Hspan). cbn [Double.counts].
  pose proof (sub_finite_r max min Hspan) as Fmin.
  rewrite Forall_forall in Hvalues.
  split; [|split; [|split]].
  - rewrite Double_loop_length. apply repeat_length.
  - rewrite Double_histogram_sum by exact Hb.
    apply filter_length_all. intros v Hv.
    rewrite flooredPosition_defined; try assumption; [reflexivity | lia |].
    apply Hvalues. exact Hv.
  - rewrite Double_histogram_nth by lia.
    apply filter_length_le. intros v Hv Hle.
    destruct (Hvalues v Hv) as [Vv Fv].
    apply landsIn_leq; try assumption. lia.
  - rewrite Double_histogram_nth by lia.
    apply filter_length_le. intros v Hv Hle.
    destruct (Hvalues v Hv) as [Vv Fv].
    apply landsIn_geq; try assumption. lia.
Qed.

Lemma computeHistogram_counts_all_witness :
  let values := [Double.of_Z (-3); Double.of_Z 0; Double.of_Z 15;
                 Double.of_Z 22; Double.of_Z 100] in
  let min := Double.of_Z 0 in
  let max := Double.of_Z 22 in
  let counts := Double.counts (Double.computeHistogram values 22 min max) in
  length counts = 22%nat /\
  list_sum counts = length values /\
  (length (filter (fun v => Double.leb v min) values) <= nth 0 counts 0)%nat /\
  (length (filter (fun v => Double.leb max v) values)
   <= nth (22 - 1) counts 0)%nat.
Proof.
  apply (computeHistogram_counts_all
           [Double.of_Z (-3); Double.of_Z 0; Double.of_Z 15;
            Double.of_Z 22; Double.of_Z 100] 22 (Double.of_Z 0)
           (Double.of_Z 22)).
  - repeat constructor.
  - reflexivity.
  - reflexivity.
  - lia.
  - reflexivity.
  - reflexivity.
Defined.

(* ------------------------------------------------------------------ *)
(** ** Session statistics claims *)

(** From two elements on the standard deviation is a number. *)
Lemma sd_defined `{MathLib} (arr : list number) :
  (2 <= length arr)%nat -> exists s, sd arr = Some s.
Proof.
  intros Hlen. unfold sd.
  destruct (length arr <? 2)%nat eqn:E; [apply Nat.ltb_lt in E; lia|].
  destruct arr as [|a t]; [simpl in Hlen; lia|].
  simpl. eexists. reflexivity.
Qed.

(** C8.  The sample standard deviation of an array with fewer than two
    elements is absent, whatever the runtime's square root is: it is not
    zero, and in particular the one of a single-element array is absent. *)
Theorem sd_absent_below_two `{MathLib} (arr : list number) :
  (length arr < 2)%nat ->
  sd arr = None /\ sd arr <> Some 0 /\ forall x, sd [x] = None.
Proof.
  intros Hlen. unfold sd.
  apply Nat.ltb_lt in Hlen. rewrite Hlen.
  split; [reflexivity|]. split; [discriminate|]. intros x. reflexivity.
Qed.

Lemma sd_absent_below_two_witness :
  @sd exampleMath [5] = None /\ @sd exampleMath [5] <> Some 0 /\
  forall x, @sd exampleMath [x] = None.
Proof.
  apply (@sd_absent_below_two exampleMath [5]). simpl. lia.
Defined.

(** C9.  A nose average outside the bands [1,3], (3,5] and above 5 is
    classified Intermediate: with score 0.6 ("Near neutral") when its
    absolute value is at most 1, and with score 0.65 otherwise, which is
    exactly when it is below -1. *)
Theorem bandForMetric_nose_fallthrough (v : number) :
  ~ (1 <= v /\ v <= 3) -> ~ (3 < v /\ v <= 5) -> ~ 5 < v ->
  (Qabs v <= 1 ->
     bandForMetric Metric.nose (Some v) =
     BandResult.mk Intermediate "Near neutral" 0.6) /\
  (~ Qabs v <= 1 ->
     bandForMetric Metric.nose (Some v) =
     BandResult.mk Intermediate "Slightly nose-down/neutral" 0.65) /\
  (~ Qabs v <= 1 <-> v < -1).
Proof.
  intros Hadv Hint Hbeg.
  assert (Hv : v < 1).
  { destruct (Qlt_le_dec v 1) as [H|H]; [exact H|]. exfalso.
    destruct (Qlt_le_dec 3 v) as [H3|H3].
    - destruct (Qlt_le_dec 5 v) as [H5|H5]; [exact (Hbeg H5)|].
      apply Hint. split; assumption.
    - apply Hadv. split; assumption. }
  assert (E1 : (v >=? 1) = false) by (apply num_le_false_iff; exact Hv).
  assert (E3 : (v >? 3) = false) by (apply num_lt_false_iff; lra).
  assert (E5 : (v >? 5) = false) by (apply num_lt_false_iff; lra).
  unfold bandForMetric. rewrite E1, E3, E5. simpl. unfold Math_abs.
  repeat split.
  - intros Ha. apply num_le_iff in Ha. rewrite Ha. reflexivity.
  - intros Ha. destruct (Qabs v <=? 1) eqn:E; [|reflexivity].
    apply num_le_iff in E. contradiction.
  - intros Ha. destruct (Qlt_le_dec v (-1)) as [H|H]; [exact H|].
    exfalso. apply Ha. apply Qabs_Qle_condition. split; lra.
  - intros Hlt Ha. apply Qabs_Qle_condition in Ha. lra.
Qed.

Lemma bandForMetric_nose_fallthrough_witness :
  bandForMetric Metric.nose (Some 0.5) =
    BandResult.mk Intermediate "Near neutral" 0.6 /\
  bandForMetric Metric.nose (Some (-2)) =
    BandResult.mk Intermediate "Slightly nose-down/neutral" 0.65.
Proof.
  split.
  - apply (bandForMetric_nose_fallthrough 0.5).
    + intros [H _]. revert H. closed_Q.
    + intros [H _]. revert H. closed_Q.
    + closed_Q.
    + closed_Q.
  - apply (bandForMetric_nose_fallthrough (-2)).
    + intros [H _]. revert H. closed_Q.
    + intros [H _]. revert H. closed_Q.
    + closed_Q.
    + closed_Q.
Defined.

Lemma cleanThrows_skips (pre post : list Throw.t) (t : Throw.t) :
  Throw.speed t = None -> Throw.spin t = None ->
  cleanThrows (pre ++ t :: post) = cleanThrows (pre ++ post).
Proof.
  intros Hsp Hsn. unfold cleanThrows. rewrite !filter_app. simpl.
  rewrite Hsp, Hsn. reflexivity.
Qed.

(** C10.  A throw with neither speed nor spin, whatever nose or wobble it
    carries and wherever it stands in the session, is not a clean throw and
    changes no session statistic: the count and every mean, standard
    deviation and best value are those of the session without it. *)
Theorem stats_ignore_throw_without_speed_and_spin `{MathLib}
    (pre post : list Throw.t) (t : Throw.t) :
  Throw.speed t = None -> Throw.spin t = None ->
  ~ In t (cleanThrows (pre ++ t :: post)) /\
  stats (pre ++ t :: post) = stats (pre ++ post).
Proof.
  intros Hsp Hsn. split.
  - unfold cleanThrows. rewrite filter_In. intros [_ Hc].
    rewrite Hsp, Hsn in Hc. discriminate.
  - unfold stats. rewrite cleanThrows_skips by assumption. reflexivity.
Qed.

Lemma stats_ignore_throw_without_speed_and_spin_witness :
  let t1 := Throw.mk 1 None (Some 50) (Some 900) (Some 2) (Some 3)
                     None None None None in
  let t2 := Throw.mk 2 None None None (Some 10) (Some 9) None None None None in
  ~ In t2 (cleanThrows ([t1] ++ t2 :: [])) /\
  @stats exampleMath ([t1] ++ t2 :: []) = @stats exampleMath ([t1] ++ []).
Proof.
  intros t1 t2.
  apply (@stats_ignore_throw_without_speed_and_spin exampleMath [t1] [] t2);
    reflexivity.
Defined.

(* ------------------------------------------------------------------ *)
(** ** The generator never draws two zeros in a row *)

Local Open Scope Z_scope.

Lemma wrap32_range (x : Z) : 0 <= wrap32 x < 2 ^ 32.
Proof. unfold wrap32. apply Z.mod_pos_bound. reflexivity. Qed.

Lemma lxor_range (a b : Z) :
  0 <= a < 2 ^ 32 -> 0 <= b < 2 ^ 32 -> 0 <= Z.lxor a b < 2 ^ 32.
Proof.
  intros Ha Hb.
  assert (Hnn : 0 <= Z.lxor a b) by (apply Z.lxor_nonneg; lia).
  split; [exact Hnn|].
  destruct (Z.eq_dec (Z.lxor a b) 0) as [E|E]; [rewrite E; reflexivity|].
  apply Z.log2_lt_pow2; [lia|].
  pose proof (Z.log2_lxor a b (proj1 Ha) (proj1 Hb)) as Hl.
  assert (Z.log2 a < 32).
  { destruct (Z.eq_dec a 0) as [->|]; [reflexivity|].
    apply Z.log2_lt_pow2; lia. }
  assert (Z.log2 b < 32).
  { destruct (Z.eq_dec b 0) as [->|]; [reflexivity|].
    apply Z.log2_lt_pow2; lia. }
  lia.
Qed.

Lemma shiftr_range (a k : Z) :
  0 <= k -> 0 <= a < 2 ^ 32 -> 0 <= Z.shiftr a k < 2 ^ 32.
Proof.
  intros Hk Ha. rewrite Z.shiftr_div_pow2 by exact Hk.
  assert (0 < 2 ^ k) by (apply Z.pow_pos_nonneg; lia).
  split.
  - apply Z.div_pos; lia.
  - apply Z.le_lt_trans with a; [|lia].
    apply Z.div_le_upper_bound; nia.
Qed.

(** An xorshift step sends only 0 to 0. *)
Lemma xorshift_zero (t k : Z) :
  0 < k -> 0 <= t -> Z.lxor t (Z.shiftr t k) = 0 -> t = 0.
Proof.
  intros Hk Ht H. apply Z.lxor_eq in H.
  rewrite Z.shiftr_div_pow2 in H by lia.
  destruct (Z.eq_dec t 0) as [E|E]; [exact E|].
  assert (2 <= 2 ^ k).
  { change 2 with (2 ^ 1) at 1. apply Z.pow_le_mono_r; lia. }
  assert (t / 2 ^ k < t) by (apply Z.div_lt; lia).
  lia.
Qed.

(** A 32-bit product with an odd factor is 0 only if the other factor is. *)
Lemma imul_odd_zero (a b : Z) :
  Z.odd b = true -> 0 <= a < 2 ^ 32 -> Math_imul a b = 0 -> a = 0.
Proof.
  intros Hodd Ha H. unfold Math_imul, wrap32 in H.
  apply Z.mod_divide in H; [|discriminate].
  rewrite Z.mul_comm in H.
  apply Z.gauss in H.
  - destruct H as [q Hq]. lia.
  - apply Z.Symmetric_coprime, Z.coprime_pow_r; [lia|].
    apply Z.odd_spec in Hodd. destruct Hodd as [m Hm].
    apply Z.coprime_Bezout. exists 1, (- m). lia.
Qed.

Lemma lor_odd (t c : Z) : Z.odd c = true -> Z.odd (Z.lor t c) = true.
Proof.
  intros Hc. rewrite <- Z.bit0_odd, Z.lor_spec, !Z.bit0_odd, Hc.
  apply orb_true_r.
Qed.

(** Below 2^53 a sum is its own double. *)
Lemma roundDouble_exact (x : Z) : Z.abs x < 2 ^ 53 -> roundDouble x = x.
Proof.
  intros Hx. unfold roundDouble.
  assert (Hk : Z.log2 (Z.abs x) - 52 <= 0).
  { destruct (Z.eq_dec (Z.abs x) 0) as [->|Hnz]; [simpl; lia|].
    assert (Z.log2 (Z.abs x) < 53) by (apply Z.log2_lt_pow2; lia). lia. }
  destruct (Z.leb_spec (Z.log2 (Z.abs x) - 52) 0); [reflexivity | lia].
Qed.

Lemma advance_exact (s : Z) :
  0 <= s -> s + 0x6d2b79f5 < 2 ^ 53 -> advance s = s + 0x6d2b79f5.
Proof.
  intros Hs Hb. unfold advance, mulberry32. cbv zeta. cbn [snd].
  apply roundDouble_exact. lia.
Qed.

(** The generator draws 0 exactly when the seed its call leaves is 0 modulo
    2^32. *)
Lemma mulberry32_zero (s : Z) :
  (draw s == 0)%Q -> wrap32 (advance s) = 0.
Proof.
  unfold draw, advance, mulberry32. cbv zeta. cbn [fst snd].
  set (t0 := wrap32 (roundDouble (s + 0x6d2b79f5))).
  set (t1 := Math_imul (Z.lxor t0 (Z.shiftr t0 15)) (Z.lor t0 1)).
  set (m := Math_imul (Z.lxor t1 (Z.shiftr t1 7)) (Z.lor t1 61)).
  set (t2 := Z.lxor t1 (wrap32 (t1 + m))).
  intros H.
  assert (R0 : 0 <= t0 < 2 ^ 32) by apply wrap32_range.
  assert (R1 : 0 <= t1 < 2 ^ 32) by apply wrap32_range.
  assert (Rm : 0 <= m < 2 ^ 32) by apply wrap32_range.
  assert (R2 : 0 <= t2 < 2 ^ 32)
    by (apply lxor_range; [exact R1 | apply wrap32_range]).
  (* the output is 0 only if the last xorshift gives 0 *)
  assert (H2 : t2 = 0).
  { apply (xorshift_zero t2 14); [lia | lia |].
    unfold Qdiv in H. apply Qmult_integral in H. destruct H as [H|H].
    - change 0%Q with (inject_Z 0) in H.
      exact (proj1 (inject_Z_injective _ _) H).
    - discriminate H. }
  (* the second round *)
  assert (Hm : m = 0).
  { unfold t2 in H2. apply Z.lxor_eq in H2. unfold wrap32 in H2.
    pose proof (Z.div_mod (t1 + m) (2 ^ 32)) as Hdm. lia. }
  assert (H1 : t1 = 0).
  { apply (xorshift_zero t1 7); [lia | lia |].
    apply (imul_odd_zero _ (Z.lor t1 61)).
    - apply lor_odd. reflexivity.
    - apply lxor_range; [exact R1 | apply shiftr_range; [lia | exact R1]].
    - exact Hm. }
  (* the first round *)
  apply (xorshift_zero t0 15); [lia | lia |].
  apply (imul_odd_zero _ (Z.lor t0 1)).
  - apply lor_odd. reflexivity.
  - apply lxor_range; [exact R0 | apply shiftr_range; [lia | exact R0]].
  - exact H1.
Qed.

Lemma mulberry32_zero_conv (s : Z) :
  wrap32 (advance s) = 0 -> (draw s == 0)%Q.
Proof.
  unfold draw, advance, mulberry32. cbv zeta. cbn [fst snd].
  intros ->. reflexivity.
Qed.

(** While the seed is exact, two calls in a row do not both draw 0: the seed
    advances by a constant that is not a multiple of 2^32. *)
Lemma mulberry32_zero_once (s : Z) :
  0 <= s -> s + 2 * 0x6d2b79f5 < 2 ^ 53 ->
  (draw s == 0)%Q -> (draw (advance s) == 0)%Q -> False.
Proof.
  intros Hs Hb Z1 Z2.
  apply mulberry32_zero in Z1, Z2.
  rewrite (advance_exact (advance s)) in Z2
    by (rewrite advance_exact by lia; lia).
  rewrite advance_exact in Z1, Z2 by lia.
  unfold wrap32 in Z1, Z2.
  pose proof (Z.div_mod (s + 0x6d2b79f5) (2 ^ 32)) as D1.
  pose proof (Z.div_mod (s + 0x6d2b79f5 + 0x6d2b79f5) (2 ^ 32)) as D2.
  lia.
Qed.

(** A seed from 2^85 on is not moved by a call: the constant is less than
    half the gap between two doubles there.  From 2^85 every call draws 0. *)
Lemma mulberry32_absorbed :
  mulberry32 (2 ^ 85) = ((0 # 4294967296)%Q, 2 ^ 85).
Proof. vm_compute. reflexivity. Qed.

(** At 2^53 the sum is rounded, and the draw is that of the rounded seed. *)
Lemma mulberry32_rounded :
  mulberry32 (2 ^ 53) = ((3850105811 # 4294967296)%Q, 2 ^ 53 + 1831565812).
Proof. vm_compute. reflexivity. Qed.

Local Close Scope Z_scope.

(** From such a seed the redraw loop does not end, whatever its fuel. *)
Lemma drawNonZero_absorbed (fuel : nat) : drawNonZero fuel (2 ^ 85)%Z = None.
Proof.
  induction fuel as [|fuel IH]; [reflexivity|].
  cbn [drawNonZero]. unfold bind, rng. rewrite mulberry32_absorbed.
  exact IH.
Qed.

Lemma generateSessions_absorbed `{MathLib} (fuel n : nat) (pop : Population.t) :
  generateSessions fuel (S n) pop (2 ^ 85)%Z = None.
Proof.
  cbn [generateSessions]. unfold bind at 1.
  unfold generateSession, bind at 1. unfold randNormal, bind at 1.
  rewrite drawNonZero_absorbed. reflexivity.
Qed.

(* ------------------------------------------------------------------ *)
(** ** The generator returns *)

Lemma returnsWithin_ret {A : Type} (a : A) : returnsWithin 0 (ret a).
Proof. intros s Hs Hb. exists a, s. split; [reflexivity | lia]. Qed.

Lemma returnsWithin_bind {A B : Type} (d1 d2 : Z) (m : Rand A)
    (k : A -> Rand B) :
  (0 <= d1)%Z -> (0 <= d2)%Z ->
  returnsWithin d1 m -> (forall a, returnsWithin d2 (k a)) ->
  returnsWithin (d1 + d2) (bind m k).
Proof.
  intros H1 H2 Hm Hk s Hs Hb. unfold bind.
  destruct (Hm s) as (a & s1 & -> & L1 & U1); [lia | lia |].
  destruct (Hk a s1) as (b & s2 & E2 & L2 & U2); [lia | lia |].
  exists b, s2. split; [exact E2 | lia].
Qed.

(** Two draws are enough for a draw that is not 0. *)
Lemma drawNonZero_returns (fuel : nat) :
  (2 <= fuel)%nat -> returnsWithin 2 (drawNonZero fuel).
Proof.
  intros Hf s Hs Hb. destruct fuel as [|[|fuel]]; try lia.
  pose proof (advance_exact s Hs ltac:(lia)) as A1.
  pose proof (advance_exact (advance s) ltac:(lia) ltac:(lia)) as A2.
  pose proof (mulberry32_zero_once s Hs Hb) as Hz.
  unfold draw, advance in *.
  cbn [drawNonZero]. unfold bind, rng.
  destruct (mulberry32 s) as [u s1]. cbn [fst snd] in *.
  destruct (num_eq u 0) eqn:Z1.
  - destruct (mulberry32 s1) as [v s2]. cbn [fst snd] in *.
    destruct (num_eq v 0) eqn:Z2.
    + exfalso. apply Qeq_bool_iff in Z1, Z2. exact (Hz Z1 Z2).
    + exists v, s2. split; [reflexivity | lia].
  - exists u, s1. split; [reflexivity | lia].
Qed.

Lemma randNormal_returns `{MathLib} (fuel : nat) :
  (2 <= fuel)%nat -> returnsWithin 4 (randNormal fuel).
Proof.
  intros Hf. unfold randNormal.
  apply (returnsWithin_bind 2 2); [lia | lia | |].
  { apply drawNonZero_returns; exact Hf. }
  intros u.
  apply (returnsWithin_bind 2 0); [lia | lia | |].
  { apply drawNonZero_returns; exact Hf. }
  intros v. apply returnsWithin_ret.
Qed.

Lemma generateSession_returns `{MathLib} (fuel : nat) (pop : Population.t) :
  (2 <= fuel)%nat -> returnsWithin 20 (generateSession fuel pop).
Proof.
  intros Hf. unfold generateSession.
  apply (returnsWithin_bind 4 16);
    [lia | lia | apply randNormal_returns; exact Hf |]; intros ?.
  apply (returnsWithin_bind 4 12);
    [lia | lia | apply randNormal_returns; exact Hf |]; intros ?.
  apply (returnsWithin_bind 4 8);
    [lia | lia | apply randNormal_returns; exact Hf |]; intros ?.
  apply (returnsWithin_bind 4 4);
    [lia | lia | apply randNormal_returns; exact Hf |]; intros ?.
  apply (returnsWithin_bind 4 0);
    [lia | lia | apply randNormal_returns; exact Hf |]; intros ?.
  apply returnsWithin_ret.
Qed.

(** A session makes at most twenty draws: the loop returns from every seed
    that twenty draws a session keep exact. *)
Lemma generateSessions_returns `{MathLib} (fuel nSessions : nat)
    (pop : Population.t) :
  (2 <= fuel)%nat ->
  returnsWithin (20 * Z.of_nat nSessions)
                (generateSessions fuel nSessions pop).
Proof.
  intros Hf. revert pop.
  induction nSessions as [|n IH]; intros pop.
  - apply returnsWithin_ret.
  - replace (20 * Z.of_nat (S n))%Z with (20 + 20 * Z.of_nat n)%Z by lia.
    cbn [generateSessions].
    apply returnsWithin_bind;
      [lia | lia | apply generateSession_returns; exact Hf |].
    intros pop'. apply IH.
Qed.

(** The population of three sessions from the seed 1337. *)
Lemma example_population :
  exists pop s',
    generateSessions (H := exampleMath) 2 3 Population.empty 1337%Z
    = Some (pop, s').
Proof.
  destruct (generateSessions_returns (H := exampleMath) 2 3 Population.empty
              (le_n 2) 1337%Z) as (pop & s' & E & _); [lia | simpl; lia |].
  exists pop, s'. exact E.
Qed.

(** The call of the page, [generateSyntheticGlobalStats(6000, 1337)], is in
    that range: its seed stays below 2^48. *)
Lemma generateSessions_page `{MathLib} (fuel : nat) :
  (2 <= fuel)%nat ->
  exists pop s',
    generateSessions fuel (Z.to_nat 6000) Population.empty 1337%Z
    = Some (pop, s').
Proof.
  intros Hf.
  destruct (generateSessions_returns fuel (Z.to_nat 6000) Population.empty Hf
              1337%Z)
    as (pop & s' & E & _); [lia | vm_compute; reflexivity |].
  exists pop, s'. exact E.
Qed.

Lemma Array_sort_sortedCopyOf (arr : list number) :
  sortedCopyOf arr (Array_sort ascending arr).
Proof.
  repeat split.
  - apply Array_sort_length.
  - apply Array_sort_perm.
  - apply Array_sort_ascending.
Qed.

(** C7.  For every seed and sample count, and every runtime, each of the
    four sorted arrays of a population that [generateSyntheticGlobalStats]
    produces has the same length and the same multiset of values as its
    unsorted counterpart and is non-decreasing.  A population is produced
    from every seed that the draws of the sessions, at most twenty each, keep
    below 2^53, where the sums of the seed are exact, the redraw loops being
    given at least two draws. *)
Theorem generateSyntheticGlobalStats_sorted_copies `{MathLib}
    (fuel nSessions : nat) (seed : Z) :
  (forall g,
     generateSyntheticGlobalStats fuel nSessions seed = Some g ->
     sortedCopyOf (GlobalStats.speed g) (GlobalStats.speedSorted g) /\
     sortedCopyOf (GlobalStats.spin g) (GlobalStats.spinSorted g) /\
     sortedCopyOf (GlobalStats.nose g) (GlobalStats.noseSorted g) /\
     sortedCopyOf (GlobalStats.wobble g) (GlobalStats.wobbleSorted g)) /\
  ((2 <= fuel)%nat ->
   (0 <= seed)%Z ->
   (seed + 20 * Z.of_nat nSessions * 0x6d2b79f5 < 2 ^ 53)%Z ->
   exists g, generateSyntheticGlobalStats fuel nSessions seed = Some g).
Proof.
  unfold generateSyntheticGlobalStats. split.
  - intros g.
    destruct (generateSessions fuel nSessions Population.empty seed)
      as [[pop s']|]; [|discriminate].
    intros Hg. injection Hg as <-. simpl.
    split; [|split; [|split]]; apply Array_sort_sortedCopyOf.
  - intros Hf Hs Hb.
    destruct (generateSessions_returns fuel nSessions Population.empty Hf seed
                Hs Hb) as (pop & s' & -> & _).
    eexists. reflexivity.
Qed.

Lemma generateSyntheticGlobalStats_sorted_copies_witness :
  exists g,
    @generateSyntheticGlobalStats exampleMath 2 3 1337 = Some g /\
    sortedCopyOf (GlobalStats.speed g) (GlobalStats.speedSorted g) /\
    sortedCopyOf (GlobalStats.spin g) (GlobalStats.spinSorted g) /\
    sortedCopyOf (GlobalStats.nose g) (GlobalStats.noseSorted g) /\
    sortedCopyOf (GlobalStats.wobble g) (GlobalStats.wobbleSorted g).
Proof.
  destruct (@generateSyntheticGlobalStats_sorted_copies exampleMath 2 3 1337)
    as [Hsorted Hreturns].
  destruct Hreturns as [g Hg]; [lia | lia | simpl; lia |].
  exists g. split; [exact Hg|]. apply Hsorted. exact Hg.
Defined.

(* ================================================================== *)
(** * Further properties of the code *)

(* ------------------------------------------------------------------ *)
(** ** Clamping *)

Lemma Math_max_cases (a b : number) :
  (a <= b /\ Math_max a b = b) \/ (b < a /\ Math_max a b = a).
Proof.
  unfold Math_max. destruct (a <=? b) eqn:E.
  - left. split; [apply num_le_iff; exact E | reflexivity].
  - right. split; [apply num_le_false_iff; exact E | reflexivity].
Qed.

Lemma Math_min_cases (a b : number) :
  (a <= b /\ Math_min a b = a) \/ (b < a /\ Math_min a b = b).
Proof.
  unfold Math_min. destruct (a <=? b) eqn:E.
  - left. split; [apply num_le_iff; exact E | reflexivity].
  - right. split; [apply num_le_false_iff; exact E | reflexivity].
Qed.

(** Case analysis on every [Math.max] and [Math.min] of the goal. *)
Ltac minmax_cases :=
  repeat match goal with
         | |- context [Math_max ?a ?b] =>
             let H := fresh "Hmax" in
             destruct (Math_max_cases a b) as [[? H]|[? H]]; rewrite H in *; clear H
         | |- context [Math_min ?a ?b] =>
             let H := fresh "Hmin" in
             destruct (Math_min_cases a b) as [[? H]|[? H]]; rewrite H in *; clear H
         | _ : context [Math_max ?a ?b] |- _ =>
             let H := fresh "Hmax" in
             destruct (Math_max_cases a b) as [[? H]|[? H]]; rewrite H in *; clear H
         | _ : context [Math_min ?a ?b] |- _ =>
             let H := fresh "Hmin" in
             destruct (Math_min_cases a b) as [[? H]|[? H]]; rewrite H in *; clear H
         end.

Lemma clamp_bounds (x lo hi : number) :
  lo <= hi -> lo <= clamp x lo hi <= hi.
Proof. intros Hlh. unfold clamp. minmax_cases; lra. Qed.

(** X1.  With [lo <= hi], [clamp(x, lo, hi)] lies in [[lo, hi]]; it is [x]
    itself when [x] is in the interval, [lo] when [x] is below it and [hi]
    when [x] is above it. *)
Theorem clamp_within (x lo hi : number) :
  lo <= hi ->
  lo <= clamp x lo hi <= hi /\
  (lo <= x <= hi -> clamp x lo hi == x) /\
  (x <= lo -> clamp x lo hi == lo) /\
  (hi <= x -> clamp x lo hi == hi).
Proof.
  intros Hlh. unfold clamp.
  repeat split; intros; minmax_cases; lra.
Qed.

Lemma clamp_within_witness :
  25 <= clamp 80 25 68 <= 68 /\
  (25 <= 80 <= 68 -> clamp 80 25 68 == 80) /\
  (80 <= 25 -> clamp 80 25 68 == 25) /\
  (68 <= 80 -> clamp 80 25 68 == 68).
Proof. apply (clamp_within 80 25 68). closed_Q. Defined.

(* ------------------------------------------------------------------ *)
(** ** The generator draws from the unit interval *)

Lemma mulberry32_range (s : Z) : 0 <= draw s < 1.
Proof.
  unfold draw, mulberry32. cbv zeta. cbn [fst].
  set (t0 := wrap32 (roundDouble (s + 0x6d2b79f5))).
  set (t1 := Math_imul (Z.lxor t0 (Z.shiftr t0 15)) (Z.lor t0 1)).
  set (m := Math_imul (Z.lxor t1 (Z.shiftr t1 7)) (Z.lor t1 61)).
  set (t2 := Z.lxor t1 (wrap32 (t1 + m))).
  assert (R1 : (0 <= t1 < 2 ^ 32)%Z) by apply wrap32_range.
  assert (R2 : (0 <= t2 < 2 ^ 32)%Z)
    by (apply lxor_range; [exact R1 | apply wrap32_range]).
  assert (R : (0 <= Z.lxor t2 (Z.shiftr t2 14) < 2 ^ 32)%Z).
  { apply lxor_range; [exact R2 | apply shiftr_range; [lia | exact R2]]. }
  set (X := Z.lxor t2 (Z.shiftr t2 14)) in *.
  change (2 ^ 32)%Z with 4294967296%Z in R.
  split.
  - apply Qle_shift_div_l; [reflexivity|].
    rewrite Qmult_0_l. change 0 with (inject_Z 0). rewrite <- Zle_Qle. lia.
  - apply Qlt_shift_div_r; [reflexivity|].
    rewrite Qmult_1_l. change 4294967296 with (inject_Z 4294967296).
    rewrite <- Zlt_Qlt. lia.
Qed.

Lemma bind_Some {A B : Type} (m : Rand A) (k : A -> Rand B) (s s' : Z) (b : B) :
  bind m k s = Some (b, s') ->
  exists a s1, m s = Some (a, s1) /\ k a s1 = Some (b, s').
Proof.
  unfold bind. destruct (m s) as [[a s1]|]; [|discriminate].
  intros H. exists a, s1. split; [reflexivity | exact H].
Qed.

Lemma seedAfter_add (a b : nat) (s : Z) :
  seedAfter (a + b) s = seedAfter b (seedAfter a s).
Proof.
  revert s. induction a as [|a IH]; intros s; [reflexivity|].
  simpl. apply IH.
Qed.

Lemma seedAfter_exact (n : nat) (s : Z) :
  (0 <= s)%Z -> (s + Z.of_nat n * 0x6d2b79f5 < 2 ^ 53)%Z ->
  seedAfter n s = (s + Z.of_nat n * 0x6d2b79f5)%Z.
Proof.
  revert s. induction n as [|n IH]; intros s Hs Hb.
  - simpl. lia.
  - cbn [seedAfter]. rewrite advance_exact by lia.
    rewrite IH by lia. lia.
Qed.

(** A redraw loop that returns has drawn 0 some number of times, less than
    its fuel, and returns the draw after these, which is strictly between 0
    and 1. *)
Lemma drawNonZero_Some (fuel : nat) (s s' : Z) (u : number) :
  drawNonZero fuel s = Some (u, s') ->
  exists i : nat,
    (i < fuel)%nat /\
    (forall k, (k < i)%nat -> draw (seedAfter k s) == 0) /\
    u = draw (seedAfter i s) /\ 0 < u < 1 /\ s' = seedAfter (S i) s.
Proof.
  assert (Hnz : forall x, num_eq x 0 = false -> 0 <= x -> 0 < x).
  { intros x E Hx. destruct (Qlt_le_dec 0 x) as [H|H]; [exact H|].
    assert (Hx0 : x == 0) by (apply Qle_antisym; assumption).
    apply Qeq_bool_iff in Hx0. unfold num_eq in E. congruence. }
  revert s. induction fuel as [|fuel IH]; intros s; [discriminate|].
  cbn [drawNonZero]. unfold bind, rng.
  rewrite (surjective_pairing (mulberry32 s)).
  change (fst (mulberry32 s)) with (draw s).
  change (snd (mulberry32 s)) with (advance s).
  destruct (num_eq (draw s) 0) eqn:E.
  - intros Hd. destruct (IH _ Hd) as (i & Hi & Hz & Hu & Hr & Hs).
    exists (S i). split; [lia|]. split; [|split; [exact Hu|split; [exact Hr|exact Hs]]].
    intros [|k] Hk.
    + simpl. apply Qeq_bool_iff. exact E.
    + simpl. apply Hz. lia.
  - intros Hd. injection Hd as <- <-. exists O.
    split; [lia|]. split; [intros k Hk; lia|]. split; [reflexivity|].
    split; [|reflexivity].
    pose proof (mulberry32_range s) as R. simpl.
    split; [apply Hnz; [exact E | apply R] | apply R].
Qed.

(** While the seed is exact the loop has drawn 0 at most once. *)
Lemma zero_draws_exact (i : nat) (s : Z) :
  (0 <= s)%Z -> (s + 2 * 0x6d2b79f5 < 2 ^ 53)%Z ->
  (forall k, (k < i)%nat -> draw (seedAfter k s) == 0) ->
  (i <= 1)%nat.
Proof.
  intros Hs Hb Hz.
  destruct (Nat.le_gt_cases i 1) as [Hi|Hi]; [exact Hi|].
  exfalso. apply (mulberry32_zero_once s Hs Hb).
  - apply (Hz 0%nat). lia.
  - apply (Hz 1%nat). lia.
Qed.

(** X2.  Every value the generator draws is in [[0, 1)], and it is 0 exactly
    when the seed the call leaves is a multiple of 2^32.  While the seed
    stays below 2^53 a call advances it by exactly 0x6d2b79f5, and of two
    calls in a row at most one draws 0. *)
Theorem mulberry32_unit_interval (seed : Z) :
  0 <= draw seed < 1 /\
  (draw seed == 0 <-> wrap32 (advance seed) = 0%Z) /\
  ((0 <= seed)%Z -> (seed + 2 * 0x6d2b79f5 < 2 ^ 53)%Z ->
   advance seed = (seed + 0x6d2b79f5)%Z /\
   ~ (draw seed == 0 /\ draw (advance seed) == 0)).
Proof.
  split; [apply mulberry32_range|]. split.
  - split; [apply mulberry32_zero | apply mulberry32_zero_conv].
  - intros Hs Hb. split; [apply advance_exact; lia|].
    intros [Z1 Z2]. exact (mulberry32_zero_once seed Hs Hb Z1 Z2).
Qed.

(** X3.  A normal deviate that [randNormal] returns is
    [sqrt(-2 log u) * cos(2 pi v)] where [u] is the first draw of the
    generator that is not 0 and [v] the first one after it that is not 0:
    both are strictly between 0 and 1, so the logarithm is never taken at 0.
    The call leaves the seed after these draws; while the seed stays below
    2^53 each loop has skipped at most one draw, and the call has made
    between two and four. *)
Theorem randNormal_Some `{MathLib} (fuel : nat) (s s' : Z) (r : number) :
  randNormal fuel s = Some (r, s') ->
  exists i j : nat,
    let u := draw (seedAfter i s) in
    let v := draw (seedAfter (S i + j) s) in
    (i < fuel)%nat /\ (j < fuel)%nat /\
    (forall k, (k < i)%nat -> draw (seedAfter k s) == 0) /\
    (forall k, (k < j)%nat -> draw (seedAfter (S i + k) s) == 0) /\
    0 < u < 1 /\ 0 < v < 1 /\
    r = Math_sqrt (-2.0 * Math_log u) * Math_cos (2.0 * Math_PI * v) /\
    s' = seedAfter (S i + S j) s /\
    ((0 <= s)%Z -> (s + 4 * 0x6d2b79f5 < 2 ^ 53)%Z ->
     (i <= 1)%nat /\ (j <= 1)%nat /\
     s' = (s + Z.of_nat (i + j + 2) * 0x6d2b79f5)%Z).
Proof.
  unfold randNormal. intros Hr.
  apply bind_Some in Hr. destruct Hr as (u & s1 & Hu & Hr).
  apply bind_Some in Hr. destruct Hr as (v & s2 & Hv & Hr).
  unfold ret in Hr. injection Hr as <- <-.
  apply drawNonZero_Some in Hu, Hv.
  destruct Hu as (i & Hi & Hzi & Eu & Ru & Es1).
  destruct Hv as (j & Hj & Hzj & Ev & Rv & Es2).
  subst s1.
  assert (Hadd : forall k, seedAfter (S i + k) s = seedAfter k (seedAfter (S i) s))
    by (intros k; apply seedAfter_add).
  exists i, j. cbv zeta.
  rewrite (Hadd j), (Hadd (S j)), <- Eu, <- Ev, <- Es2.
  split; [exact Hi|]. split; [exact Hj|]. split; [exact Hzi|].
  split; [intros k Hk; rewrite Hadd; apply Hzj; exact Hk|].
  split; [exact Ru|]. split; [exact Rv|]. split; [reflexivity|].
  split; [reflexivity|].
  intros Hs Hb.
  assert (Hi1 : (i <= 1)%nat) by (apply (zero_draws_exact i s); [lia | lia | exact Hzi]).
  assert (E1 : seedAfter (S i) s = (s + Z.of_nat (S i) * 0x6d2b79f5)%Z)
    by (apply seedAfter_exact; lia).
  assert (Hj1 : (j <= 1)%nat)
    by (apply (zero_draws_exact j (seedAfter (S i) s)); [lia | lia | exact Hzj]).
  split; [exact Hi1|]. split; [exact Hj1|].
  rewrite Es2, <- Hadd. rewrite seedAfter_exact by lia. lia.
Qed.

Lemma randNormal_Some_witness :
  exists (r : number) (s' : Z),
    @randNormal exampleMath 2 1337%Z = Some (r, s') /\
    exists i j : nat,
      let u := draw (seedAfter i 1337) in
      let v := draw (seedAfter (S i + j) 1337) in
      (i < 2)%nat /\ (j < 2)%nat /\
      (forall k, (k < i)%nat -> draw (seedAfter k 1337) == 0) /\
      (forall k, (k < j)%nat -> draw (seedAfter (S i + k) 1337) == 0) /\
      0 < u < 1 /\ 0 < v < 1 /\
      r = @Math_sqrt exampleMath (-2.0 * @Math_log exampleMath u)
          * @Math_cos exampleMath (2.0 * @Math_PI exampleMath * v) /\
      s' = seedAfter (S i + S j) 1337 /\
      ((0 <= 1337)%Z -> (1337 + 4 * 0x6d2b79f5 < 2 ^ 53)%Z ->
       (i <= 1)%nat /\ (j <= 1)%nat /\
       s' = (1337 + Z.of_nat (i + j + 2) * 0x6d2b79f5)%Z).
Proof.
  destruct (@randNormal_returns exampleMath 2 (le_n 2) 1337%Z)
    as (r & s' & Hr & _); [lia | simpl; lia |].
  exists r, s'. split; [exact Hr|].
  exact (@randNormal_Some exampleMath 2 1337%Z s' r Hr).
Defined.

(* ------------------------------------------------------------------ *)
(** ** The generated population *)

(** The intervals the four metrics of a synthetic session are clamped to. *)
Lemma generateSession_Some `{MathLib} (fuel : nat) (pop pop' : Population.t)
    (s s' : Z) :
  generateSession fuel pop s = Some (pop', s') ->
  exists spd wob nos spn : number,
    25 <= spd <= 68 /\ 0.8 <= wob <= 11.0 /\
    -6 <= nos <= 14 /\ 350 <= spn <= 1250 /\
    Population.speed pop' = Population.speed pop ++ [spd] /\
    Population.wobble pop' = Population.wobble pop ++ [wob] /\
    Population.nose pop' = Population.nose pop ++ [nos] /\
    Population.spin pop' = Population.spin pop ++ [spn].
Proof.
  unfold generateSession. intros Hg.
  repeat (apply bind_Some in Hg; destruct Hg as (? & ? & _ & Hg)).
  unfold ret in Hg. injection Hg as <- <-. simpl. unfold push.
  do 4 eexists.
  repeat split; try reflexivity; apply clamp_bounds; closed_Q.
Qed.

Lemma generateSessions_Some `{MathLib} (fuel nSessions : nat)
    (pop pop' : Population.t) (s s' : Z) :
  generateSessions fuel nSessions pop s = Some (pop', s') ->
  exists speeds wobbles noses spins : list number,
    length speeds = nSessions /\ length wobbles = nSessions /\
    length noses = nSessions /\ length spins = nSessions /\
    Forall (fun x => 25 <= x <= 68) speeds /\
    Forall (fun x => 0.8 <= x <= 11.0) wobbles /\
    Forall (fun x => -6 <= x <= 14) noses /\
    Forall (fun x => 350 <= x <= 1250) spins /\
    Population.speed pop' = Population.speed pop ++ speeds /\
    Population.wobble pop' = Population.wobble pop ++ wobbles /\
    Population.nose pop' = Population.nose pop ++ noses /\
    Population.spin pop' = Population.spin pop ++ spins.
Proof.
  revert pop s. induction nSessions as [|n IH]; intros pop s Hg.
  - simpl in Hg. unfold ret in Hg. injection Hg as <- <-.
    exists [], [], [], []. rewrite !app_nil_r.
    repeat split; constructor.
  - simpl in Hg. apply bind_Some in Hg. destruct Hg as (pop1 & s1 & H1 & Hg).
    apply generateSession_Some in H1.
    destruct H1 as (spd & wob & nos & spn & R1 & R2 & R3 & R4
                    & E1 & E2 & E3 & E4).
    apply IH in Hg.
    destruct Hg as (l1 & l2 & l3 & l4 & L1 & L2 & L3 & L4
                    & F1 & F2 & F3 & F4 & G1 & G2 & G3 & G4).
    exists (spd :: l1), (wob :: l2), (nos :: l3), (spn :: l4).
    rewrite G1, G2, G3, G4, E1, E2, E3, E4, <- !app_assoc. simpl.
    repeat split; try (f_equal; assumption); try (constructor; assumption);
      try reflexivity.
Qed.

Lemma generated_population `{MathLib} (fuel nSessions : nat) (seed : Z)
    (g : GlobalStats.t) :
  generateSyntheticGlobalStats fuel nSessions seed = Some g ->
  (length (GlobalStats.speed g) = nSessions /\
   Forall (fun x => 25 <= x <= 68) (GlobalStats.speed g)) /\
  (length (GlobalStats.wobble g) = nSessions /\
   Forall (fun x => 0.8 <= x <= 11.0) (GlobalStats.wobble g)) /\
  (length (GlobalStats.nose g) = nSessions /\
   Forall (fun x => -6 <= x <= 14) (GlobalStats.nose g)) /\
  (length (GlobalStats.spin g) = nSessions /\
   Forall (fun x => 350 <= x <= 1250) (GlobalStats.spin g)) /\
  GlobalStats.speedSorted g = Array_sort ascending (GlobalStats.speed g) /\
  GlobalStats.wobbleSorted g = Array_sort ascending (GlobalStats.wobble g) /\
  GlobalStats.noseSorted g = Array_sort ascending (GlobalStats.nose g) /\
  GlobalStats.spinSorted g = Array_sort ascending (GlobalStats.spin g).
Proof.
  unfold generateSyntheticGlobalStats.
  destruct (generateSessions fuel nSessions Population.empty seed)
    as [[pop s']|] eqn:E; [|discriminate].
  intros Hg. injection Hg as <-. simpl.
  apply generateSessions_Some in E.
  destruct E as (l1 & l2 & l3 & l4 & L1 & L2 & L3 & L4
                 & F1 & F2 & F3 & F4 & G1 & G2 & G3 & G4).
  simpl in G1, G2, G3, G4. rewrite G1, G2, G3, G4.
  repeat split; assumption.
Qed.

(** X4.  A generated population has [nSessions] samples of each metric, in
    the unsorted and in the sorted arrays alike. *)
Theorem generateSyntheticGlobalStats_lengths `{MathLib}
    (fuel nSessions : nat) (seed : Z) (g : GlobalStats.t) :
  generateSyntheticGlobalStats fuel nSessions seed = Some g ->
  forall m,
    length (metricToGlobalArray m g) = nSessions /\
    length (metricToSortedArray m g) = nSessions.
Proof.
  intros Hg m.
  destruct (generated_population _ _ _ _ Hg)
    as ((L1 & _) & (L2 & _) & (L3 & _) & (L4 & _) & S1 & S2 & S3 & S4).
  destruct m; unfold metricToGlobalArray, metricToSortedArray; simpl;
    rewrite ?S1, ?S2, ?S3, ?S4, ?Array_sort_length; split; assumption.
Qed.

Lemma generateSyntheticGlobalStats_lengths_witness :
  exists g,
    @generateSyntheticGlobalStats exampleMath 2 3 1337 = Some g /\
    forall m,
      length (metricToGlobalArray m g) = 3%nat /\
      length (metricToSortedArray m g) = 3%nat.
Proof.
  destruct example_population as (pop & s' & Hp).
  eexists. split.
  - unfold generateSyntheticGlobalStats. rewrite Hp. reflexivity.
  - apply (@generateSyntheticGlobalStats_lengths exampleMath 2 3 1337%Z).
    unfold generateSyntheticGlobalStats. rewrite Hp. reflexivity.
Defined.

(** X5.  Every sample of a generated population lies in the interval its
    metric is clamped to: speed in [25, 68], wobble in [0.8, 11], nose in
    [-6, 14] and spin in [350, 1250]; so do the entries of the sorted
    arrays. *)
Theorem generateSyntheticGlobalStats_ranges `{MathLib}
    (fuel nSessions : nat) (seed : Z) (g : GlobalStats.t) :
  generateSyntheticGlobalStats fuel nSessions seed = Some g ->
  (Forall (fun x => 25 <= x <= 68) (GlobalStats.speed g) /\
   Forall (fun x => 25 <= x <= 68) (GlobalStats.speedSorted g)) /\
  (Forall (fun x => 0.8 <= x <= 11.0) (GlobalStats.wobble g) /\
   Forall (fun x => 0.8 <= x <= 11.0) (GlobalStats.wobbleSorted g)) /\
  (Forall (fun x => -6 <= x <= 14) (GlobalStats.nose g) /\
   Forall (fun x => -6 <= x <= 14) (GlobalStats.noseSorted g)) /\
  (Forall (fun x => 350 <= x <= 1250) (GlobalStats.spin g) /\
   Forall (fun x => 350 <= x <= 1250) (GlobalStats.spinSorted g)).
Proof.
  intros Hg.
  destruct (generated_population _ _ _ _ Hg)
    as ((_ & F1) & (_ & F2) & (_ & F3) & (_ & F4) & S1 & S2 & S3 & S4).
  rewrite S1, S2, S3, S4.
  repeat split; try assumption;
    eapply Permutation_Forall; try apply Array_sort_perm; assumption.
Qed.

Lemma generateSyntheticGlobalStats_ranges_witness :
  exists g,
    @generateSyntheticGlobalStats exampleMath 2 3 1337 = Some g /\
    (Forall (fun x => 25 <= x <= 68) (GlobalStats.speed g) /\
     Forall (fun x => 25 <= x <= 68) (GlobalStats.speedSorted g)) /\
    (Forall (fun x => 0.8 <= x <= 11.0) (GlobalStats.wobble g) /\
     Forall (fun x => 0.8 <= x <= 11.0) (GlobalStats.wobbleSorted g)) /\
    (Forall (fun x => -6 <= x <= 14) (GlobalStats.nose g) /\
     Forall (fun x => -6 <= x <= 14) (GlobalStats.noseSorted g)) /\
    (Forall (fun x => 350 <= x <= 1250) (GlobalStats.spin g) /\
     Forall (fun x => 350 <= x <= 1250) (GlobalStats.spinSorted g)).
Proof.
  destruct example_population as (pop & s' & Hp).
  eexists. split.
  - unfold generateSyntheticGlobalStats. rewrite Hp. reflexivity.
  - apply (@generateSyntheticGlobalStats_ranges exampleMath 2 3 1337%Z).
    unfold generateSyntheticGlobalStats. rewrite Hp. reflexivity.
Defined.

(* ------------------------------------------------------------------ *)
(** ** Means and best values *)

Lemma num_of_nat_S (n : nat) : num_of_nat (S n) == num_of_nat n + 1.
Proof.
  unfold num_of_nat. rewrite Nat2Z.inj_succ, <- Z.add_1_r, inject_Z_plus.
  reflexivity.
Qed.

Lemma fold_sum_bounds (lo hi : number) (arr : list number) (acc : number) :
  Forall (fun x => lo <= x <= hi) arr ->
  acc + num_of_nat (length arr) * lo <= fold_left Qplus arr acc
  /\ fold_left Qplus arr acc <= acc + num_of_nat (length arr) * hi.
Proof.
  intros HF. revert acc. induction HF as [|x xs [Hl Hh] _ IH]; intros acc.
  - simpl. change (num_of_nat 0) with 0. split; lra.
  - cbn [fold_left length]. destruct (IH (acc + x)) as [IH1 IH2].
    rewrite num_of_nat_S. split; lra.
Qed.

(** The mean of a non-empty array lies between any two bounds of its
    entries. *)
Lemma mean_bounds (lo hi : number) (arr : list number) :
  arr <> [] -> Forall (fun x => lo <= x <= hi) arr ->
  exists m, mean arr = Some m /\ lo <= m <= hi.
Proof.
  intros Hne HF. destruct arr as [|a t]; [congruence|].
  eexists. split; [reflexivity|]. unfold sum.
  assert (Hn : 0 < num_of_nat (length (a :: t)))
    by (apply num_of_nat_pos; simpl; lia).
  destruct (fold_sum_bounds lo hi (a :: t) 0 HF) as [H1 H2].
  split.
  - apply Qle_shift_div_l; [exact Hn|]. lra.
  - apply Qle_shift_div_r; [exact Hn|]. lra.
Qed.

Lemma fold_max_spec (xs : list number) (x : number) :
  In (fold_left Math_max xs x) (x :: xs) /\
  Forall (fun y => y <= fold_left Math_max xs x) (x :: xs).
Proof.
  revert x. induction xs as [|y ys IH]; intros x.
  - simpl. split; [left; reflexivity|]. repeat constructor. apply Qle_refl.
  - cbn [fold_left]. destruct (IH (Math_max x y)) as [Hin Hall].
    inversion Hall as [|? ? Hm Hrest]; subst.
    destruct (Math_max_cases x y) as [[Hxy E]|[Hxy E]]; rewrite E in *.
    + split.
      * destruct Hin as [Hin|Hin]; [right; left; exact Hin | right; right; exact Hin].
      * constructor; [lra|]. constructor; assumption.
    + split.
      * destruct Hin as [Hin|Hin]; [left; exact Hin | right; right; exact Hin].
      * constructor; [exact Hm|]. constructor; [lra | assumption].
Qed.

Lemma fold_min_spec (xs : list number) (x : number) :
  In (fold_left Math_min xs x) (x :: xs) /\
  Forall (fun y => fold_left Math_min xs x <= y) (x :: xs).
Proof.
  revert x. induction xs as [|y ys IH]; intros x.
  - simpl. split; [left; reflexivity|]. repeat constructor. apply Qle_refl.
  - cbn [fold_left]. destruct (IH (Math_min x y)) as [Hin Hall].
    inversion Hall as [|? ? Hm Hrest]; subst.
    destruct (Math_min_cases x y) as [[Hxy E]|[Hxy E]]; rewrite E in *.
    + split.
      * destruct Hin as [Hin|Hin]; [left; exact Hin | right; right; exact Hin].
      * constructor; [exact Hm|]. constructor; [lra | assumption].
    + split.
      * destruct Hin as [Hin|Hin]; [right; left; exact Hin | right; right; exact Hin].
      * constructor; [lra|]. constructor; assumption.
Qed.

Lemma numbersOf_In (f : Throw.t -> option number) (xs : list Throw.t)
    (v : number) :
  In v (numbersOf f xs) <-> exists t, In t xs /\ f t = Some v.
Proof.
  unfold numbersOf. rewrite in_flat_map. split.
  - intros (t & Ht & Hv). exists t. split; [exact Ht|].
    destruct (f t) as [w|]; [|destruct Hv].
    destruct Hv as [->|[]]. reflexivity.
  - intros (t & Ht & Hv). exists t. split; [exact Ht|].
    rewrite Hv. left. reflexivity.
Qed.

Lemma best_mean (arr : list number) :
  match mean arr, best arr with
  | Some a, Some b => In b arr /\ Forall (fun x => x <= b) arr
  | None, None => arr = []
  | _, _ => False
  end.
Proof.
  destruct arr as [|x xs]; [reflexivity|].
  destruct (fold_max_spec xs x) as [Hin Hall].
  cbn [best mean]. split; assumption.
Qed.

(** X7.  The best speed of a session is the speed of one of its clean
    throws, and no clean throw is faster; the average and the best speed are
    both present, or both absent, and they are absent exactly when no clean
    throw carries a speed.  The same holds of the spin. *)
Theorem stats_best_bounds_average `{MathLib} (throws : list Throw.t) :
  let s := stats throws in
  match SessionStats.avgSpeed s, SessionStats.bestSpeed s with
  | Some a, Some b =>
      (exists t, In t (cleanThrows throws) /\ Throw.speed t = Some b) /\
      (forall t v, In t (cleanThrows throws) -> Throw.speed t = Some v -> v <= b)
  | None, None => forall t, In t (cleanThrows throws) -> Throw.speed t = None
  | _, _ => False
  end /\
  match SessionStats.avgSpin s, SessionStats.bestSpin s with
  | Some a, Some b =>
      (exists t, In t (cleanThrows throws) /\ Throw.spin t = Some b) /\
      (forall t v, In t (cleanThrows throws) -> Throw.spin t = Some v -> v <= b)
  | None, None => forall t, In t (cleanThrows throws) -> Throw.spin t = None
  | _, _ => False
  end.
Proof.
  assert (Hgen : forall f : Throw.t -> option number,
    match mean (numbersOf f (cleanThrows throws)),
          best (numbersOf f (cleanThrows throws)) with
    | Some a, Some b =>
        (exists t, In t (cleanThrows throws) /\ f t = Some b) /\
        (forall t v, In t (cleanThrows throws) -> f t = Some v -> v <= b)
    | None, None => forall t, In t (cleanThrows throws) -> f t = None
    | _, _ => False
    end).
  { intros f. pose proof (best_mean (numbersOf f (cleanThrows throws))) as Hb.
    destruct (mean _) as [a|], (best _) as [b|]; try exact Hb.
    - destruct Hb as (Hin & Hall). split.
      + apply numbersOf_In. exact Hin.
      + intros t v Ht Hv. rewrite Forall_forall in Hall. apply Hall.
        apply numbersOf_In. exists t. split; assumption.
    - intros t Ht. destruct (f t) as [v|] eqn:E; [|reflexivity].
      assert (Hv : In v (numbersOf f (cleanThrows throws)))
        by (apply numbersOf_In; exists t; split; assumption).
      rewrite Hb in Hv. destruct Hv. }
  intros s. split; [apply (Hgen Throw.speed) | apply (Hgen Throw.spin)].
Qed.

Lemma cleanThrows_none (throws : list Throw.t) :
  Forall (fun t => Throw.speed t = None /\ Throw.spin t = None) throws ->
  cleanThrows throws = [].
Proof.
  induction 1 as [|t ts [Hsp Hsn] _ IH]; simpl.
  - reflexivity.
  - rewrite Hsp, Hsn. simpl. exact IH.
Qed.

(** X8.  When no throw carries a speed or a spin the page has no user data:
    the count is 0, every average, standard deviation and best value is
    absent, no issue is raised and no percentile is shown, whatever nose and
    wobble angles the throws carry. *)
Theorem no_user_data `{MathLib} (throws : list Throw.t) (g : GlobalStats.t) :
  Forall (fun t => Throw.speed t = None /\ Throw.spin t = None) throws ->
  hasUserData throws = false /\
  stats throws =
    SessionStats.mk 0 None None None None None None None None None None /\
  issues throws = [] /\
  percentiles (stats throws) g = Percentiles.mk None None None None.
Proof.
  intros HF. apply cleanThrows_none in HF.
  unfold hasUserData, issues, stats. rewrite HF.
  repeat split.
Qed.

Lemma no_user_data_witness :
  let t := Throw.mk 1 None None None (Some 10) (Some 9) None None None None in
  let g := GlobalStats.mk [50] [900] [2] [3] [50] [900] [2] [3] in
  hasUserData [t] = false /\
  @stats exampleMath [t] =
    SessionStats.mk 0 None None None None None None None None None None /\
  @issues exampleMath [t] = [] /\
  percentiles (@stats exampleMath [t]) g = Percentiles.mk None None None None.
Proof.
  intros t g. apply (@no_user_data exampleMath [t] g).
  repeat constructor.
Defined.

(* ------------------------------------------------------------------ *)
(** ** Percentiles *)

Lemma upperBound_bounds (arr : list number) (v : number) (lo hi : nat) :
  (lo <= hi)%nat -> (lo <= upperBound arr v lo hi <= hi)%nat.
Proof.
  funelim (upperBound arr v lo hi); intros Hb.
  all: try (pose proof (Nat.div2_div (lo + hi)) as Hmid;
            pose proof (Nat.div_mod_eq (lo + hi) 2) as Hdm;
            pose proof (Nat.mod_upper_bound (lo + hi) 2) as Hmod).
  - lia.
  - assert (S (Nat.div2 (lo + hi)) <= hi)%nat as Hle by lia.
    specialize (H Hle). lia.
  - assert (lo <= Nat.div2 (lo + hi))%nat as Hle by lia.
    specialize (H Hle). lia.
Qed.

Lemma percentOfRank_range (lo n : nat) (hib : bool) :
  (0 < n)%nat -> (lo <= n)%nat ->
  (0 <= percentOfRank lo n hib <= 100)%Z.
Proof.
  intros Hn Hlo. unfold percentOfRank.
  pose proof (num_of_nat_pos n Hn) as Hpos.
  pose proof (num_of_nat_le lo n Hlo) as Hle.
  assert (H0 : 0 <= num_of_nat lo).
  { change 0 with (num_of_nat 0). apply num_of_nat_le. lia. }
  assert (Hf : 0 <= num_of_nat lo / num_of_nat n <= 1).
  { split.
    - apply Qle_shift_div_l; [exact Hpos | lra].
    - apply Qle_shift_div_r; [exact Hpos | lra]. }
  set (f := num_of_nat lo / num_of_nat n) in *.
  assert (Hround : forall p : number,
             0 <= p <= 1 ->
             Z.le (Math_round 0) (Math_round (p * 100)) /\
             Z.le (Math_round (p * 100)) (Math_round 100)).
  { intros p Hp. split; apply Math_round_le; lra. }
  destruct hib; apply Hround; lra.
Qed.

(** X9.  [percentileOf] is absent exactly on an empty population, sorted or
    not, and otherwise is an integer from 0 to 100. *)
Theorem percentileOf_range (v : number) (arr : list number) (hib : bool) :
  match percentileOf v arr hib with
  | Some p => arr <> [] /\ (0 <= p <= 100)%Z
  | None => arr = []
  end.
Proof.
  unfold percentileOf. destruct arr as [|a t]; [reflexivity|].
  split; [discriminate|].
  apply (percentOfRank_range _ (length (a :: t)) hib).
  - simpl. lia.
  - apply upperBound_bounds. lia.
Qed.

(** X10.  On an ascending array the search loop of [percentileOf] returns the
    number of entries that do not exceed the value: every entry before the
    returned index is at most the value and every entry from it on is
    greater. *)
Theorem upperBound_correct (arr : list number) (v : number) :
  Sorted Qle arr ->
  let r := upperBound arr v 0 (length arr) in
  r = countLe v arr /\ (r <= length arr)%nat /\
  (forall i x, (i < r)%nat -> nth_error arr i = Some x -> x <= v) /\
  (forall i x, (r <= i)%nat -> nth_error arr i = Some x -> v < x).
Proof.
  intros Hs r.
  destruct (upperBound_splits arr v Hs 0 (length arr)) as [Hr [Hl Hg]].
  - lia.
  - intros i x Hi. lia.
  - intros i x Hi Hx. assert (nth_error arr i = None) as E
      by (apply nth_error_None; exact Hi). congruence.
  - split; [apply upperBound_countLe; exact Hs|].
    split; [exact Hr|]. split; assumption.
Qed.

Lemma upperBound_correct_witness :
  let r := upperBound [1; 3; 3; 7] 3 0 (length [1; 3; 3; 7]) in
  r = countLe 3 [1; 3; 3; 7] /\ (r <= length [1; 3; 3; 7])%nat /\
  (forall i x, (i < r)%nat -> nth_error [1; 3; 3; 7] i = Some x -> x <= 3) /\
  (forall i x, (r <= i)%nat -> nth_error [1; 3; 3; 7] i = Some x -> 3 < x).
Proof.
  apply (upperBound_correct [1; 3; 3; 7] 3).
  repeat constructor; closed_Q.
Defined.

Lemma percentileOf_nonempty (v : number) (arr : list number) (hib : bool) :
  arr <> [] ->
  exists p, percentileOf v arr hib = Some p /\ (0 <= p <= 100)%Z.
Proof.
  intros Hne. unfold percentileOf. destruct arr as [|a t]; [congruence|].
  eexists. split; [reflexivity|].
  apply (percentOfRank_range _ (length (a :: t)) hib).
  - simpl. lia.
  - apply upperBound_bounds. lia.
Qed.

Lemma nonempty_length {A : Type} (l : list A) : (1 <= length l)%nat -> l <> [].
Proof. destruct l; simpl; [lia | discriminate]. Qed.

Lemma nosePercentileFromAvg_nonempty (avgNose : number) (g : GlobalStats.t) :
  GlobalStats.nose g <> [] ->
  exists p, nosePercentileFromAvg avgNose g = Some p /\ (0 <= p <= 100)%Z.
Proof.
  intros Hne. unfold nosePercentileFromAvg. apply percentileOf_nonempty.
  apply nonempty_length. rewrite Array_sort_length, length_map.
  destruct (GlobalStats.nose g); [congruence | simpl; lia].
Qed.

(** X11.  Against a generated population of at least one sample, the page
    shows a percentile for exactly the metrics whose session average is
    present, and each percentile shown is an integer from 0 to 100. *)
Theorem percentiles_shown `{MathLib} (fuel nSessions : nat) (seed : Z)
    (g : GlobalStats.t) (s : SessionStats.t) :
  generateSyntheticGlobalStats fuel nSessions seed = Some g ->
  (1 <= nSessions)%nat ->
  forall m,
    match userVal m s with
    | Some _ =>
        exists p, percentileFor (percentiles s g) m = Some p /\ (0 <= p <= 100)%Z
    | None => percentileFor (percentiles s g) m = None
    end.
Proof.
  intros Hg Hn m.
  destruct (generated_population _ _ _ _ Hg)
    as ((L1 & _) & (L2 & _) & (L3 & _) & (L4 & _) & S1 & S2 & S3 & S4).
  assert (Hsorted : forall arr, length arr = nSessions ->
                                Array_sort ascending arr <> []).
  { intros arr Hl. apply nonempty_length. rewrite Array_sort_length. lia. }
  destruct m; unfold userVal, percentiles; simpl.
  - destruct (SessionStats.avgWobble s); [|reflexivity].
    rewrite S2. apply percentileOf_nonempty, Hsorted, L2.
  - destruct (SessionStats.avgNose s); [|reflexivity].
    apply nosePercentileFromAvg_nonempty. apply nonempty_length. lia.
  - destruct (SessionStats.avgSpin s); [|reflexivity].
    rewrite S4. apply percentileOf_nonempty, Hsorted, L4.
  - destruct (SessionStats.avgSpeed s); [|reflexivity].
    rewrite S1. apply percentileOf_nonempty, Hsorted, L1.
Qed.

Lemma percentiles_shown_witness :
  exists g,
    @generateSyntheticGlobalStats exampleMath 2 3 1337 = Some g /\
    forall m,
      match userVal m (@stats exampleMath [Throw.mk 1 None (Some 50) None
                                             (Some 2) None None None None None])
      with
      | Some _ =>
          exists p,
            percentileFor
              (percentiles
                 (@stats exampleMath [Throw.mk 1 None (Some 50) None
                                        (Some 2) None None None None None]) g)
              m = Some p
            /\ (0 <= p <= 100)%Z
      | None =>
          percentileFor
            (percentiles
               (@stats exampleMath [Throw.mk 1 None (Some 50) None
                                      (Some 2) None None None None None]) g)
            m = None
      end.
Proof.
  destruct example_population as (pop & s' & Hp).
  eexists. split.
  - unfold generateSyntheticGlobalStats. rewrite Hp. reflexivity.
  - apply (@percentiles_shown exampleMath 2 3 1337%Z).
    + unfold generateSyntheticGlobalStats. rewrite Hp. reflexivity.
    + lia.
Defined.

Lemma countLe_comp (v1 v2 : number) (arr : list number) :
  v1 == v2 -> countLe v1 arr = countLe v2 arr.
Proof.
  intros Hv. apply Nat.le_antisymm; apply countLe_mono; rewrite Hv;
    apply Qle_refl.
Qed.

(** X12.  The nose percentile rewards closeness to the target of +2 degrees:
    of two nose averages the one nearer to 2 never has the lower percentile,
    and two averages at the same distance on either side of 2 have the same
    percentile. *)
Theorem nosePercentileFromAvg_closer_is_better (a b : number)
    (g : GlobalStats.t) :
  GlobalStats.nose g <> [] ->
  exists pa pb : Z,
    nosePercentileFromAvg a g = Some pa /\
    nosePercentileFromAvg b g = Some pb /\
    (Qabs (a - 2) <= Qabs (b - 2) -> (pb <= pa)%Z) /\
    (Qabs (a - 2) == Qabs (b - 2) -> pa = pb).
Proof.
  intros Hne. unfold nosePercentileFromAvg.
  set (d := Array_sort ascending
              (map (fun n => Math_abs (n - 2)) (GlobalStats.nose g))).
  assert (Hd : d <> []).
  { apply nonempty_length. unfold d. rewrite Array_sort_length, length_map.
    destruct (GlobalStats.nose g); [congruence | simpl; lia]. }
  assert (Hs : Sorted Qle d) by apply Array_sort_ascending.
  assert (Hlen : (0 < length d)%nat)
    by (destruct d; [congruence | simpl; lia]).
  rewrite !percentileOf_rank by assumption.
  do 2 eexists. split; [reflexivity|]. split; [reflexivity|]. split.
  - intros Hab. unfold Math_abs.
    apply (percentOfRank_mono _ _ (length d) Hlen
             (countLe_mono _ _ d Hab)).
  - intros Hab. unfold Math_abs. rewrite (countLe_comp _ _ d Hab).
    reflexivity.
Qed.

Lemma nosePercentileFromAvg_closer_is_better_witness :
  exists pa pb : Z,
    nosePercentileFromAvg 3
      (GlobalStats.mk [] [] [0; 5; 2] [] [] [] [0; 2; 5] []) = Some pa /\
    nosePercentileFromAvg 1
      (GlobalStats.mk [] [] [0; 5; 2] [] [] [] [0; 2; 5] []) = Some pb /\
    (Qabs (3 - 2) <= Qabs (1 - 2) -> (pb <= pa)%Z) /\
    (Qabs (3 - 2) == Qabs (1 - 2) -> pa = pb).
Proof.
  apply (nosePercentileFromAvg_closer_is_better 3 1
           (GlobalStats.mk [] [] [0; 5; 2] [] [] [] [0; 2; 5] [])).
  discriminate.
Defined.

(* ------------------------------------------------------------------ *)
(** ** Histogram bins *)

(** X13.  When the span [max - min] is greater than 0 or not a number (the
    loop runs), the count of each bin is the number of values that the
    floored position [Math.floor(((v - min) / (max - min)) * bins)], computed
    on doubles, puts there: in the first bin those at 0 or below, in the last
    those at [bins - 1] or beyond, in another bin those at its index; a value
    whose position is not a number is in no bin. *)
Theorem computeHistogram_bin_counts (values : list Double.double) (bins : nat)
    (min max : Double.double) (i : nat) :
  Double.leb (Double.sub max min) Double.zero = false -> (i < bins)%nat ->
  nth i (Double.counts (Double.computeHistogram values bins min max)) O
  = length (filter
              (fun v => Double.landsIn bins i
                          (Double.flooredPosition bins min
                             (Double.sub max min) v))
              values).
Proof.
  intros Hguard Hi. unfold Double.computeHistogram. rewrite Hguard.
  cbn [Double.counts]. apply Double_histogram_nth. exact Hi.
Qed.

Lemma computeHistogram_bin_counts_witness :
  let values := [Double.of_Z 15] in
  let min := Double.of_Z 0 in
  let max := Double.of_Z 22 in
  nth 14 (Double.counts (Double.computeHistogram values 22 min max)) O
  = length (filter
              (fun v => Double.landsIn 22 14
                          (Double.flooredPosition 22 min
                             (Double.sub max min) v))
              values).
Proof.
  apply (computeHistogram_bin_counts [Double.of_Z 15] 22 (Double.of_Z 0)
           (Double.of_Z 22) 14); [reflexivity | lia].
Defined.

(** The quotient 15/22 is rounded down and its product with 22 is below 15:
    of the 22 bins of [[0, 22]] the value 15 is counted in bin 14, where the
    exact quotient would put it in bin 15. *)
Lemma computeHistogram_rounded_position :
  let h :=
    Double.computeHistogram [Double.of_Z 15] 22 (Double.of_Z 0)
      (Double.of_Z 22) in
  nth 14 (Double.counts h) O = 1%nat /\ nth 15 (Double.counts h) O = 0%nat /\
  binIndex 22 0 (22 - 0) 15 = 15%Z.
Proof. vm_compute. repeat split. Qed.

(** X14.  Over a range with [min < max] the bin index does not decrease with
    the value: a greater value is never counted in a bin further left. *)
Theorem binIndex_monotone (bins : nat) (min max v1 v2 : number) :
  min < max -> v1 <= v2 ->
  Z.le (binIndex bins min (max - min) v1) (binIndex bins min (max - min) v2).
Proof.
  intros Hmm Hv. unfold binIndex, Math_floor.
  assert (Hn : 0 <= num_of_nat bins).
  { change 0 with (num_of_nat 0). apply num_of_nat_le. lia. }
  assert (Ht : (v1 - min) / (max - min) * num_of_nat bins
               <= (v2 - min) / (max - min) * num_of_nat bins).
  { apply Qmult_le_compat_r; [|exact Hn].
    unfold Qdiv. apply Qmult_le_compat_r; [lra|].
    apply Qlt_le_weak, Qinv_lt_0_compat. lra. }
  apply Qfloor_resp_le in Ht. lia.
Qed.

Lemma binIndex_monotone_witness :
  Z.le (binIndex 24 20 (75 - 20) 30) (binIndex 24 20 (75 - 20) 60).
Proof. apply (binIndex_monotone 24 20 75 30 60); closed_Q. Defined.

(** X15.  Whatever the arguments, the histogram has one count per bin and
    returns the range it was given.  When the span [max - min] is 0 or less
    every count is 0.  Otherwise, with at least one bin, the counts add up to
    the number of values whose position is a number; they never add up to
    more than the number of values. *)
Theorem computeHistogram_shape (values : list Double.double) (bins : nat)
    (min max : Double.double) :
  let h := Double.computeHistogram values bins min max in
  let span := Double.sub max min in
  length (Double.counts h) = bins /\
  Double.min h = min /\ Double.max h = max /\
  (Double.leb span Double.zero = true -> Double.counts h = repeat O bins) /\
  (Double.leb span Double.zero = false -> (1 <= bins)%nat ->
   list_sum (Double.counts h)
   = length (filter
               (fun v => negb (Double.isNotANumber
                                 (Double.flooredPosition bins min span v)))
               values)) /\
  (list_sum (Double.counts h) <= length values)%nat.
Proof.
  intros h span. subst h. unfold Double.computeHistogram. fold span.
  destruct (Double.leb span Double.zero) eqn:Hguard;
    cbn [Double.counts Double.min Double.max].
  - split; [apply repeat_length|]. split; [reflexivity|].
    split; [reflexivity|]. split; [reflexivity|]. split; [discriminate|].
    rewrite list_sum_zeros. lia.
  - split; [rewrite Double_loop_length; apply repeat_length|].
    split; [reflexivity|]. split; [reflexivity|].
    split; [discriminate|].
    split; [intros _ Hb; apply Double_histogram_sum; exact Hb|].
    destruct bins as [|bins].
    + assert (E : length (fold_left
                            (fun counts v =>
                               Double.incrementAt counts
                                 (Double.binIndex 0 min span v))
                            values (repeat O 0)) = O)
        by (rewrite Double_loop_length; reflexivity).
      destruct (fold_left _ values (repeat O 0));
        [simpl; lia | discriminate E].
    + rewrite Double_histogram_sum by lia. apply filter_length_bound.
Qed.

(* ------------------------------------------------------------------ *)
(** ** The display range and the graph *)

Lemma niceRange_cases (metric : Metric.t) (values : list number) :
  values <> [] ->
  exists vmin vmax pad : number,
    Forall (fun x => vmin <= x <= vmax) values /\
    In vmin values /\ In vmax values /\ 0 < pad /\
    niceRange metric values =
    Some (Range.mk (Math_max (fst (displayBounds metric)) (vmin - pad))
                   (Math_min (snd (displayBounds metric)) (vmax + pad))).
Proof.
  intros Hne. destruct values as [|x xs]; [congruence|].
  destruct (fold_min_spec xs x) as [Hmin_in Hmin].
  destruct (fold_max_spec xs x) as [Hmax_in Hmax].
  set (vmin := fold_left Math_min xs x) in *.
  set (vmax := fold_left Math_max xs x) in *.
  assert (Hall : Forall (fun y => vmin <= y <= vmax) (x :: xs)).
  { rewrite Forall_forall in *. intros y Hy. split; auto. }
  assert (Hmm : vmin <= vmax).
  { rewrite Forall_forall in Hall. destruct (Hall x) as [H1 H2];
      [left; reflexivity | lra]. }
  exists vmin, vmax,
    (if num_eq ((vmax - vmin) * 0.08) 0 then 1 else (vmax - vmin) * 0.08).
  split; [exact Hall|]. split; [exact Hmin_in|]. split; [exact Hmax_in|].
  split.
  - destruct (num_eq ((vmax - vmin) * 0.08) 0) eqn:E; [reflexivity|].
    destruct (Qlt_le_dec 0 ((vmax - vmin) * 0.08)) as [Hp|Hp]; [exact Hp|].
    assert (Hz : (vmax - vmin) * 0.08 == 0) by lra.
    apply Qeq_bool_iff in Hz. unfold num_eq in E. congruence.
  - unfold niceRange, Math_min_of, Math_max_of. fold vmin. fold vmax.
    destruct metric; reflexivity.
Qed.

(** X16.  The display range of a non-empty array starts at or above the
    lower bound of its metric and ends at or below the upper bound (spin
    [300, 1300], power [20, 75], nose [-10, 18], wobble [0, 12]), and every
    value that lies within these bounds lies within the range.  When all the
    data lie within the bounds the range is not degenerate ([min < max]). *)
Theorem niceRange_within_bounds (metric : Metric.t) (values : list number) :
  values <> [] ->
  exists r,
    niceRange metric values = Some r /\
    fst (displayBounds metric) <= Range.min r /\
    Range.max r <= snd (displayBounds metric) /\
    Forall (fun x => fst (displayBounds metric) <= x
                     <= snd (displayBounds metric) ->
                     Range.min r <= x <= Range.max r) values /\
    (Forall (fun x => fst (displayBounds metric) <= x
                      <= snd (displayBounds metric)) values ->
     Range.min r < Range.max r).
Proof.
  intros Hne.
  destruct (niceRange_cases metric values Hne)
    as (vmin & vmax & pad & Hall & Hmin_in & Hmax_in & Hpad & ->).
  eexists. split; [reflexivity|]. simpl.
  assert (Hb : fst (displayBounds metric) < snd (displayBounds metric))
    by (destruct metric; reflexivity).
  set (lo := fst (displayBounds metric)) in *.
  set (hi := snd (displayBounds metric)) in *.
  split; [minmax_cases; lra|]. split; [minmax_cases; lra|].
  rewrite Forall_forall in Hall.
  split.
  - apply Forall_forall. intros x Hx [H8 H9].
    destruct (Hall x Hx) as [H6 H7].
    minmax_cases; lra.
  - intros Hin. rewrite Forall_forall in Hin.
    destruct (Hin vmin Hmin_in) as [H1 H2].
    destruct (Hin vmax Hmax_in) as [H3 H4].
    destruct (Hall vmin Hmin_in) as [_ H5].
    minmax_cases; lra.
Qed.

Lemma niceRange_within_bounds_witness :
  exists r,
    niceRange Metric.power [47; 52; 31] = Some r /\
    fst (displayBounds Metric.power) <= Range.min r /\
    Range.max r <= snd (displayBounds Metric.power) /\
    Forall (fun x => fst (displayBounds Metric.power) <= x
                     <= snd (displayBounds Metric.power) ->
                     Range.min r <= x <= Range.max r) [47; 52; 31] /\
    (Forall (fun x => fst (displayBounds Metric.power) <= x
                      <= snd (displayBounds Metric.power)) [47; 52; 31] ->
     Range.min r < Range.max r).
Proof.
  apply (niceRange_within_bounds Metric.power [47; 52; 31]). discriminate.
Defined.

(** For data outside the bounds the range can be inverted: a single power
    value of 100 gives the range from 99 to 75. *)
Lemma niceRange_inverted :
  niceRange Metric.power [100] = Some (Range.mk 99 75).
Proof. reflexivity. Qed.

(** X17.  On doubles, over a range whose span [max - min] is positive and
    finite, and for a finite width, [valueToX] sends [min] to 0 and [max] to
    the width itself: the quotient of the span by itself is 1, and its
    product with the width is not rounded.  Over a degenerate range
    ([max <= min]) it is 0 for every value. *)
Theorem valueToX_scale (min max width : Double.double) :
  Double.leb max min = false ->
  Double.isPositiveFinite (Double.sub max min) = true ->
  Double.isFinite min = true ->
  Double.isFinite width = true ->
  Double.isDouble width = true ->
  Double.isZero (Double.valueToX min min max width) = true /\
  Double.valueToX max min max width = width /\
  (forall value lo hi,
     Double.leb hi lo = true -> Double.valueToX value lo hi width = Double.zero).
Proof.
  intros Hguard Hspan Hmin Hw Hvalid. unfold Double.valueToX.
  rewrite Hguard.
  destruct (Double.sub max min) as [| | |[|] ms es] eqn:Es; try discriminate.
  split; [|split].
  - pose proof (sub_self min Hmin) as Hz.
    destruct (Double.sub min min); try discriminate.
    destruct width; try discriminate; reflexivity.
  - rewrite div_self. apply mul_one_l. exact Hvalid.
  - intros value lo hi H. rewrite H. reflexivity.
Qed.

Lemma valueToX_scale_witness :
  let min := Double.of_Z 20 in
  let max := Double.of_Z 75 in
  let width := Double.of_Z 500 in
  Double.isZero (Double.valueToX min min max width) = true /\
  Double.valueToX max min max width = width /\
  (forall value lo hi,
     Double.leb hi lo = true -> Double.valueToX value lo hi width = Double.zero).
Proof.
  apply (valueToX_scale (Double.of_Z 20) (Double.of_Z 75) (Double.of_Z 500));
    reflexivity.
Defined.

Lemma computeHistogram_sum (values : list number) (bins : nat)
    (min max : number) :
  (1 <= bins)%nat -> min < max ->
  length (Histogram.counts (computeHistogram values bins min max)) = bins /\
  list_sum (Histogram.counts (computeHistogram values bins min max))
  = length values.
Proof.
  intros Hb Hmm. unfold computeHistogram.
  assert (Hspan : (max - min <=? 0) = false) by (apply num_le_false_iff; lra).
  rewrite Hspan. simpl.
  destruct (histogram_loop bins min (max - min) values (repeat O bins) Hb)
    as [Hl Hs]; [apply repeat_length|].
  rewrite list_sum_zeros in Hs. split; assumption.
Qed.

Lemma mapi_from_length {A B : Type} (f : A -> nat -> B) (i : nat) (l : list A) :
  length (mapi_from f i l) = length l.
Proof.
  revert i. induction l as [|a l IH]; intros i; simpl; [reflexivity|].
  rewrite IH. reflexivity.
Qed.



Lemma Forall_weaken (P Q : number -> Prop) (l : list number) :
  (forall x, P x -> Q x) -> Forall P l -> Forall Q l.
Proof. intros HPQ HF. eapply Forall_impl; [exact HPQ | exact HF]. Qed.

(** X18.  The graph of a metric of a generated population of at least one
    sample has 24 bins and 24 bars, and its bins count every sample: the
    clamping intervals of the generator lie within the display bounds, so the
    display range is never degenerate. *)
Theorem Histogram_of_generated_population `{MathLib}
    (fuel nSessions : nat) (seed : Z) (g : GlobalStats.t)
    (m : Metric.t) (globalAvg : number) (userValue : option number)
    (width height : option number) :
  generateSyntheticGlobalStats fuel nSessions seed = Some g ->
  (1 <= nSessions)%nat ->
  exists view,
    HistogramComponent m (metricToGlobalArray m g) globalAvg userValue
                       width height = Some view /\
    length (HistogramView.counts view) = 24%nat /\
    list_sum (HistogramView.counts view) = nSessions /\
    length (HistogramView.bars view) = 24%nat.
Proof.
  intros Hg Hn.
  destruct (generated_population _ _ _ _ Hg)
    as ((L1 & F1) & (L2 & F2) & (L3 & F3) & (L4 & F4) & _).
  set (values := metricToGlobalArray m g).
  assert (Hlen : length values = nSessions)
    by (destruct m; unfold values, metricToGlobalArray; simpl; assumption).
  assert (Hin : Forall (fun x => fst (displayBounds m) <= x
                                 <= snd (displayBounds m)) values).
  { destruct m; unfold values, metricToGlobalArray; simpl;
      [ eapply Forall_weaken; [|exact F2]
      | eapply Forall_weaken; [|exact F3]
      | eapply Forall_weaken; [|exact F4]
      | eapply Forall_weaken; [|exact F1] ];
      intros x [Hx1 Hx2]; split;
      (eapply Qle_trans; [|exact Hx1]) || (eapply Qle_trans; [exact Hx2|]);
      closed_Q. }
  assert (Hne : values <> []) by (apply nonempty_length; lia).
  destruct (niceRange_cases m values Hne)
    as (vmin & vmax & pad & Hall & Hmin_in & Hmax_in & Hpad & Hr).
  assert (Hmm : Math_max (fst (displayBounds m)) (vmin - pad)
                < Math_min (snd (displayBounds m)) (vmax + pad)).
  { assert (Hb : fst (displayBounds m) < snd (displayBounds m))
      by (destruct m; reflexivity).
    rewrite Forall_forall in Hall, Hin.
    destruct (Hin vmin Hmin_in) as [H1 H2].
    destruct (Hin vmax Hmax_in) as [H3 H4].
    destruct (Hall vmin Hmin_in) as [_ H5].
    minmax_cases; lra. }
  unfold HistogramComponent. rewrite Hr. cbv zeta.
  eexists. split; [reflexivity|]. cbn [HistogramView.counts HistogramView.bars].
  unfold mapi. rewrite mapi_from_length. cbn [Range.min Range.max].
  destruct (computeHistogram_sum values 24 _ _ (le_n_S _ _ (Nat.le_0_l 23)) Hmm)
    as [Hc Hs].
  rewrite Hc, Hs. repeat split. exact Hlen.
Qed.

Lemma Histogram_of_generated_population_witness :
  exists g view,
    @generateSyntheticGlobalStats exampleMath 2 3 1337 = Some g /\
    HistogramComponent Metric.power (metricToGlobalArray Metric.power g)
                       47 (Some 52) None None = Some view /\
    length (HistogramView.counts view) = 24%nat /\
    list_sum (HistogramView.counts view) = 3%nat /\
    length (HistogramView.bars view) = 24%nat.
Proof.
  destruct example_population as (pop & s' & Hp).
  assert (Hg : @generateSyntheticGlobalStats exampleMath 2 3 1337 = Some
                 {| GlobalStats.speed := Population.speed pop;
                    GlobalStats.spin := Population.spin pop;
                    GlobalStats.nose := Population.nose pop;
                    GlobalStats.wobble := Population.wobble pop;
                    GlobalStats.speedSorted :=
                      Array_sort ascending (Population.speed pop);
                    GlobalStats.spinSorted :=
                      Array_sort ascending (Population.spin pop);
                    GlobalStats.noseSorted :=
                      Array_sort ascending (Population.nose pop);
                    GlobalStats.wobbleSorted :=
                      Array_sort ascending (Population.wobble pop) |}).
  { unfold generateSyntheticGlobalStats. rewrite Hp. reflexivity. }
  destruct (@Histogram_of_generated_population exampleMath 2 3 1337%Z _
              Metric.power 47 (Some 52) None None Hg
              (le_S _ _ (le_S _ _ (le_n 1))))
    as (view & Hv).
  eexists. exists view. split; [exact Hg | exact Hv].
Defined.



(* ------------------------------------------------------------------ *)
(** ** Skill bands *)

(** Case analysis on every test of the goal. *)
Ltac if_cases :=
  repeat match goal with
         | |- context [if ?c then _ else _] =>
             let E := fresh "E" in destruct c eqn:E
         end.

(** Turns the comparisons of the context into inequalities. *)
Ltac num_hyps :=
  repeat match goal with
         | H : (_ && _) = true |- _ => apply andb_true_iff in H; destruct H
         | H : (_ && _) = false |- _ => apply andb_false_iff in H; destruct H
         | H : negb _ = true |- _ => apply negb_true_iff in H
         | H : negb _ = false |- _ => apply negb_false_iff in H
         | H : (_ <=? _) = true |- _ => apply num_le_iff in H
         | H : (_ <=? _) = false |- _ => apply num_le_false_iff in H
         | H : (_ <? _) = true |- _ => apply num_lt_iff in H
         | H : (_ <? _) = false |- _ => apply num_lt_false_iff in H
         end.

(** X20.  The score of a band is between 0 and 1, so [clamp01] leaves it as
    it is; it is 0 exactly when the value is absent (then the band is
    Beginner with the note "No data"), and at least 0.2 on every reading. *)
Theorem bandForMetric_score (metric : Metric.t) (value : option number) :
  let b := bandForMetric metric value in
  0 <= BandResult.score01 b <= 1 /\
  clamp01 (BandResult.score01 b) = BandResult.score01 b /\
  (value = None -> b = BandResult.mk Beginner "No data" 0) /\
  (value <> None -> 0.2 <= BandResult.score01 b).
Proof.
  destruct value as [v|]; simpl.
  - destruct metric; if_cases; simpl;
      (split; [split; closed_Q|]);
      (split; [reflexivity|]);
      (split; [discriminate | intros _; closed_Q]).
  - split; [split; closed_Q|]. split; [reflexivity|].
    split; [reflexivity | congruence].
Qed.

(** X21.  The band of spin and of power never falls when the value rises, and
    the band of wobble never falls when the value drops.  The band of nose
    never falls while the value rises up to 3 degrees, and never rises while
    the value rises from 1 degree on. *)
Theorem bandForMetric_monotone (v w : number) :
  v <= w ->
  let rank m x := bandRank (BandResult.band (bandForMetric m (Some x))) in
  (rank Metric.spin v <= rank Metric.spin w)%nat /\
  (rank Metric.power v <= rank Metric.power w)%nat /\
  (rank Metric.wobble w <= rank Metric.wobble v)%nat /\
  (w <= 3 -> (rank Metric.nose v <= rank Metric.nose w)%nat) /\
  (1 <= v -> (rank Metric.nose w <= rank Metric.nose v)%nat).
Proof.
  intros Hvw rank. unfold rank, bandForMetric, Math_abs.
  repeat split; try intros Hb; if_cases; simpl; try lia;
    exfalso; num_hyps; lra.
Qed.

Lemma bandForMetric_monotone_witness :
  let rank m x := bandRank (BandResult.band (bandForMetric m (Some x))) in
  Nat.le (rank Metric.spin 2) (rank Metric.spin 4) /\
  Nat.le (rank Metric.power 2) (rank Metric.power 4) /\
  Nat.le (rank Metric.wobble 4) (rank Metric.wobble 2) /\
  (4 <= 3 -> Nat.le (rank Metric.nose 2) (rank Metric.nose 4)) /\
  (1 <= 2 -> Nat.le (rank Metric.nose 4) (rank Metric.nose 2)).
Proof. apply (bandForMetric_monotone 2 4). closed_Q. Defined.

(* ------------------------------------------------------------------ *)
(** ** Diagnosis *)

(** X22.  A metric the diagnosis raises an issue for is never in the
    Advanced band. *)
Theorem issue_metric_not_Advanced (s : SessionStats.t) (i : Issue.t) :
  In i (buildIssues (averagesOf s)) ->
  BandResult.band (bandForMetric (Issue.metric i) (userVal (Issue.metric i) s))
  <> Advanced.
Proof.
  intros Hin.
  destruct (buildIssues_fired _ _ Hin) as [[E H]|[[E H]|[[E H]|[E H]]]];
    rewrite E; unfold userVal; simpl; simpl in H.
  - destruct (SessionStats.avgWobble s) as [v|]; simpl in *; [|discriminate].
    if_cases; simpl; try discriminate. num_hyps. lra.
  - destruct (SessionStats.avgNose s) as [v|]; simpl in *; [|discriminate].
    if_cases; simpl; try discriminate. num_hyps. lra.
  - destruct (SessionStats.avgSpin s) as [v|]; simpl in *; [|discriminate].
    if_cases; simpl; try discriminate. num_hyps. lra.
  - destruct (SessionStats.avgSpeed s) as [v|]; simpl in *; [|discriminate].
    if_cases; simpl; try discriminate. num_hyps. lra.
Qed.

Lemma issue_metric_not_Advanced_witness :
  let s := SessionStats.mk 3 (Some 45) (Some 800) (Some 4.5) (Some 4.2)
                           None None None None (Some 47) (Some 850) in
  Forall (fun i =>
            BandResult.band
              (bandForMetric (Issue.metric i) (userVal (Issue.metric i) s))
            <> Advanced)
         (buildIssues (averagesOf s)).
Proof.
  intros s. apply Forall_forall. intros i Hi.
  apply (issue_metric_not_Advanced s i Hi).
Defined.

Lemma sort_insert_map {A B : Type} (f : A -> B) (cmp : A -> A -> number)
    (cmp' : B -> B -> number) (x : A) (l : list A) :
  (forall a b, cmp a b = cmp' (f a) (f b)) ->
  map f (sort_insert cmp x l) = sort_insert cmp' (f x) (map f l).
Proof.
  intros Hc. induction l as [|y ys IH]; simpl; [reflexivity|].
  rewrite <- Hc. destruct (cmp x y <=? 0); simpl; [reflexivity|].
  rewrite IH. reflexivity.
Qed.

Lemma Array_sort_map {A B : Type} (f : A -> B) (cmp : A -> A -> number)
    (cmp' : B -> B -> number) (l : list A) :
  (forall a b, cmp a b = cmp' (f a) (f b)) ->
  map f (Array_sort cmp l) = Array_sort cmp' (map f l).
Proof.
  intros Hc. induction l as [|x xs IH]; simpl; [reflexivity|].
  rewrite (sort_insert_map f cmp cmp') by exact Hc. rewrite IH. reflexivity.
Qed.

(** The metric and the priority of every issue of a diagnosis, in order: the
    rules that pass, from the most to the least urgent. *)
Lemma buildIssues_ranked (stats : Averages.t) :
  map (fun i => (Issue.metric i, Issue.priority i)) (buildIssues stats)
  = rankedRules stats.
Proof.
  unfold buildIssues.
  rewrite (Array_sort_map (fun i => (Issue.metric i, Issue.priority i)) _
             (fun a b => snd b - snd a)) by reflexivity.
  unfold rankedRules, push.
  destruct (orElse (Averages.avgWobble stats) 0 >? 4);
    destruct (orElse (Averages.avgWobble stats) 0 >? 3);
    destruct (orElse (Averages.avgNose stats) 0 >? 4);
    destruct ((orElse (Averages.avgSpin stats) 0 >? 0)
              && (orElse (Averages.avgSpin stats) 0 <? 900));
    destruct ((orElse (Averages.avgSpeed stats) 0 >? 0)
              && (orElse (Averages.avgSpeed stats) 0 <? 50));
    reflexivity.
Qed.

(** X23.  The issues of a diagnosis are those of the rules that pass, in the
    fixed order severe wobble (100), nose (90), spin (70), mild wobble (60),
    power (40): their priorities strictly decrease along the list. *)
Theorem buildIssues_order (stats : Averages.t) :
  map (fun i => (Issue.metric i, Issue.priority i)) (buildIssues stats)
  = rankedRules stats /\
  StronglySorted (fun a b => Issue.priority b < Issue.priority a)
                 (buildIssues stats).
Proof.
  split; [apply buildIssues_ranked|].
  pose proof (buildIssues_ranked stats) as Hr.
  assert (Hp : StronglySorted (fun a b : Metric.t * number => snd b < snd a)
                              (rankedRules stats)).
  { unfold rankedRules. if_cases; simpl;
      repeat (constructor; try reflexivity). }
  rewrite <- Hr in Hp. clear Hr.
  induction (buildIssues stats) as [|i l IH]; [constructor|].
  simpl in Hp. inversion Hp as [|? ? Hs Hall]; subst.
  constructor; [apply IH; exact Hs|].
  rewrite Forall_map in Hall. exact Hall.
Qed.

Lemma buildIssues_metrics (stats : Averages.t) :
  map Issue.metric (buildIssues stats) = map fst (rankedRules stats).
Proof.
  rewrite <- buildIssues_ranked, map_map. reflexivity.
Qed.

(** X24.  A diagnosis has at most four issues and at most one issue for a
    metric, so the metric identifies an issue of the list. *)
Theorem buildIssues_one_per_metric (stats : Averages.t) :
  NoDup (map Issue.metric (buildIssues stats)) /\
  (length (buildIssues stats) <= 4)%nat.
Proof.
  rewrite <- (length_map Issue.metric), buildIssues_metrics.
  unfold rankedRules.
  destruct (orElse (Averages.avgWobble stats) 0 >? 4);
    destruct (orElse (Averages.avgWobble stats) 0 >? 3);
    if_cases; simpl; (split; [|lia]);
    repeat (constructor; [simpl; intuition discriminate|]); constructor.
Qed.

(** X25.  The diagnosis is empty, and the page reports no major issue,
    exactly when no rule passes: the wobble average is at most 3, the nose
    average at most 4, the spin average not strictly between 0 and 900 and
    the speed average not strictly between 0 and 50, an absent average
    counting as 0. *)
Theorem buildIssues_empty_iff (stats : Averages.t) :
  buildIssues stats = [] <->
  orElse (Averages.avgWobble stats) 0 <= 3 /\
  orElse (Averages.avgNose stats) 0 <= 4 /\
  ~ (0 < orElse (Averages.avgSpin stats) 0 < 900) /\
  ~ (0 < orElse (Averages.avgSpeed stats) 0 < 50).
Proof.
  assert (Hnil : buildIssues stats = [] <-> rankedRules stats = []).
  { rewrite <- buildIssues_ranked. split.
    - intros ->. reflexivity.
    - apply map_eq_nil. }
  rewrite Hnil. unfold rankedRules.
  destruct (orElse (Averages.avgWobble stats) 0 >? 4) eqn:Ew4;
    destruct (orElse (Averages.avgWobble stats) 0 >? 3) eqn:Ew3;
    destruct (orElse (Averages.avgNose stats) 0 >? 4) eqn:En;
    destruct (orElse (Averages.avgSpin stats) 0 >? 0) eqn:Es0;
    destruct (orElse (Averages.avgSpin stats) 0 <? 900) eqn:Es9;
    destruct (orElse (Averages.avgSpeed stats) 0 >? 0) eqn:Ep0;
    destruct (orElse (Averages.avgSpeed stats) 0 <? 50) eqn:Ep5;
    simpl; num_hyps;
    (split; [intros Hl; try discriminate Hl | intros (H1 & H2 & H3 & H4)]);
    try reflexivity; try (exfalso; lra);
    try (exfalso; apply H3; split; lra);
    try (exfalso; apply H4; split; lra);
    (split; [lra|]; split; [lra|]; split; intros [? ?]; lra).
Qed.

(** X26.  Every issue carries the unit and the goal of its metric, as
    [metricUnit] and [goalForMetric] give them, and its value is the session
    average of that metric, which is present. *)
Theorem buildIssues_labels (stats : Averages.t) (i : Issue.t) :
  In i (buildIssues stats) ->
  Issue.unitText i = metricUnit (Issue.metric i) /\
  Issue.goalText i = goalForMetric (Issue.metric i) /\
  Issue.value i <> None /\
  Issue.value i =
    match Issue.metric i with
    | Metric.wobble => Averages.avgWobble stats
    | Metric.nose => Averages.avgNose stats
    | Metric.spin => Averages.avgSpin stats
    | Metric.power => Averages.avgSpeed stats
    end.
Proof.
  unfold buildIssues. intros Hin.
  apply (Permutation_in _ (Permutation_sym (Array_sort_perm _ _))) in Hin.
  revert Hin. unfold push.
  destruct (orElse (Averages.avgWobble stats) 0 >? 4) eqn:Ew4;
    [|destruct (orElse (Averages.avgWobble stats) 0 >? 3) eqn:Ew3];
    destruct (orElse (Averages.avgNose stats) 0 >? 4) eqn:En;
    destruct (orElse (Averages.avgSpin stats) 0 >? 0) eqn:Es0;
    destruct (orElse (Averages.avgSpin stats) 0 <? 900) eqn:Es9;
    destruct (orElse (Averages.avgSpeed stats) 0 >? 0) eqn:Ep0;
    destruct (orElse (Averages.avgSpeed stats) 0 <? 50) eqn:Ep5;
    simpl; intros Hin;
    repeat match goal with
           | H : _ \/ _ |- _ => destruct H as [H|H]
           | H : False |- _ => destruct H
           end;
    subst i; simpl;
    (split; [reflexivity|]); (split; [reflexivity|]);
    (split; [|reflexivity]);
    intros Habs; rewrite Habs in *; discriminate.
Qed.

Lemma buildIssues_labels_witness :
  let stats := {| Averages.avgSpeed := Some 45;
                  Averages.avgSpin := Some 800;
                  Averages.avgNose := Some 4.5;
                  Averages.avgWobble := Some 3.4 |} in
  Forall (fun i =>
            Issue.unitText i = metricUnit (Issue.metric i) /\
            Issue.goalText i = goalForMetric (Issue.metric i) /\
            Issue.value i <> None /\
            Issue.value i =
              match Issue.metric i with
              | Metric.wobble => Averages.avgWobble stats
              | Metric.nose => Averages.avgNose stats
              | Metric.spin => Averages.avgSpin stats
              | Metric.power => Averages.avgSpeed stats
              end)
         (buildIssues stats).
Proof.
  intros stats. apply Forall_forall. intros i Hi.
  apply (buildIssues_labels stats i Hi).
Defined.

(* ------------------------------------------------------------------ *)
(** ** Drills *)

Lemma metric_is_eq (a b : Metric.t) : metric_is a b = true <-> a = b.
Proof. destruct a, b; simpl; split; intros; congruence. Qed.

Lemma Map_get_set_same (dm : DrillMap) (k : Metric.t) (v : list Drill.t) :
  Map_get (Map_set dm k v) k = Some v.
Proof.
  induction dm as [|[k' v'] rest IH]; simpl.
  - assert (E : metric_is k k = true) by (apply metric_is_eq; reflexivity).
    rewrite E. reflexivity.
  - destruct (metric_is k' k) eqn:E; simpl; rewrite E; [reflexivity | exact IH].
Qed.

Lemma Map_get_set_other (dm : DrillMap) (k k' : Metric.t) (v : list Drill.t) :
  k <> k' -> Map_get (Map_set dm k v) k' = Map_get dm k'.
Proof.
  intros Hk. induction dm as [|[k0 v0] rest IH]; simpl.
  - destruct (metric_is k k') eqn:E; [|reflexivity].
    apply metric_is_eq in E. contradiction.
  - destruct (metric_is k0 k) eqn:E; simpl.
    + apply metric_is_eq in E. subst k0.
      destruct (metric_is k k') eqn:E'; [|reflexivity].
      apply metric_is_eq in E'. contradiction.
    + destruct (metric_is k0 k'); [reflexivity | exact IH].
Qed.

Lemma Map_set_keys (dm : DrillMap) (k : Metric.t) (v : list Drill.t) :
  Map_get dm k <> None -> map fst (Map_set dm k v) = map fst dm.
Proof.
  induction dm as [|[k' v'] rest IH]; simpl; intros Hk.
  - congruence.
  - destruct (metric_is k' k); simpl; [reflexivity|].
    rewrite IH by exact Hk. reflexivity.
Qed.

Lemma pushDrill_loop (drills : list Drill.t) (dm : DrillMap)
    (held : Metric.t -> list Drill.t) :
  (forall m, Map_get dm m = Some (held m)) ->
  (forall m,
     Map_get (fold_left pushDrill drills dm) m
     = Some (held m
             ++ filter (fun d => metric_is (Drill.metric d) m) drills)) /\
  map fst (fold_left pushDrill drills dm) = map fst dm.
Proof.
  revert dm held. induction drills as [|d ds IH]; intros dm held Hmap.
  - simpl. split; [|reflexivity]. intros m. rewrite app_nil_r. apply Hmap.
  - cbn [fold_left].
    destruct (IH (pushDrill dm d)
                 (fun m => if metric_is (Drill.metric d) m
                           then held m ++ [d] else held m)) as [Hget Hkeys].
    + intros m. unfold pushDrill. rewrite Hmap. unfold push.
      destruct (metric_is (Drill.metric d) m) eqn:E.
      * apply metric_is_eq in E. subst m. apply Map_get_set_same.
      * rewrite Map_get_set_other; [apply Hmap|].
        intros Heq. apply metric_is_eq in Heq. congruence.
    + split.
      * intros m. rewrite Hget. cbn [filter].
        destruct (metric_is (Drill.metric d) m); [|reflexivity].
        rewrite <- app_assoc. reflexivity.
      * rewrite Hkeys. unfold pushDrill. rewrite Hmap.
        apply Map_set_keys. rewrite Hmap. discriminate.
Qed.

(** X27.  Grouping a catalogue of drills by metric loses and invents nothing:
    the map keeps the four metrics in the order wobble, nose, spin, power,
    and holds for each metric exactly the drills of the catalogue with that
    metric, in the order of the catalogue.  For the catalogue of the page
    every metric has at least one drill, so every issue is shown with a
    recommendation. *)
Theorem groupDrills_by_metric (drills : list Drill.t) (m : Metric.t) :
  Map_get (groupDrills drills) m
  = Some (filter (fun d => metric_is (Drill.metric d) m) drills) /\
  map fst (groupDrills drills)
  = [Metric.wobble; Metric.nose; Metric.spin; Metric.power] /\
  drillsFor m = filter (fun d => metric_is (Drill.metric d) m) DRILLS /\
  drillsFor m <> [].
Proof.
  assert (Hgen : forall ds,
    Map_get (groupDrills ds) m
    = Some (filter (fun d => metric_is (Drill.metric d) m) ds) /\
    map fst (groupDrills ds)
    = [Metric.wobble; Metric.nose; Metric.spin; Metric.power]).
  { intros ds. unfold groupDrills. cbv zeta.
    destruct (pushDrill_loop ds
                (fold_left (fun dm m => Map_set dm m [])
                   [Metric.wobble; Metric.nose; Metric.spin; Metric.power] [])
                (fun _ => [])) as [Hget Hkeys].
    - intros k. destruct k; reflexivity.
    - split; [apply Hget | rewrite Hkeys; reflexivity]. }
  split; [apply Hgen|]. split; [apply Hgen|].
  assert (Hfor : drillsFor m
                 = filter (fun d => metric_is (Drill.metric d) m) DRILLS).
  { unfold drillsFor, drillsByMetric. rewrite (proj1 (Hgen DRILLS)).
    reflexivity. }
  split; [exact Hfor|]. rewrite Hfor. destruct m; discriminate.
Qed.

(* ------------------------------------------------------------------ *)
(** ** Standard deviation *)




(* ------------------------------------------------------------------ *)
(** ** Global averages and user data *)

(** X29.  The global averages of a generated population of at least one
    sample lie in the intervals the samples are clamped to: speed in
    [25, 68], spin in [350, 1250], nose in [-6, 14] and wobble in
    [0.8, 11]. *)
Theorem globalAverages_in_range `{MathLib} (fuel nSessions : nat) (seed : Z)
    (g : GlobalStats.t) :
  generateSyntheticGlobalStats fuel nSessions seed = Some g ->
  (1 <= nSessions)%nat ->
  let avg := globalAverages g in
  25 <= GlobalAverages.speed avg <= 68 /\
  350 <= GlobalAverages.spin avg <= 1250 /\
  -6 <= GlobalAverages.nose avg <= 14 /\
  0.8 <= GlobalAverages.wobble avg <= 11.0.
Proof.
  intros Hg Hn avg.
  destruct (generated_population _ _ _ _ Hg)
    as ((L1 & F1) & (L2 & F2) & (L3 & F3) & (L4 & F4) & _).
  assert (Hm : forall lo hi arr,
             length arr = nSessions -> Forall (fun x => lo <= x <= hi) arr ->
             lo <= orElse (mean arr) 0 <= hi).
  { intros lo hi arr Hl HF.
    assert (Hne : arr <> []) by (apply nonempty_length; lia).
    destruct (mean_bounds lo hi arr Hne HF) as (m & -> & Hb). exact Hb. }
  unfold avg, globalAverages. simpl.
  split; [apply Hm; assumption|]. split; [apply Hm; assumption|].
  split; apply Hm; assumption.
Qed.

Lemma globalAverages_in_range_witness :
  exists g,
    @generateSyntheticGlobalStats exampleMath 2 3 1337 = Some g /\
    25 <= GlobalAverages.speed (globalAverages g) <= 68 /\
    350 <= GlobalAverages.spin (globalAverages g) <= 1250 /\
    -6 <= GlobalAverages.nose (globalAverages g) <= 14 /\
    0.8 <= GlobalAverages.wobble (globalAverages g) <= 11.0.
Proof.
  destruct example_population as (pop & s' & Hp).
  eexists. split.
  - unfold generateSyntheticGlobalStats. rewrite Hp. reflexivity.
  - apply (@globalAverages_in_range exampleMath 2 3 1337%Z).
    + unfold generateSyntheticGlobalStats. rewrite Hp. reflexivity.
    + lia.
Defined.

Lemma mean_defined (arr : list number) : mean arr <> None <-> arr <> [].
Proof. destruct arr; simpl; split; intros; congruence. Qed.

Lemma numbersOf_nil (f : Throw.t -> option number) (xs : list Throw.t) :
  numbersOf f xs = [] <-> Forall (fun t => f t = None) xs.
Proof.
  induction xs as [|t ts IH]; simpl.
  - split; [constructor | reflexivity].
  - destruct (f t) as [v|] eqn:E; simpl.
    + split; [discriminate|]. intros HF. inversion HF; subst. congruence.
    + rewrite IH. split.
      * intros HF. constructor; assumption.
      * intros HF. inversion HF; subst. assumption.
Qed.

(** X30.  The page has user data exactly when the session counts at least
    one throw, and then the speed average or the spin average is present: a
    session whose every average of speed and spin is absent shows no user
    data.  The count is the number of throws that carry a speed or a spin. *)
Theorem hasUserData_iff `{MathLib} (throws : list Throw.t) :
  let s := stats throws in
  (hasUserData throws = true <-> (1 <= SessionStats.count s)%nat) /\
  (hasUserData throws = true <->
   SessionStats.avgSpeed s <> None \/ SessionStats.avgSpin s <> None) /\
  SessionStats.count s
  = length (filter (fun t => isDefined (Throw.speed t)
                             || isDefined (Throw.spin t)) throws).
Proof.
  intros s. unfold s, stats, statsOf, hasUserData. simpl.
  split; [rewrite Nat.ltb_lt; reflexivity|]. split; [|reflexivity].
  rewrite Nat.ltb_lt, !mean_defined. split.
  - intros Hlen.
    destruct (cleanThrows throws) as [|t ts] eqn:E; [simpl in Hlen; lia|].
    assert (Ht : In t (cleanThrows throws)) by (rewrite E; left; reflexivity).
    unfold cleanThrows in Ht. apply filter_In in Ht. destruct Ht as [_ Ht].
    apply orb_true_iff in Ht. simpl.
    destruct (Throw.speed t) as [v|]; [left; discriminate|].
    destruct (Throw.spin t) as [w|]; [right; discriminate|].
    destruct Ht; discriminate.
  - intros [Hs|Hs]; destruct (cleanThrows throws); simpl in *; try lia;
      congruence.
Qed.
